(** * SimpleImage: a shallow embedding of the Editor.js tool

    The repository holds two hand-written revisions of the tool class
    and two bundles.  All four are embedded here, each in a module of
    its own, over one model of the browser objects they touch (image
    elements, file readers, promises and the microtask queue) and of the
    host callbacks they invoke.

    - [Accessor] is the revision whose [data] property is a getter/setter
      pair over [_data] (the setter merges and re-renders).
    - [Callback] is the revision with the [initialize] and [onpaste] host
      callbacks and the [makeImage] method; its [data] is a plain field.
    - [Bundle] is the minified class that has both the accessor pair and
      the two callbacks.
    - [Dist] is the class of [dist/bundle.js], whose [makeImage] works
      through two implicit globals.

    The image pattern of [pasteConfig] is embedded as a regular
    expression with its matcher. *)

From stdpp Require Import gmap strings list fin_maps pretty.
From Stdlib Require Import Ascii.

Set Warnings "-register-all".

(** ** JavaScript values and objects *)

(** The values a data record holds: strings (the url), integral numbers
    (the natural sizes) and [undefined]. *)
Inductive jsval : Type :=
  | VUndefined
  | VString (s : string)
  | VNumber (n : Z).

#[global] Instance jsval_eq_dec : EqDecision jsval.
Proof. solve_decision. Defined.

(** [ToBoolean]: the test of [if (this.data.url)]. *)
Definition ToBoolean (v : jsval) : bool :=
  match v with
  | VUndefined => false
  | VString s => negb (String.eqb s "")
  | VNumber n => negb (n =? 0)%Z
  end.

(** [ToString]: the conversion made by [image.src = v]. *)
Definition ToString (v : jsval) : string :=
  match v with
  | VUndefined => "undefined"
  | VString s => s
  | VNumber n => pretty n
  end.

(** A plain object: own enumerable properties by name. *)
Abbreviation obj := (gmap string jsval).

(** [o.k], which is [undefined] for a missing property. *)
Definition prop (o : obj) (k : string) : jsval := default VUndefined (o !! k).

(** [Object.assign(target, source)]: every own property of [source] is
    written to [target]; the other properties of [target] stay. *)
Definition Object_assign (target source : obj) : obj := source ∪ target.

(** The typedef [SimpleImageData]: an object with a string [url]. *)
Definition SimpleImageData (d : obj) : Prop :=
  ∃ u : string, d !! "url" = Some (VString u).

(** ** DOM elements *)

(** An element: its local name, the value of its [src] property and its
    children. *)
Inductive Element : Type :=
  | Elem (localName : string) (src : string) (childNodes : list Element).

Definition localName (e : Element) : string :=
  match e with Elem n _ _ => n end.
Definition src (e : Element) : string :=
  match e with Elem _ s _ => s end.
Definition childNodes (e : Element) : list Element :=
  match e with Elem _ _ cs => cs end.

(** An element followed by its descendants, in tree order. *)
Fixpoint subtree (e : Element) : list Element :=
  match e with
  | Elem _ _ cs => e :: flat_map subtree cs
  end.

Definition descendants (e : Element) : list Element :=
  flat_map subtree (childNodes e).

Definition is_img (e : Element) : bool := String.eqb (localName e) "img".

(** [root.querySelector('img')]: the first descendant, in tree order,
    that is an [img]; [null] when there is none. *)
Definition querySelector_img (root : Element) : option Element :=
  head (filter (λ e, is_img e = true) (descendants root)).

(** ** Files and the data URL of a file *)

(** A file: its media type and its contents, base64-encoded. *)
Record File : Type := {
  file_type : string;
  file_base64 : string;
}.

(** The [result] of a reader after a successful [readAsDataURL]. *)
Definition readAsDataURL_result (f : File) : string :=
  "data:" +:+ file_type f +:+ ";base64," +:+ file_base64 f.

(** ** Host interface *)

(** [api.blocks.getCurrentBlockIndex()]. *)
Record Api : Type := {
  getCurrentBlockIndex : Z;
}.

(** The user config: which optional callbacks the host supplied, and the
    host's own entries.  The behaviour of [config.view] is the [view]
    function the revisions below are parameterised by. *)
Record Config : Type := {
  has_initialize : bool;
  has_onpaste : bool;
  entries : obj;
}.

(** Promises are named after the object they are created with: the
    promise of [render] after its image element, the promise of
    [onDropHandler] after its reader.  Each [new Promise] is an object of
    its own, and so is each name. *)
Inductive promise_ref : Type :=
  | ImagePromise (image : nat)
  | DropPromise (reader : nat).

(** The object literal handed to the host callbacks.  A field the
    literal does not list, or whose value is [undefined], is [None]. *)
Record PluginArgs : Type := {
  pluginId : string;
  pluginApi : Api;
  pluginBlockIndex : option Z;
  pluginData : obj;
  pluginUserConfig : Config;
  pluginImage : option nat;
  pluginImagePromise : option promise_ref;
}.

Inductive HostCall : Type :=
  | CallInitialize (a : PluginArgs)
  | CallView (a : PluginArgs)
  | CallOnpaste (a : PluginArgs).

(** ** Browser objects *)

Inductive Error : Type :=
  | ReferenceError (name : string)
  | TypeError (msg : string).

(** What a promise is settled with. *)
Inductive settled : Type :=
  | SImage (i : nat)
  | SData (d : obj)
  | SErrorEvent (target : nat).

Inductive promise_state : Type :=
  | Pending
  | Fulfilled (v : settled)
  | Rejected (v : settled).

(** The one [then] callback of the tool: [data => { this.data = data; ... }]
    in [onPaste].  The promise [then] returns is dropped there. *)
Inductive reaction : Type :=
  | ThenPastedFile.

Record Promise : Type := {
  pstate : promise_state;
  reactions : list reaction;
}.

Definition fresh_promise : Promise := {| pstate := Pending; reactions := [] |}.

(** A microtask: a [then] callback and what its promise settled with. *)
Record Job : Type := {
  job_reaction : reaction;
  job_outcome : promise_state;
}.

Inductive load_state : Type :=
  | Loading
  | Loaded (naturalWidth naturalHeight : Z)
  | Broken.

(** The closures [render] installs on an image element: [onload] stores
    the natural size and resolves the image's promise, [onerror] is that
    promise's [reject]. *)
Inductive onload_handler : Type :=
  | StoreSizeAndResolve.
Inductive onerror_handler : Type :=
  | RejectPromise.

Record Image : Type := {
  img_src : string;
  img_onload : option onload_handler;
  img_onerror : option onerror_handler;
  img_state : load_state;
  img_promise : Promise;
}.

Inductive read_state : Type :=
  | Reading
  | Done
  | Failed.

#[global] Instance read_state_eq_dec : EqDecision read_state.
Proof. solve_decision. Defined.

(** [reader.onload] of [onDropHandler]: resolve with [{url: result}]. *)
Inductive reader_onload_handler : Type :=
  | ResolveWithUrl.

Record FileReader : Type := {
  fr_file : File;
  fr_onload : option reader_onload_handler;
  fr_onerror : option onerror_handler;
  fr_state : read_state;
  fr_promise : Promise;
}.

(** Everything outside the tool object.  Images and readers are named
    by their position, in creation order. *)
Record World : Type := {
  images : list Image;
  readers : list FileReader;
  jobs : list Job;
  calls : list HostCall;
  console : list Error;
}.

Definition empty_world : World :=
  {| images := []; readers := []; jobs := []; calls := []; console := [] |}.

Definition set_images (f : list Image → list Image) (w : World) : World :=
  {| images := f (images w); readers := readers w;
     jobs := jobs w; calls := calls w; console := console w |}.
Definition set_readers (f : list FileReader → list FileReader) (w : World) : World :=
  {| images := images w; readers := f (readers w);
     jobs := jobs w; calls := calls w; console := console w |}.
Definition set_jobs (f : list Job → list Job) (w : World) : World :=
  {| images := images w; readers := readers w;
     jobs := f (jobs w); calls := calls w; console := console w |}.
Definition log_call (c : HostCall) (w : World) : World :=
  {| images := images w; readers := readers w;
     jobs := jobs w; calls := calls w ++ [c]; console := console w |}.
Definition console_error (e : Error) (w : World) : World :=
  {| images := images w; readers := readers w;
     jobs := jobs w; calls := calls w; console := console w ++ [e] |}.

Definition with_img_state (s : load_state) (im : Image) : Image :=
  {| img_src := img_src im; img_onload := img_onload im;
     img_onerror := img_onerror im; img_state := s;
     img_promise := img_promise im |}.
Definition with_img_promise (p : Promise) (im : Image) : Image :=
  {| img_src := img_src im; img_onload := img_onload im;
     img_onerror := img_onerror im; img_state := img_state im;
     img_promise := p |}.
Definition with_fr_state (s : read_state) (fr : FileReader) : FileReader :=
  {| fr_file := fr_file fr; fr_onload := fr_onload fr;
     fr_onerror := fr_onerror fr; fr_state := s;
     fr_promise := fr_promise fr |}.
Definition with_fr_promise (p : Promise) (fr : FileReader) : FileReader :=
  {| fr_file := fr_file fr; fr_onload := fr_onload fr;
     fr_onerror := fr_onerror fr; fr_state := fr_state fr;
     fr_promise := p |}.

Definition lookup_promise (p : promise_ref) (w : World) : option Promise :=
  match p with
  | ImagePromise i => img_promise <$> images w !! i
  | DropPromise r => fr_promise <$> readers w !! r
  end.

Definition store_promise (p : promise_ref) (pr : Promise) (w : World) : World :=
  match p with
  | ImagePromise i => set_images (alter (with_img_promise pr) i) w
  | DropPromise r => set_readers (alter (with_fr_promise pr) r) w
  end.

(** [resolve(v)] and [reject(v)]: a promise settles once, and its
    [then] callbacks are queued as microtasks. *)
Definition settle (p : promise_ref) (s : promise_state) (w : World) : World :=
  match lookup_promise p w with
  | Some {| pstate := Pending; reactions := rs |} =>
      set_jobs (λ js, js ++ map (λ cb, {| job_reaction := cb; job_outcome := s |}) rs)
        (store_promise p {| pstate := s; reactions := [] |} w)
  | _ => w
  end.

(** [p.then(cb)]: [cb] runs in a microtask once [p] is fulfilled. *)
Definition then_ (p : promise_ref) (cb : reaction) (w : World) : World :=
  match lookup_promise p w with
  | Some {| pstate := Pending; reactions := rs |} =>
      store_promise p {| pstate := Pending; reactions := rs ++ [cb] |} w
  | Some {| pstate := s; reactions := _ |} =>
      set_jobs (λ js, js ++ [{| job_reaction := cb; job_outcome := s |}]) w
  | None => w
  end.

(** ** [onDropHandler], the same in both revisions

<<
  onDropHandler(file) {
    const reader = new FileReader();
    reader.readAsDataURL(file);
    return new Promise(resolve => {
      reader.onload = (event) => { resolve({ url: event.target.result }); };
    });
  }
>>
    No [onerror] is installed on the reader. *)
Definition onDropHandler (file : File) (w : World) : promise_ref * World :=
  let reader := length (readers w) in
  (DropPromise reader,
   set_readers (λ rs, rs ++ [{| fr_file := file;
                                fr_onload := Some ResolveWithUrl;
                                fr_onerror := None;
                                fr_state := Reading;
                                fr_promise := fresh_promise |}]) w).

(** The reader's [load] event: the read succeeded, [result] is the data
    URL of the file, and [onload] runs. *)
Definition reader_load (r : nat) (w : World) : World :=
  match readers w !! r with
  | Some fr =>
      match fr_state fr with
      | Reading =>
          let w1 := set_readers (<[r := with_fr_state Done fr]>) w in
          match fr_onload fr with
          | Some ResolveWithUrl =>
              settle (DropPromise r)
                (Fulfilled (SData {[ "url" := VString (readAsDataURL_result (fr_file fr)) ]}))
                w1
          | None => w1
          end
      | _ => w
      end
  | None => w
  end.

(** The reader's [error] event: the read failed, and [onerror] runs if
    there is one. *)
Definition reader_error (r : nat) (w : World) : World :=
  match readers w !! r with
  | Some fr =>
      match fr_state fr with
      | Reading =>
          let w1 := set_readers (<[r := with_fr_state Failed fr]>) w in
          match fr_onerror fr with
          | Some RejectPromise => settle (DropPromise r) (Rejected (SErrorEvent r)) w1
          | None => w1
          end
      | _ => w
      end
  | None => w
  end.

(** ** Image events *)

(** [document.createElement('img')] followed by the assignments of
    [src], [onload] and [onerror] and by [new Promise]. *)
Definition create_image (url : string) (w : World) : nat * World :=
  (length (images w),
   set_images (λ l, l ++ [{| img_src := url;
                             img_onload := Some StoreSizeAndResolve;
                             img_onerror := Some RejectPromise;
                             img_state := Loading;
                             img_promise := fresh_promise |}]) w).

(** The image's [error] event: the load failed and [onerror] runs with
    the event. *)
Definition image_error (i : nat) (w : World) : World :=
  match images w !! i with
  | Some im =>
      match img_state im with
      | Loading =>
          let w1 := set_images (<[i := with_img_state Broken im]>) w in
          match img_onerror im with
          | Some RejectPromise => settle (ImagePromise i) (Rejected (SErrorEvent i)) w1
          | None => w1
          end
      | _ => w
      end
  | None => w
  end.

(** Paste events, by their [type]; the argument is what the branch
    reads from [detail]. *)
Inductive PasteEvent : Type :=
  | PasteTag (data : Element)
  | PastePattern (data : string)
  | PasteFile (file : File)
  | PasteOther (type : string).

(** * The revision with the [data] accessor pair *)
Module Accessor.

Record SimpleImage : Type := {
  id : string;
  api : Api;
  config : Config;
  _data : obj;
  blockIndex : option Z;
}.

Definition with_data (d : obj) (t : SimpleImage) : SimpleImage :=
  {| id := id t; api := api t; config := config t; _data := d;
     blockIndex := blockIndex t |}.

(** [get data() { return this._data; }] *)
Definition get_data (t : SimpleImage) : obj := _data t.

Section host.
Context {Node : Type} (view : PluginArgs → Node).

(** [render()]: the image and its promise exist only for a truthy url;
    the argument of [view] lists no block index. *)
Definition render (t : SimpleImage) (w : World) : Node * World :=
  let ctx image imagePromise :=
    {| pluginId := id t; pluginApi := api t; pluginBlockIndex := None;
       pluginData := get_data t; pluginUserConfig := config t;
       pluginImage := image; pluginImagePromise := imagePromise |} in
  if ToBoolean (prop (get_data t) "url") then
    let '(image, w1) := create_image (ToString (prop (get_data t) "url")) w in
    let a := ctx (Some image) (Some (ImagePromise image)) in
    (view a, log_call (CallView a) w1)
  else
    let a := ctx None None in
    (view a, log_call (CallView a) w).

(** [set data(data)]: merge into a fresh object, then render when the
    merged url is truthy; the value [render] returns is dropped. *)
Definition set_data (data : obj) (t : SimpleImage) (w : World)
  : SimpleImage * World :=
  let t' := with_data (Object_assign (Object_assign ∅ (get_data t)) data) t in
  if ToBoolean (prop (get_data t') "url") then (t', (render t' w).2)
  else (t', w).

(** The constructor.  [rnd] is the string drawn from [Math.random].
    When the setter first runs [this._data] is [undefined], a source
    [Object.assign] skips: the merge starts from the empty object. *)
Definition constructor (rnd : string) (data : obj) (config0 : Config)
    (api0 : Api) (w : World) : SimpleImage * World :=
  let t0 := {| id := rnd; api := api0; config := config0; _data := ∅;
               blockIndex := None |} in
  let '(t1, w1) := set_data data t0 w in
  ({| id := id t1; api := api t1; config := config t1; _data := _data t1;
      blockIndex := Some (getCurrentBlockIndex api0 + 1)%Z |}, w1).

(** [save(blockContent)]: [Object.assign] writes into the stored
    object itself, past the setter, and returns that object. *)
Definition save (blockContent : Element) (t : SimpleImage)
  : obj * SimpleImage :=
  match querySelector_img blockContent with
  | None => (get_data t, t)
  | Some image =>
      let d := Object_assign (get_data t) {[ "url" := VString (src image) ]} in
      (d, with_data d t)
  end.

(** [onPaste(event)] *)
Definition onPaste (event : PasteEvent) (t : SimpleImage) (w : World)
  : SimpleImage * World :=
  match event with
  | PasteTag img => set_data {[ "url" := VString (src img) ]} t w
  | PastePattern text => set_data {[ "url" := VString text ]} t w
  | PasteFile file =>
      let '(p, w1) := onDropHandler file w in
      (t, then_ p ThenPastedFile w1)
  | PasteOther _ => (t, w)
  end.

(** The microtask of [then(data => { this.data = data; })]. *)
Definition run_job (j : Job) (t : SimpleImage) (w : World)
  : SimpleImage * World :=
  match job_reaction j, job_outcome j with
  | ThenPastedFile, Fulfilled (SData data) => set_data data t w
  | ThenPastedFile, _ => (t, w)
  end.

(** The microtask checkpoint that ends every task. *)
Definition run_jobs (t : SimpleImage) (w : World) : SimpleImage * World :=
  foldl (λ tw j, run_job j tw.1 tw.2) (t, set_jobs (λ _, []) w) (jobs w).

(** The image's [load] event: the element has its natural size and
    [onload] runs, writing both sizes into the current [_data] and
    resolving the promise with the element. *)
Definition image_load (i : nat) (nw nh : Z) (t : SimpleImage) (w : World)
  : SimpleImage * World :=
  match images w !! i with
  | Some im =>
      match img_state im with
      | Loading =>
          let w1 := set_images (<[i := with_img_state (Loaded nw nh) im]>) w in
          match img_onload im with
          | Some StoreSizeAndResolve =>
              (with_data (<["naturalHeight" := VNumber nh]>
                            (<["naturalWidth" := VNumber nw]> (_data t))) t,
               settle (ImagePromise i) (Fulfilled (SImage i)) w1)
          | None => (t, w1)
          end
      | _ => (t, w)
      end
  | None => (t, w)
  end.

(** What can happen to a tool: the host calls a method, or the
    browser delivers an event. *)
Inductive Task : Type :=
  | DoRender
  | DoSave (blockContent : Element)
  | DoPaste (event : PasteEvent)
  | DoDrop (file : File)
  | ImageLoad (i : nat) (naturalWidth naturalHeight : Z)
  | ImageError (i : nat)
  | ReaderLoad (r : nat)
  | ReaderError (r : nat).

(** The task itself. *)
Definition dispatch (e : Task) (t : SimpleImage) (w : World)
  : SimpleImage * World :=
  match e with
  | DoRender => (t, (render t w).2)
  | DoSave b => ((save b t).2, w)
  | DoPaste ev => onPaste ev t w
  | DoDrop f => (t, (onDropHandler f w).2)
  | ImageLoad i nw nh => image_load i nw nh t w
  | ImageError i => (t, image_error i w)
  | ReaderLoad r => (t, reader_load r w)
  | ReaderError r => (t, reader_error r w)
  end.

(** A task followed by its microtask checkpoint. *)
Definition step (s : SimpleImage * World) (e : Task) : SimpleImage * World :=
  let '(t', w') := dispatch e s.1 s.2 in run_jobs t' w'.

Definition run (s : SimpleImage * World) (es : list Task) : SimpleImage * World :=
  foldl step s es.
End host.
End Accessor.

(** * The revision with the [initialize] and [onpaste] callbacks *)
Module Callback.

Record SimpleImage : Type := {
  id : string;
  api : Api;
  config : Config;
  data : obj;
  blockIndex : Z;
}.

Definition with_data (d : obj) (t : SimpleImage) : SimpleImage :=
  {| id := id t; api := api t; config := config t; data := d;
     blockIndex := blockIndex t |}.

(** How a statement ends: normally, or by throwing. *)
Inductive completion (A : Type) : Type :=
  | Normal (a : A)
  | Throw (e : Error).
Arguments Normal {A} a.
Arguments Throw {A} e.

(** The arguments shared by the three callbacks of this revision. *)
Definition context (t : SimpleImage) (image : option nat)
    (imagePromise : option promise_ref) : PluginArgs :=
  {| pluginId := id t; pluginApi := api t;
     pluginBlockIndex := Some (blockIndex t);
     pluginData := data t; pluginUserConfig := config t;
     pluginImage := image; pluginImagePromise := imagePromise |}.

(** The constructor.  [rnd] is the string drawn from [Math.random];
    [data] is a plain field here, so the assignment only stores. *)
Definition constructor (rnd : string) (data0 : obj) (config0 : Config)
    (api0 : Api) (w : World) : SimpleImage * World :=
  let t := {| id := rnd; api := api0; config := config0; data := data0;
              blockIndex := (getCurrentBlockIndex api0 + 1)%Z |} in
  if has_initialize config0 then (t, log_call (CallInitialize (context t None None)) w)
  else (t, w).

(** The method [makeImage].  Its body assigns to [image], a name
    declared nowhere in its scope; class bodies are strict code, where
    such an assignment throws.  With a falsy url the method returns
    [undefined]. *)
Definition makeImage (t : SimpleImage) (w : World)
  : completion (option (nat * promise_ref)) * World :=
  if ToBoolean (prop (data t) "url") then (Throw (ReferenceError "image"), w)
  else (Normal None, w).

(** The expression [makeImage()] of [render] and [onPaste].  It names a
    variable, not the method of [this]; the module binds no [makeImage],
    so evaluating the name throws before any call is made. *)
Definition call_makeImage : completion (option nat * option promise_ref) :=
  Throw (ReferenceError "makeImage").

Section host.
Context {Node : Type} (view : PluginArgs → Node).

(** [render()]: whatever the [try] block throws is printed, and the
    method then returns [undefined] ([None]). *)
Definition render (t : SimpleImage) (w : World) : option Node * World :=
  match call_makeImage with
  | Normal (image, imagePromise) =>
      let a := context t image imagePromise in
      (Some (view a), log_call (CallView a) w)
  | Throw e => (None, console_error e w)
  end.

(** [save(blockContent)] *)
Definition save (blockContent : Element) (t : SimpleImage)
  : obj * SimpleImage :=
  match querySelector_img blockContent with
  | None => (data t, t)
  | Some image =>
      let d := Object_assign (data t) {[ "url" := VString (src image) ]} in
      (d, with_data d t)
  end.

(** The local [onpaste] closure of [onPaste]. *)
Definition onpaste (t : SimpleImage) (w : World) : completion unit * World :=
  if has_onpaste (config t) then
    match call_makeImage with
    | Normal (image, imagePromise) =>
        (Normal (), log_call (CallOnpaste (context t image imagePromise)) w)
    | Throw e => (Throw e, w)
    end
  else (Normal (), w).

(** [onPaste(event)] *)
Definition onPaste (event : PasteEvent) (t : SimpleImage) (w : World)
  : completion unit * (SimpleImage * World) :=
  match event with
  | PasteTag img =>
      let t' := with_data {[ "url" := VString (src img) ]} t in
      let '(c, w') := onpaste t' w in (c, (t', w'))
  | PastePattern text =>
      let t' := with_data {[ "url" := VString text ]} t in
      let '(c, w') := onpaste t' w in (c, (t', w'))
  | PasteFile file =>
      let '(p, w1) := onDropHandler file w in
      (Normal (), (t, then_ p ThenPastedFile w1))
  | PasteOther _ => (Normal (), (t, w))
  end.

(** The microtask of [then(data => { this.data = data; onpaste(); })];
    what it throws rejects the promise [then] returned, which nobody
    holds. *)
Definition run_job (j : Job) (t : SimpleImage) (w : World)
  : SimpleImage * World :=
  match job_reaction j, job_outcome j with
  | ThenPastedFile, Fulfilled (SData d) =>
      let t' := with_data d t in (t', (onpaste t' w).2)
  | ThenPastedFile, _ => (t, w)
  end.

Definition run_jobs (t : SimpleImage) (w : World) : SimpleImage * World :=
  foldl (λ tw j, run_job j tw.1 tw.2) (t, set_jobs (λ _, []) w) (jobs w).

(** Host calls and browser events.  This revision creates no image
    element, so the only events are those of file readers. *)
Inductive Task : Type :=
  | DoRender
  | DoSave (blockContent : Element)
  | DoPaste (event : PasteEvent)
  | DoDrop (file : File)
  | ReaderLoad (r : nat)
  | ReaderError (r : nat).

(** The task itself; what [onPaste] throws goes to the host. *)
Definition dispatch (e : Task) (t : SimpleImage) (w : World)
  : SimpleImage * World :=
  match e with
  | DoRender => (t, (render t w).2)
  | DoSave b => ((save b t).2, w)
  | DoPaste ev => (onPaste ev t w).2
  | DoDrop f => (t, (onDropHandler f w).2)
  | ReaderLoad r => (t, reader_load r w)
  | ReaderError r => (t, reader_error r w)
  end.

(** A task followed by its microtask checkpoint. *)
Definition step (s : SimpleImage * World) (e : Task) : SimpleImage * World :=
  let '(t', w') := dispatch e s.1 s.2 in run_jobs t' w'.

Definition run (s : SimpleImage * World) (es : list Task) : SimpleImage * World :=
  foldl step s es.
End host.
End Callback.

(** * The bundle built from the accessor pair with both callbacks

    The minified class: the [data] accessor pair of [Accessor], the
    [initialize] and [onpaste] callbacks of [Callback], and a [render]
    that builds its image inline inside a [try] block. *)
Module Bundle.

Record SimpleImage : Type := {
  id : string;
  api : Api;
  config : Config;
  _data : obj;
  (** [undefined] until the constructor has assigned it *)
  blockIndex : option Z;
}.

Definition with_data (d : obj) (t : SimpleImage) : SimpleImage :=
  {| id := id t; api := api t; config := config t; _data := d;
     blockIndex := blockIndex t |}.

Definition get_data (t : SimpleImage) : obj := _data t.

Definition context (t : SimpleImage) (image : option nat)
    (imagePromise : option promise_ref) : PluginArgs :=
  {| pluginId := id t; pluginApi := api t;
     pluginBlockIndex := blockIndex t;
     pluginData := _data t; pluginUserConfig := config t;
     pluginImage := image; pluginImagePromise := imagePromise |}.

Section host.
Context {Node : Type} (view : PluginArgs → Node).

(** [render]: no statement of the [try] block throws here ([view] is
    a total function), so its [catch] is not entered. *)
Definition render (t : SimpleImage) (w : World) : Node * World :=
  if ToBoolean (prop (get_data t) "url") then
    let '(image, w1) := create_image (ToString (prop (get_data t) "url")) w in
    let a := context t (Some image) (Some (ImagePromise image)) in
    (view a, log_call (CallView a) w1)
  else
    let a := context t None None in
    (view a, log_call (CallView a) w).

(** [set: function(t) { this._data = Object.assign({}, this.data, t),
    this.data.url && this.render() }] *)
Definition set_data (data : obj) (t : SimpleImage) (w : World)
  : SimpleImage * World :=
  let t' := with_data (Object_assign (Object_assign ∅ (get_data t)) data) t in
  if ToBoolean (prop (get_data t') "url") then (t', (render t' w).2)
  else (t', w).

Definition constructor (rnd : string) (data : obj) (config0 : Config)
    (api0 : Api) (w : World) : SimpleImage * World :=
  let t0 := {| id := rnd; api := api0; config := config0; _data := ∅;
               blockIndex := None |} in
  let '(t1, w1) := set_data data t0 w in
  let t2 := {| id := id t1; api := api t1; config := config t1;
               _data := _data t1;
               blockIndex := Some (getCurrentBlockIndex api0 + 1)%Z |} in
  if has_initialize config0
  then (t2, log_call (CallInitialize (context t2 None None)) w1)
  else (t2, w1).

(** The local closure [n] of [onPaste]; its argument lists neither
    the image nor its promise. *)
Definition onpaste (t : SimpleImage) (w : World) : World :=
  if has_onpaste (config t)
  then log_call (CallOnpaste (context t None None)) w
  else w.

Definition onPaste (event : PasteEvent) (t : SimpleImage) (w : World)
  : SimpleImage * World :=
  match event with
  | PasteTag img =>
      let '(t', w') := set_data {[ "url" := VString (src img) ]} t w in
      (t', onpaste t' w')
  | PastePattern text =>
      let '(t', w') := set_data {[ "url" := VString text ]} t w in
      (t', onpaste t' w')
  | PasteFile file =>
      let '(p, w1) := onDropHandler file w in
      (t, then_ p ThenPastedFile w1)
  | PasteOther _ => (t, w)
  end.

(** The microtask of [then(function(t) { e.data = t, n() })]. *)
Definition run_job (j : Job) (t : SimpleImage) (w : World)
  : SimpleImage * World :=
  match job_reaction j, job_outcome j with
  | ThenPastedFile, Fulfilled (SData d) =>
      let '(t', w') := set_data d t w in (t', onpaste t' w')
  | ThenPastedFile, _ => (t, w)
  end.

Definition run_jobs (t : SimpleImage) (w : World) : SimpleImage * World :=
  foldl (λ tw j, run_job j tw.1 tw.2) (t, set_jobs (λ _, []) w) (jobs w).
End host.
End Bundle.

(** * The distributed bundle

    The class of [dist/bundle.js]: [data] is a plain field, and [render]
    and the [onpaste] closure call [this.makeImage()].  The bundle is not
    strict code, and [makeImage] assigns [image] and [imagePromise]
    without declaring them: both are properties of the global object,
    shared by every call.  The [onload] closure reads [image] when the
    event is delivered. *)
Module Dist.

Record SimpleImage : Type := {
  id : string;
  api : Api;
  config : Config;
  data : obj;
  blockIndex : Z;
}.

Definition with_data (d : obj) (t : SimpleImage) : SimpleImage :=
  {| id := id t; api := api t; config := config t; data := d;
     blockIndex := blockIndex t |}.

(** The two implicit globals; [None] while never assigned. *)
Record Globals : Type := {
  image : option nat;
  imagePromise : option promise_ref;
}.

Definition no_globals : Globals := {| image := None; imagePromise := None |}.

(** The tool, the globals and the rest of the page. *)
Record Page : Type := {
  tool : SimpleImage;
  globals : Globals;
  world : World;
}.

Definition context (t : SimpleImage) (im : option nat)
    (p : option promise_ref) : PluginArgs :=
  {| pluginId := id t; pluginApi := api t;
     pluginBlockIndex := Some (blockIndex t);
     pluginData := data t; pluginUserConfig := config t;
     pluginImage := im; pluginImagePromise := p |}.

(** [element.naturalWidth] and [element.naturalHeight]: zero until the
    element has loaded. *)
Definition natural_size (im : Image) : Z * Z :=
  match img_state im with
  | Loaded nw nh => (nw, nh)
  | _ => (0, 0)%Z
  end.

(** The constructor; [rnd] is the string drawn from [Math.random]. *)
Definition constructor (rnd : string) (data0 : obj) (config0 : Config)
    (api0 : Api) (w : World) : SimpleImage * World :=
  let t := {| id := rnd; api := api0; config := config0; data := data0;
              blockIndex := (getCurrentBlockIndex api0 + 1)%Z |} in
  if has_initialize config0 then (t, log_call (CallInitialize (context t None None)) w)
  else (t, w).

(** [makeImage()]: with a truthy url the new element and its promise
    are stored in the globals and read back from them into the result;
    otherwise the result is the empty object. *)
Definition makeImage (t : SimpleImage) (g : Globals) (w : World)
  : (option nat * option promise_ref) * Globals * World :=
  if ToBoolean (prop (data t) "url") then
    let '(i, w1) := create_image (ToString (prop (data t) "url")) w in
    let g1 := {| image := Some i; imagePromise := Some (ImagePromise i) |} in
    ((image g1, imagePromise g1), g1, w1)
  else ((None, None), g, w).

Section host.
Context {Node : Type} (view : PluginArgs → Node).

(** [render()]: no statement of the [try] block throws here. *)
Definition render (t : SimpleImage) (g : Globals) (w : World)
  : Node * Globals * World :=
  let '((im, p), g1, w1) := makeImage t g w in
  let a := context t im p in
  (view a, g1, log_call (CallView a) w1).

Definition save (blockContent : Element) (t : SimpleImage)
  : obj * SimpleImage :=
  match querySelector_img blockContent with
  | None => (data t, t)
  | Some img =>
      let d := Object_assign (data t) {[ "url" := VString (src img) ]} in
      (d, with_data d t)
  end.

(** The local closure of [onPaste]: the image is made only when the
    host supplied [onpaste]. *)
Definition onpaste (t : SimpleImage) (g : Globals) (w : World) : Globals * World :=
  if has_onpaste (config t) then
    let '((im, p), g1, w1) := makeImage t g w in
    (g1, log_call (CallOnpaste (context t im p)) w1)
  else (g, w).

Definition onPaste (event : PasteEvent) (s : Page) : Page :=
  match event with
  | PasteTag img =>
      let t' := with_data {[ "url" := VString (src img) ]} (tool s) in
      let '(g', w') := onpaste t' (globals s) (world s) in
      {| tool := t'; globals := g'; world := w' |}
  | PastePattern text =>
      let t' := with_data {[ "url" := VString text ]} (tool s) in
      let '(g', w') := onpaste t' (globals s) (world s) in
      {| tool := t'; globals := g'; world := w' |}
  | PasteFile file =>
      let '(p, w1) := onDropHandler file (world s) in
      {| tool := tool s; globals := globals s; world := then_ p ThenPastedFile w1 |}
  | PasteOther _ => s
  end.

(** The microtask of [then(function(e) { t.data = e, n() })]. *)
Definition run_job (j : Job) (s : Page) : Page :=
  match job_reaction j, job_outcome j with
  | ThenPastedFile, Fulfilled (SData d) =>
      let t' := with_data d (tool s) in
      let '(g', w') := onpaste t' (globals s) (world s) in
      {| tool := t'; globals := g'; world := w' |}
  | ThenPastedFile, _ => s
  end.

Definition run_jobs (s : Page) : Page :=
  foldl (λ s j, run_job j s)
    {| tool := tool s; globals := globals s; world := set_jobs (λ _, []) (world s) |}
    (jobs (world s)).

(** The [load] event of element [i].  Its [onload] closure reads the
    global [image], whichever element that is by now: the sizes written
    into the record and the value the promise of [i] is resolved with
    are those of the global.  With the global unassigned the closure
    throws at [image.naturalWidth] and nothing is written. *)
Definition image_load (i : nat) (nw nh : Z) (s : Page) : Page :=
  let w := world s in
  match images w !! i with
  | Some im =>
      match img_state im with
      | Loading =>
          let w1 := set_images (<[i := with_img_state (Loaded nw nh) im]>) w in
          match img_onload im, image (globals s) with
          | Some StoreSizeAndResolve, Some k =>
              match images w1 !! k with
              | Some imk =>
                  let '(kw, kh) := natural_size imk in
                  {| tool := with_data (<["naturalHeight" := VNumber kh]>
                                          (<["naturalWidth" := VNumber kw]> (data (tool s))))
                                       (tool s);
                     globals := globals s;
                     world := settle (ImagePromise i) (Fulfilled (SImage k)) w1 |}
              | None => {| tool := tool s; globals := globals s; world := w1 |}
              end
          | _, _ => {| tool := tool s; globals := globals s; world := w1 |}
          end
      | _ => s
      end
  | None => s
  end.

Inductive Task : Type :=
  | DoRender
  | DoSave (blockContent : Element)
  | DoPaste (event : PasteEvent)
  | DoDrop (file : File)
  | ImageLoad (i : nat) (naturalWidth naturalHeight : Z)
  | ImageError (i : nat)
  | ReaderLoad (r : nat)
  | ReaderError (r : nat).

Definition with_world (w : World) (s : Page) : Page :=
  {| tool := tool s; globals := globals s; world := w |}.

Definition dispatch (e : Task) (s : Page) : Page :=
  match e with
  | DoRender =>
      let '(_, g, w) := render (tool s) (globals s) (world s) in
      {| tool := tool s; globals := g; world := w |}
  | DoSave b => {| tool := (save b (tool s)).2; globals := globals s; world := world s |}
  | DoPaste ev => onPaste ev s
  | DoDrop f => with_world (onDropHandler f (world s)).2 s
  | ImageLoad i nw nh => image_load i nw nh s
  | ImageError i => with_world (image_error i (world s)) s
  | ReaderLoad r => with_world (reader_load r (world s)) s
  | ReaderError r => with_world (reader_error r (world s)) s
  end.

(** A task followed by its microtask checkpoint. *)
Definition step (s : Page) (e : Task) : Page := run_jobs (dispatch e s).

Definition run (s : Page) (es : list Task) : Page := foldl step s es.
End host.
End Dist.

(** * The paste configuration

<<
  static get pasteConfig() {
    return {
      patterns: { image: /https?:\/\/\S+\.(gif|jpe?g|tiff|png)(\?[^?]+|$)/i },
      tags: [ 'img' ],
      files: { mimeTypes: [ 'image/*' ] },
    };
  }
>>
    Text is a list of UTF-16 code units.  The pattern is kept as the
    syntax tree of the regular expression; what it matches is given
    twice, as a relation and as the backtracking search of [test]. *)

(** The code units of an ASCII string. *)
Definition units (s : string) : list N :=
  Ascii.N_of_ascii <$> String.list_ascii_of_string s.

(** [Canonicalize] under the [i] flag, as far as a comparison with an
    ASCII pattern character goes: ASCII letters compare by their upper
    case, and no code unit outside ASCII compares equal to an ASCII one. *)
Definition Canonicalize (c : N) : N :=
  if ((97 <=? c) && (c <=? 122))%N then (c - 32)%N else c.

(** [\s]: white space and line terminators. *)
Definition is_space (c : N) : bool :=
  bool_decide (c ∈ [9; 10; 11; 12; 13; 32; 160; 5760; 8232; 8233; 8239; 8287;
                    12288; 65279]%N)
  || ((8192 <=? c) && (c <=? 8202))%N.

Inductive atom : Type :=
  | Chr (c : N)       (** a pattern character *)
  | NotSpace          (** [\S] *)
  | NotChr (c : N).   (** [[^c]] *)

Inductive re : Type :=
  | Eps
  | One (a : atom)
  | Many (a : atom)        (** [a+] *)
  | Opt (r : re)           (** [r?] *)
  | Seq (r1 r2 : re)
  | Alt (r1 r2 : re)       (** [r1|r2] *)
  | Eos.                   (** [$] *)

Definition atom_ok (a : atom) (c : N) : bool :=
  match a with
  | Chr p => bool_decide (Canonicalize c = Canonicalize p)
  | NotSpace => negb (is_space c)
  | NotChr p => negb (bool_decide (Canonicalize c = Canonicalize p))
  end.

(** [matches r s rest]: [r] matches the code units [s] when [rest] is
    what follows them in the text. *)
Fixpoint matches (r : re) (s rest : list N) : Prop :=
  match r with
  | Eps => s = []
  | One a => ∃ c, s = [c] ∧ atom_ok a c = true
  | Many a => s ≠ [] ∧ Forall (λ c, atom_ok a c = true) s
  | Opt r => s = [] ∨ matches r s rest
  | Seq r1 r2 => ∃ s1 s2, s = s1 ++ s2 ∧ matches r1 s1 (s2 ++ rest) ∧ matches r2 s2 rest
  | Alt r1 r2 => matches r1 s rest ∨ matches r2 s rest
  | Eos => s = [] ∧ rest = []
  end.

(** The pattern matches somewhere in the text. *)
Definition found (r : re) (text : list N) : Prop :=
  ∃ pre s rest, text = pre ++ s ++ rest ∧ matches r s rest.

(** The backtracking matcher: [accepts r k s] tries [r] at the head of
    [s] and hands what is left to the continuation [k]. *)
Fixpoint accepts (r : re) (k : list N → bool) (s : list N) : bool :=
  match r with
  | Eps => k s
  | One a => match s with c :: s' => atom_ok a c && k s' | [] => false end
  | Many a =>
      (fix many (s : list N) : bool :=
         match s with
         | c :: s' => atom_ok a c && (k s' || many s')
         | [] => false
         end) s
  | Opt r => accepts r k s || k s
  | Seq r1 r2 => accepts r1 (accepts r2 k) s
  | Alt r1 r2 => accepts r1 k s || accepts r2 k s
  | Eos => match s with [] => k [] | _ :: _ => false end
  end.

(** [pattern.test(text)]: the first position, from the left, where the
    pattern matches. *)
Fixpoint test (r : re) (text : list N) : bool :=
  accepts r (λ _, true) text ||
  match text with
  | [] => false
  | _ :: text' => test r text'
  end.

Definition chr (c : Ascii.ascii) : re := One (Chr (Ascii.N_of_ascii c)).

Fixpoint str (s : string) : re :=
  match s with
  | EmptyString => Eps
  | String c s' => Seq (chr c) (str s')
  end.

Arguments str : simpl never.

(** [/https?:\/\/\S+\.(gif|jpe?g|tiff|png)(\?[^?]+|$)/i] *)
Definition image_pattern : re :=
  Seq (str "http")
  (Seq (Opt (chr "s"%char))
  (Seq (str "://")
  (Seq (Many NotSpace)
  (Seq (chr "."%char)
  (Seq (Alt (str "gif")
       (Alt (Seq (str "jp") (Seq (Opt (chr "e"%char)) (chr "g"%char)))
       (Alt (str "tiff")
            (str "png"))))
       (Alt (Seq (chr "?"%char) (Many (NotChr 63)))
            Eos)))))).

Record PasteConfig : Type := {
  patterns : list (string * re);
  tags : list string;
  mimeTypes : list string;
}.

Definition pasteConfig : PasteConfig :=
  {| patterns := [("image", image_pattern)];
     tags := ["img"];
     mimeTypes := ["image/*"] |}.

(** The code units [s] spell the ASCII word [w], in any letter case. *)
Definition spells (s : list N) (w : string) : Prop :=
  Canonicalize <$> s = Canonicalize <$> units w.

(** What the image pattern looks for: a scheme, one or more code units
    that are not white space, a dot and an extension, and then either
    the end of the text or a question mark followed by a code unit that
    is not one. *)
Definition image_url_shape (text : list N) : Prop :=
  ∃ pre scheme body ext tail,
    text = pre ++ scheme ++ body ++ ext ++ tail ∧
    (spells scheme "http://" ∨ spells scheme "https://") ∧
    body ≠ [] ∧ Forall (λ c, is_space c = false) body ∧
    (spells ext ".gif" ∨ spells ext ".jpg" ∨ spells ext ".jpeg" ∨
     spells ext ".tiff" ∨ spells ext ".png") ∧
    (tail = [] ∨ ∃ c tail', tail = 63%N :: c :: tail' ∧ c ≠ 63%N).

(** * Vocabulary of the properties *)

(** [e] is the first [img] among the descendants of [root], in tree order. *)
Definition first_img_descendant (root e : Element) : Prop :=
  ∃ l1 l2, descendants root = l1 ++ e :: l2 ∧ is_img e = true ∧
           ∀ y, y ∈ l1 → is_img y = false.

Definition no_img_descendant (root : Element) : Prop :=
  ∀ e, e ∈ descendants root → is_img e = false.

(** The argument [render] builds for [view] in the accessor revision. *)
Definition render_args (t : Accessor.SimpleImage) (image : option nat) : PluginArgs :=
  {| pluginId := Accessor.id t; pluginApi := Accessor.api t;
     pluginBlockIndex := None;
     pluginData := Accessor.get_data t;
     pluginUserConfig := Accessor.config t;
     pluginImage := image;
     pluginImagePromise := ImagePromise <$> image |}.

(** The element [render] creates for the url [u]. *)
Definition rendered_image (u : string) : Image :=
  {| img_src := u; img_onload := Some StoreSizeAndResolve;
     img_onerror := Some RejectPromise; img_state := Loading;
     img_promise := fresh_promise |}.

(** The argument the bundle's [render] builds for [view]. *)
Definition bundle_render_args (b : Bundle.SimpleImage) (image : option nat) : PluginArgs :=
  Bundle.context b image (ImagePromise <$> image).

(** [w'] has the images of [w] and possibly more, and the same readers
    and microtasks: what rendering does. *)
Definition extends (w w' : World) : Prop :=
  (∃ l, images w' = images w ++ l) ∧ readers w' = readers w ∧ jobs w' = jobs w.

(** The task [e] is an event of image [i]. *)
Definition on_image (i : nat) (e : Accessor.Task) : Prop :=
  match e with
  | Accessor.ImageLoad j _ _ | Accessor.ImageError j => j = i
  | _ => False
  end.

(** The task [e] is an event of reader [r]. *)
Definition on_reader (r : nat) (e : Accessor.Task) : Prop :=
  match e with
  | Accessor.ReaderLoad r' | Accessor.ReaderError r' => r' = r
  | _ => False
  end.

Definition rejected_with (i : nat) : Promise :=
  {| pstate := Rejected (SErrorEvent i); reactions := [] |}.

(** The reader [onDropHandler] creates, and what it becomes. *)
Definition dropped (f : File) : FileReader :=
  {| fr_file := f; fr_onload := Some ResolveWithUrl; fr_onerror := None;
     fr_state := Reading; fr_promise := fresh_promise |}.

Definition resolved_with_url (f : File) : Promise :=
  {| pstate := Fulfilled (SData {[ "url" := VString (readAsDataURL_result f) ]});
     reactions := [] |}.

Definition read_done (f : File) : FileReader :=
  with_fr_promise (resolved_with_url f) (with_fr_state Done (dropped f)).

Definition read_failed (f : File) : FileReader :=
  with_fr_state Failed (dropped f).

#[local] Instance on_reader_dec r e : Decision (on_reader r e).
Proof. destruct e; simpl; apply _. Defined.

(** Every image element carries the two closures of [render]. *)
Definition has_handlers (im : Image) : Prop :=
  img_onload im = Some StoreSizeAndResolve ∧ img_onerror im = Some RejectPromise.

(** A microtask that carries a record carries a [{url}] record. *)
Definition job_url_only (j : Job) : Prop :=
  ∀ d, job_outcome j = Fulfilled (SData d) → ∃ u, d = {[ "url" := VString u ]}.

(** The task is a [load] event of an image. *)
Definition is_load (e : Accessor.Task) : Prop :=
  match e with Accessor.ImageLoad _ _ _ => True | _ => False end.

Definition sizes_absent (d : obj) : Prop :=
  d !! "naturalWidth" = None ∧ d !! "naturalHeight" = None.

Definition sizes_are (d : obj) (nw nh : Z) : Prop :=
  d !! "naturalWidth" = Some (VNumber nw) ∧ d !! "naturalHeight" = Some (VNumber nh).

(** The sizes in [d] are the natural sizes of an image element that has
    loaded. *)
Definition sizes_of_loaded_image (d : obj) (w : World) : Prop :=
  ∃ i im nw nh, images w !! i = Some im ∧ img_state im = Loaded nw nh ∧
                sizes_are d nw nh.

Definition size_invariant (s : Accessor.SimpleImage * World) : Prop :=
  jobs s.2 = [] ∧ Forall has_handlers (images s.2) ∧
  (sizes_absent (Accessor._data s.1) ∨ sizes_of_loaded_image (Accessor._data s.1) s.2).

#[local] Instance is_load_dec e : Decision (is_load e).
Proof. destruct e; simpl; apply _. Defined.

(** The arguments of [initialize]. *)
Definition initialize_args (rnd : string) (data : obj) (cfg : Config) (api0 : Api)
  : PluginArgs :=
  {| pluginId := rnd; pluginApi := api0;
     pluginBlockIndex := Some (getCurrentBlockIndex api0 + 1)%Z;
     pluginData := data; pluginUserConfig := cfg;
     pluginImage := None; pluginImagePromise := None |}.

Definition is_initialize (c : HostCall) : Prop :=
  match c with CallInitialize _ => True | _ => False end.

Definition is_onpaste (c : HostCall) : Prop :=
  match c with CallOnpaste _ => True | _ => False end.

(** The reader of a pasted file: as [onDropHandler] made it, with the
    [then] callback of [onPaste] registered on its promise. *)
Definition pasted (f : File) : FileReader :=
  with_fr_promise {| pstate := Pending; reactions := [ThenPastedFile] |} (dropped f).

(** The promise of an image element that has loaded. *)
Definition fulfilled_with (i : nat) : Promise :=
  {| pstate := Fulfilled (SImage i); reactions := [] |}.

(** The element [render] created for [u], once it has loaded. *)
Definition loaded_image (i : nat) (u : string) (nw nh : Z) : Image :=
  with_img_promise (fulfilled_with i) (with_img_state (Loaded nw nh) (rendered_image u)).

(** What a call of [view] was handed: the image element, if any, with
    the url the call saw in the record. *)
Definition handed_image (c : HostCall) : option (nat * string) :=
  match c with
  | CallView a => (λ i, (i, ToString (prop (pluginData a) "url"))) <$> pluginImage a
  | _ => None
  end.

(** The image elements of the world, each with its [src]. *)
Definition created_images (w : World) : list (nat * string) :=
  imap (λ i im, (i, img_src im)) (images w).

(** Tasks of the callback revision: a call of [render]; an event of
    reader [r]. *)
Definition is_render (e : Callback.Task) : Prop :=
  match e with Callback.DoRender => True | _ => False end.

#[local] Instance is_render_dec e : Decision (is_render e).
Proof. destruct e; simpl; apply _. Defined.

Definition on_reader_cb (r : nat) (e : Callback.Task) : Prop :=
  match e with
  | Callback.ReaderLoad r' | Callback.ReaderError r' => r' = r
  | _ => False
  end.

(** The page right after the constructor of the distributed bundle ran
    in an empty world. *)
Definition dist_start (rnd : string) (data : obj) (cfg : Config) (api0 : Api)
  : Dist.Page :=
  {| Dist.tool := (Dist.constructor rnd data cfg api0 empty_world).1;
     Dist.globals := Dist.no_globals;
     Dist.world := (Dist.constructor rnd data cfg api0 empty_world).2 |}.

(** The element created last, if any. *)
Definition last_image (w : World) : option nat :=
  match images w with
  | [] => None
  | _ :: l => Some (length l)
  end.

(** An image element as [makeImage] leaves it: both closures installed,
    and the promise untouched while the element is loading. *)
Definition image_ok (im : Image) : Prop :=
  has_handlers im ∧ (img_state im = Loading → img_promise im = fresh_promise).

Definition dist_invariant (s : Dist.Page) : Prop :=
  Dist.image (Dist.globals s) = last_image (Dist.world s) ∧
  Forall image_ok (images (Dist.world s)).

(** The globals after [makeImage] created element [i]. *)
Definition globals_of (i : nat) : Dist.Globals :=
  {| Dist.image := Some i; Dist.imagePromise := Some (ImagePromise i) |}.

(** The call is one of [view]. *)
Definition is_view (c : HostCall) : Prop :=
  match c with CallView _ => True | _ => False end.

(** * Properties *)

(** ** Objects *)

Lemma Object_assign_lookup_source (target source : obj) k v :
  source !! k = Some v → Object_assign target source !! k = Some v.
Proof. intros H. unfold Object_assign. by apply lookup_union_Some_l. Qed.

Lemma Object_assign_lookup_target (target source : obj) k :
  source !! k = None → Object_assign target source !! k = target !! k.
Proof. intros H. unfold Object_assign. by apply lookup_union_r. Qed.

Lemma Object_assign_empty (o : obj) : Object_assign ∅ o = o.
Proof. unfold Object_assign. apply (right_id_L ∅ (∪)). Qed.

Lemma Object_assign_url (target : obj) v :
  Object_assign target {[ "url" := v ]} = <["url" := v]> target.
Proof. unfold Object_assign. by rewrite insert_union_singleton_l. Qed.

Lemma ToBoolean_string (d : obj) u :
  d !! "url" = Some (VString u) → ToBoolean (prop d "url") = true ↔ u ≠ "".
Proof.
  intros H. unfold prop. rewrite H. simpl.
  destruct (String.eqb_spec u ""); simpl; split; intros; congruence.
Qed.

Lemma ToBoolean_absent (d : obj) :
  d !! "url" = None → ToBoolean (prop d "url") = false.
Proof. intros H. unfold prop. by rewrite H. Qed.

(** ** [querySelector] *)

Section first_match.
Context {A : Type} (P : A → Prop) {Pdec : ∀ x, Decision (P x)}.

Lemma head_filter_None (l : list A) :
  head (filter P l) = None ↔ ∀ x, x ∈ l → ¬ P x.
Proof.
  induction l as [|a l IH]; simpl.
  - split; [intros _ x Hx; by apply not_elem_of_nil in Hx | done].
  - rewrite filter_cons. destruct (decide (P a)) as [Ha|Ha]; simpl.
    + split; [done|]. intros H. destruct (H a); [left | done].
    + rewrite IH. split.
      * intros H x Hx. apply elem_of_cons in Hx as [->|Hx]; auto.
      * intros H x Hx. apply H. by right.
Qed.

Lemma head_filter_first (l : list A) (x : A) :
  head (filter P l) = Some x ↔
  ∃ l1 l2, l = l1 ++ x :: l2 ∧ P x ∧ ∀ y, y ∈ l1 → ¬ P y.
Proof.
  induction l as [|a l IH]; simpl.
  - split; [done|]. intros (l1 & l2 & H & _). by destruct l1.
  - rewrite filter_cons. destruct (decide (P a)) as [Ha|Ha]; simpl.
    + split.
      * intros [= ->]. exists [], l. repeat split; [done|].
        intros y Hy. by apply not_elem_of_nil in Hy.
      * intros (l1 & l2 & H & Hx & Hl1). destruct l1 as [|b l1]; simpl in H.
        -- congruence.
        -- injection H as <- ->. destruct (Hl1 a); [left | done].
    + rewrite IH. split.
      * intros (l1 & l2 & -> & Hx & Hl1). exists (a :: l1), l2.
        repeat split; [done|]. intros y Hy.
        apply elem_of_cons in Hy as [->|Hy]; auto.
      * intros (l1 & l2 & H & Hx & Hl1). destruct l1 as [|b l1]; simpl in H.
        -- injection H as <- ->. done.
        -- injection H as <- ->. exists l1, l2. repeat split; [done|].
           intros y Hy. apply Hl1. by right.
Qed.
End first_match.

Lemma querySelector_img_None root :
  querySelector_img root = None ↔ no_img_descendant root.
Proof.
  unfold querySelector_img, no_img_descendant. rewrite head_filter_None.
  split; intros H e He; specialize (H e He); destruct (is_img e); done.
Qed.

Lemma querySelector_img_Some root e :
  querySelector_img root = Some e ↔ first_img_descendant root e.
Proof.
  unfold querySelector_img, first_img_descendant. rewrite head_filter_first.
  split; intros (l1 & l2 & H1 & H2 & H3); exists l1, l2; repeat split; try done;
    intros y Hy; specialize (H3 y Hy); destruct (is_img y); done.
Qed.

Lemma first_img_descendant_unique root e e' :
  first_img_descendant root e → first_img_descendant root e' → e = e'.
Proof.
  rewrite <- !querySelector_img_Some. congruence.
Qed.

Lemma img_or_not root :
  no_img_descendant root ∨ ∃ e, first_img_descendant root e.
Proof.
  destruct (querySelector_img root) as [e|] eqn:E.
  - right. exists e. by apply querySelector_img_Some.
  - left. by apply querySelector_img_None.
Qed.

(** ** [save] *)

(** C1.  [save] returns the stored data record itself when the block
    content has no [img] descendant, and the stored record with [url]
    set to the [src] of the first [img] descendant otherwise; either way
    it is the record the tool keeps.  With an [img] descendant the result
    has a string [url], the [src] of that element; with none it has a
    string [url] exactly when the stored record has one.  Both revisions. *)
Theorem save_returns_stored_record (blockContent : Element)
    (t : Accessor.SimpleImage) (t0 : Callback.SimpleImage) :
  (** the accessor revision *)
  ((no_img_descendant blockContent →
      Accessor.save blockContent t = (Accessor.get_data t, t)) ∧
   (∀ e, first_img_descendant blockContent e →
      Accessor.save blockContent t =
        (<["url" := VString (src e)]> (Accessor.get_data t),
         Accessor.with_data (<["url" := VString (src e)]> (Accessor.get_data t)) t)) ∧
   (∀ e, first_img_descendant blockContent e →
      (Accessor.save blockContent t).1 !! "url" = Some (VString (src e)) ∧
      SimpleImageData (Accessor.save blockContent t).1) ∧
   (no_img_descendant blockContent →
      (SimpleImageData (Accessor.save blockContent t).1 ↔
       SimpleImageData (Accessor.get_data t))) ∧
   Accessor.get_data (Accessor.save blockContent t).2 = (Accessor.save blockContent t).1) ∧
  (** the callback revision *)
  ((no_img_descendant blockContent →
      Callback.save blockContent t0 = (Callback.data t0, t0)) ∧
   (∀ e, first_img_descendant blockContent e →
      Callback.save blockContent t0 =
        (<["url" := VString (src e)]> (Callback.data t0),
         Callback.with_data (<["url" := VString (src e)]> (Callback.data t0)) t0)) ∧
   (∀ e, first_img_descendant blockContent e →
      (Callback.save blockContent t0).1 !! "url" = Some (VString (src e)) ∧
      SimpleImageData (Callback.save blockContent t0).1) ∧
   (no_img_descendant blockContent →
      (SimpleImageData (Callback.save blockContent t0).1 ↔
       SimpleImageData (Callback.data t0))) ∧
   Callback.data (Callback.save blockContent t0).2 = (Callback.save blockContent t0).1).
Proof.
  split.
  - unfold Accessor.save. repeat split.
    + intros H. apply querySelector_img_None in H. by rewrite H.
    + intros e H. apply querySelector_img_Some in H. rewrite H.
      by rewrite Object_assign_url.
    + apply querySelector_img_Some in H. rewrite H. simpl.
      rewrite Object_assign_url. apply lookup_insert_eq.
    + apply querySelector_img_Some in H. rewrite H. simpl.
      rewrite Object_assign_url. exists (src e). apply lookup_insert_eq.
    + apply querySelector_img_None in H. by rewrite H.
    + apply querySelector_img_None in H. by rewrite H.
    + by destruct (querySelector_img blockContent).
  - unfold Callback.save. repeat split.
    + intros H. apply querySelector_img_None in H. by rewrite H.
    + intros e H. apply querySelector_img_Some in H. rewrite H.
      by rewrite Object_assign_url.
    + apply querySelector_img_Some in H. rewrite H. simpl.
      rewrite Object_assign_url. apply lookup_insert_eq.
    + apply querySelector_img_Some in H. rewrite H. simpl.
      rewrite Object_assign_url. exists (src e). apply lookup_insert_eq.
    + apply querySelector_img_None in H. by rewrite H.
    + apply querySelector_img_None in H. by rewrite H.
    + by destruct (querySelector_img blockContent).
Qed.

(** C1, as the claim words it, fails: a tool built from the empty
    record keeps the empty record (the setter renders only when the
    [url] is truthy), and [save] of a block content without an [img]
    hands that record back; it has no [url].  Both revisions. *)
Lemma save_returns_stored_record_counterexample :
  let view := λ _ : PluginArgs, 7 in
  let cfg := {| has_initialize := false; has_onpaste := false; entries := ∅ |} in
  let api0 := {| getCurrentBlockIndex := 0 |} in
  let t := (Accessor.constructor view "k3f9" ∅ cfg api0 empty_world).1 in
  let t0 := (Callback.constructor "k3f9" ∅ cfg api0 empty_world).1 in
  let blockContent := Elem "div" "" [Elem "p" "" []] in
  no_img_descendant blockContent ∧
  (Accessor.save blockContent t).1 = ∅ ∧
  ¬ SimpleImageData (Accessor.save blockContent t).1 ∧
  (Callback.save blockContent t0).1 = ∅ ∧
  ¬ SimpleImageData (Callback.save blockContent t0).1.
Proof.
  intros view cfg api0 t t0 blockContent.
  assert (no_img_descendant blockContent) as Hno.
  { apply querySelector_img_None. reflexivity. }
  split; [exact Hno|].
  assert ((Accessor.save blockContent t).1 = ∅) as HA by reflexivity.
  assert ((Callback.save blockContent t0).1 = ∅) as HC by reflexivity.
  rewrite HA, HC.
  repeat split; intros [u Hu]; by rewrite lookup_empty in Hu.
Qed.

(** ** [render] *)

Lemma Accessor_render_truthy {Node} (view : PluginArgs → Node) t w :
  ToBoolean (prop (Accessor.get_data t) "url") = true →
  Accessor.render view t w =
    (view (render_args t (Some (length (images w)))),
     log_call (CallView (render_args t (Some (length (images w)))))
       (set_images (λ l, l ++ [rendered_image (ToString (prop (Accessor.get_data t) "url"))]) w)).
Proof. intros H. unfold Accessor.render. by rewrite H. Qed.

Lemma Accessor_render_falsy {Node} (view : PluginArgs → Node) t w :
  ToBoolean (prop (Accessor.get_data t) "url") = false →
  Accessor.render view t w =
    (view (render_args t None), log_call (CallView (render_args t None)) w).
Proof. intros H. unfold Accessor.render. by rewrite H. Qed.

(** X18.  In the accessor revision [render] returns what [config.view]
    returns on the plugin
    context (id, api, data, user config); with a nonempty url the context
    also carries the image element created by this call and its promise,
    with an empty or missing url both are [undefined] and no element is
    created.  The callback is invoked once per call. *)
Theorem render_returns_view_result {Node} (view : PluginArgs → Node)
    (t : Accessor.SimpleImage) (w : World) :
  (∀ u, Accessor.get_data t !! "url" = Some (VString u) → u ≠ "" →
     let image := length (images w) in
     let a := render_args t (Some image) in
     Accessor.render view t w
       = (view a, log_call (CallView a) (set_images (λ l, l ++ [rendered_image u]) w)) ∧
     pluginImage a = Some image ∧
     pluginImagePromise a = Some (ImagePromise image) ∧
     images (Accessor.render view t w).2 !! image = Some (rendered_image u)) ∧
  (Accessor.get_data t !! "url" = None ∨
   Accessor.get_data t !! "url" = Some (VString "") →
     let a := render_args t None in
     Accessor.render view t w = (view a, log_call (CallView a) w) ∧
     pluginImage a = None ∧ pluginImagePromise a = None ∧
     images (Accessor.render view t w).2 = images w) ∧
  (∃ a, (Accessor.render view t w).1 = view a ∧
        calls (Accessor.render view t w).2 = calls w ++ [CallView a] ∧
        pluginId a = Accessor.id t ∧ pluginApi a = Accessor.api t ∧
        pluginData a = Accessor.get_data t ∧
        pluginUserConfig a = Accessor.config t).
Proof.
  split; [|split].
  - intros u Hu Hne image a.
    assert (ToBoolean (prop (Accessor.get_data t) "url") = true) as Htrue
      by (by apply (ToBoolean_string _ u)).
    rewrite (Accessor_render_truthy view t w Htrue).
    unfold prop. rewrite Hu. simpl. repeat split.
    by rewrite lookup_app_r, Nat.sub_diag.
  - intros Hu a.
    assert (ToBoolean (prop (Accessor.get_data t) "url") = false) as Hfalse
      by (unfold prop; destruct Hu as [-> | ->]; reflexivity).
    by rewrite (Accessor_render_falsy view t w Hfalse).
  - destruct (ToBoolean (prop (Accessor.get_data t) "url")) eqn:E.
    + rewrite (Accessor_render_truthy view t w E). by eexists.
    + rewrite (Accessor_render_falsy view t w E). by eexists.
Qed.

(** ** The [data] setter *)

Lemma merged_eq (old data : obj) :
  Object_assign (Object_assign ∅ old) data = data ∪ old.
Proof. by rewrite Object_assign_empty. Qed.

Lemma Accessor_set_data_data {Node} (view : PluginArgs → Node) data t w :
  Accessor.get_data (Accessor.set_data view data t w).1 = data ∪ Accessor.get_data t.
Proof.
  unfold Accessor.set_data. rewrite merged_eq.
  by destruct (ToBoolean _).
Qed.

Lemma Bundle_set_data_data {Node} (view : PluginArgs → Node) data t w :
  Bundle.get_data (Bundle.set_data view data t w).1 = data ∪ Bundle.get_data t.
Proof.
  unfold Bundle.set_data. rewrite merged_eq.
  by destruct (ToBoolean _).
Qed.

(** C8.  An assignment to [data] merges: a field the assigned record
    lacks keeps its value, a field it has takes the assigned value.  So
    the natural sizes recorded earlier survive the [{url}] records that
    [onPaste] assigns.  Both the accessor revision and the bundle. *)
Theorem data_assignment_merges {Node} (view : PluginArgs → Node)
    (data : obj) (t : Accessor.SimpleImage) (b : Bundle.SimpleImage) (w : World) :
  (∀ k, data !! k = None →
     Accessor.get_data (Accessor.set_data view data t w).1 !! k = Accessor.get_data t !! k ∧
     Bundle.get_data (Bundle.set_data view data b w).1 !! k = Bundle.get_data b !! k) ∧
  (∀ k v, data !! k = Some v →
     Accessor.get_data (Accessor.set_data view data t w).1 !! k = Some v ∧
     Bundle.get_data (Bundle.set_data view data b w).1 !! k = Some v) ∧
  (∀ u k, k ≠ "url" →
     Accessor.get_data (Accessor.set_data view {[ "url" := VString u ]} t w).1 !! k
       = Accessor.get_data t !! k ∧
     Bundle.get_data (Bundle.set_data view {[ "url" := VString u ]} b w).1 !! k
       = Bundle.get_data b !! k) ∧
  (∀ event k, k ≠ "url" →
     Accessor.get_data (Accessor.onPaste view event t w).1 !! k = Accessor.get_data t !! k ∧
     Bundle.get_data (Bundle.onPaste view event b w).1 !! k = Bundle.get_data b !! k).
Proof.
  assert (∀ (u : string) k, k ≠ "url" → ({[ "url" := VString u ]} : obj) !! k = None)
    as Hsingle by (intros u k Hk; by apply lookup_singleton_ne).
  assert (∀ d k, d !! k = None →
     Accessor.get_data (Accessor.set_data view d t w).1 !! k = Accessor.get_data t !! k ∧
     Bundle.get_data (Bundle.set_data view d b w).1 !! k = Bundle.get_data b !! k)
    as Hkeep.
  { intros d k Hk. rewrite Accessor_set_data_data, Bundle_set_data_data.
    by rewrite !lookup_union_r. }
  split; [exact (Hkeep data) | split; [|split]].
  - intros k v Hk. rewrite Accessor_set_data_data, Bundle_set_data_data.
    by rewrite !(lookup_union_Some_l _ _ _ _ Hk).
  - intros u k Hk. apply Hkeep. by apply Hsingle.
  - intros event k Hk. destruct event as [img|text|file|ty]; simpl.
    + split; [by apply Hkeep, Hsingle|].
      destruct (Bundle.set_data view _ b w) as [b' w'] eqn:E. simpl.
      change b' with (b', w').1. rewrite <- E. by apply Hkeep, Hsingle.
    + split; [by apply Hkeep, Hsingle|].
      destruct (Bundle.set_data view _ b w) as [b' w'] eqn:E. simpl.
      change b' with (b', w').1. rewrite <- E. by apply Hkeep, Hsingle.
    + done.
    + done.
Qed.

Lemma Bundle_render_truthy {Node} (view : PluginArgs → Node) b w :
  ToBoolean (prop (Bundle.get_data b) "url") = true →
  Bundle.render view b w =
    (view (bundle_render_args b (Some (length (images w)))),
     log_call (CallView (bundle_render_args b (Some (length (images w)))))
       (set_images (λ l, l ++ [rendered_image (ToString (prop (Bundle.get_data b) "url"))]) w)).
Proof. intros H. unfold Bundle.render. by rewrite H. Qed.

Lemma Bundle_render_falsy {Node} (view : PluginArgs → Node) b w :
  ToBoolean (prop (Bundle.get_data b) "url") = false →
  Bundle.render view b w =
    (view (bundle_render_args b None), log_call (CallView (bundle_render_args b None)) w).
Proof. intros H. unfold Bundle.render. by rewrite H. Qed.

Lemma Accessor_set_data_unfold {Node} (view : PluginArgs → Node) data t w :
  Accessor.set_data view data t w =
    let t' := Accessor.with_data (data ∪ Accessor.get_data t) t in
    if ToBoolean (prop (data ∪ Accessor.get_data t) "url")
    then (t', (Accessor.render view t' w).2) else (t', w).
Proof. unfold Accessor.set_data. by rewrite merged_eq. Qed.

Lemma Bundle_set_data_unfold {Node} (view : PluginArgs → Node) data b w :
  Bundle.set_data view data b w =
    let b' := Bundle.with_data (data ∪ Bundle.get_data b) b in
    if ToBoolean (prop (data ∪ Bundle.get_data b) "url")
    then (b', (Bundle.render view b' w).2) else (b', w).
Proof. unfold Bundle.set_data. by rewrite merged_eq. Qed.

(** C9.  An assignment to [data] whose merged record has a nonempty url
    renders again: [config.view] is invoked once more, on the merged
    record.  When the merged url is empty or missing the assignment
    leaves everything but the record as it was, so [view] is not invoked.
    Both the accessor revision and the bundle. *)
Theorem data_assignment_rerenders {Node} (view : PluginArgs → Node)
    (data : obj) (t : Accessor.SimpleImage) (b : Bundle.SimpleImage) (w : World) :
  let merged := Object_assign (Object_assign ∅ (Accessor.get_data t)) data in
  let mergedb := Object_assign (Object_assign ∅ (Bundle.get_data b)) data in
  (Accessor.get_data (Accessor.set_data view data t w).1 = merged ∧
   Bundle.get_data (Bundle.set_data view data b w).1 = mergedb) ∧
  (∀ u, merged !! "url" = Some (VString u) → u ≠ "" →
     ∃ a, calls (Accessor.set_data view data t w).2 = calls w ++ [CallView a] ∧
          pluginData a = merged) ∧
  (∀ u, mergedb !! "url" = Some (VString u) → u ≠ "" →
     ∃ a, calls (Bundle.set_data view data b w).2 = calls w ++ [CallView a] ∧
          pluginData a = mergedb) ∧
  (merged !! "url" = None ∨ merged !! "url" = Some (VString "") →
     (Accessor.set_data view data t w).2 = w) ∧
  (mergedb !! "url" = None ∨ mergedb !! "url" = Some (VString "") →
     (Bundle.set_data view data b w).2 = w).
Proof.
  intros merged mergedb. subst merged mergedb. rewrite !merged_eq.
  split; [|split; [|split; [|split]]].
  - by rewrite Accessor_set_data_data, Bundle_set_data_data.
  - intros u Hu Hne. rewrite Accessor_set_data_unfold. simpl.
    assert (ToBoolean (prop (data ∪ Accessor.get_data t) "url") = true) as ->
      by (by apply (ToBoolean_string _ u)).
    rewrite Accessor_render_truthy by (by apply (ToBoolean_string _ u)).
    by eexists.
  - intros u Hu Hne. rewrite Bundle_set_data_unfold. simpl.
    assert (ToBoolean (prop (data ∪ Bundle.get_data b) "url") = true) as ->
      by (by apply (ToBoolean_string _ u)).
    rewrite Bundle_render_truthy by (by apply (ToBoolean_string _ u)).
    by eexists.
  - intros Hu. rewrite Accessor_set_data_unfold. simpl.
    assert (ToBoolean (prop (data ∪ Accessor.get_data t) "url") = false) as ->
      by (unfold prop; destruct Hu as [-> | ->]; reflexivity).
    done.
  - intros Hu. rewrite Bundle_set_data_unfold. simpl.
    assert (ToBoolean (prop (data ∪ Bundle.get_data b) "url") = false) as ->
      by (unfold prop; destruct Hu as [-> | ->]; reflexivity).
    done.
Qed.

(** ** How the primitives change the world *)

Lemma extends_refl w : extends w w.
Proof. split; [exists []; by rewrite app_nil_r | done]. Qed.

Lemma extends_trans w1 w2 w3 : extends w1 w2 → extends w2 w3 → extends w1 w3.
Proof.
  intros ([l1 H1] & H2 & H3) ([l2 H1'] & H2' & H3'). split; [|split; congruence].
  exists (l1 ++ l2). by rewrite H1', H1, app_assoc.
Qed.

Lemma extends_image w w' i im :
  extends w w' → images w !! i = Some im → images w' !! i = Some im.
Proof. intros ([l ->] & _) H. by apply lookup_app_l_Some. Qed.

Lemma extends_log_call c w : extends w (log_call c w).
Proof. split; [exists []; by rewrite app_nil_r | done]. Qed.

Lemma extends_create_image u w : extends w (create_image u w).2.
Proof. split; [by eexists | done]. Qed.

Lemma Accessor_render_extends {Node} (view : PluginArgs → Node) t w :
  extends w (Accessor.render view t w).2.
Proof.
  unfold Accessor.render. destruct (ToBoolean _); simpl.
  - split; [by eexists | done].
  - apply extends_log_call.
Qed.

Lemma Accessor_set_data_extends {Node} (view : PluginArgs → Node) d t w :
  extends w (Accessor.set_data view d t w).2.
Proof.
  unfold Accessor.set_data. destruct (ToBoolean _); simpl.
  - apply Accessor_render_extends.
  - apply extends_refl.
Qed.

Lemma Accessor_run_job_extends {Node} (view : PluginArgs → Node) j t w :
  extends w (Accessor.run_job view j t w).2.
Proof.
  unfold Accessor.run_job. destruct (job_reaction j), (job_outcome j) as [|[]|];
    simpl; try apply extends_refl.
  apply Accessor_set_data_extends.
Qed.

(** An induction principle for the microtask checkpoint. *)
Lemma Accessor_run_jobs_ind {Node} (view : PluginArgs → Node)
    (P : Accessor.SimpleImage * World → Prop) (Q : Job → Prop) t w :
  P (t, set_jobs (λ _, []) w) →
  (∀ j t' w', Q j → P (t', w') → P (Accessor.run_job view j t' w')) →
  Forall Q (jobs w) →
  P (Accessor.run_jobs view t w).
Proof.
  intros H0 Hstep HQ. unfold Accessor.run_jobs.
  generalize dependent (t, set_jobs (λ _ : list Job, []) w).
  induction HQ as [|j js Hj _ IH]; intros s Hs; simpl; [done|].
  apply IH. destruct s as [t' w']. by apply Hstep.
Qed.

Lemma Accessor_run_jobs_world {Node} (view : PluginArgs → Node) t w :
  (∃ l, images (Accessor.run_jobs view t w).2 = images w ++ l) ∧
  readers (Accessor.run_jobs view t w).2 = readers w ∧
  jobs (Accessor.run_jobs view t w).2 = [].
Proof.
  apply (Accessor_run_jobs_ind view
           (λ s, (∃ l, images s.2 = images w ++ l) ∧ readers s.2 = readers w ∧
                 jobs s.2 = []) (λ _, True)).
  - simpl. split; [exists []; by rewrite app_nil_r | done].
  - intros j t' w' _ ([l Hl] & Hr & Hj). simpl in Hl, Hr, Hj.
    destruct (Accessor_run_job_extends view j t' w') as ([l' Hl'] & Hr' & Hj').
    split; [|split; congruence].
    exists (l ++ l'). by rewrite Hl', Hl, app_assoc.
  - by apply Forall_forall.
Qed.

Lemma Accessor_run_jobs_nil {Node} (view : PluginArgs → Node) t w :
  jobs w = [] → Accessor.run_jobs view t w = (t, w).
Proof.
  intros H. unfold Accessor.run_jobs. rewrite H. simpl.
  destruct w; simpl in *; by subst.
Qed.

Lemma Accessor_step_jobs {Node} (view : PluginArgs → Node) s e :
  jobs (Accessor.step view s e).2 = [].
Proof.
  unfold Accessor.step. destruct (Accessor.dispatch view e s.1 s.2) as [t' w'].
  apply Accessor_run_jobs_world.
Qed.

Lemma settle_images_ne p s w i :
  p ≠ ImagePromise i → images (settle p s w) !! i = images w !! i.
Proof.
  intros Hp. unfold settle.
  destruct (lookup_promise p w) as [[[] rs]|]; try done.
  destruct p as [j|r]; simpl; [|done].
  apply list_lookup_alter_ne. congruence.
Qed.

Lemma settle_readers_ne p s w r :
  p ≠ DropPromise r → readers (settle p s w) !! r = readers w !! r.
Proof.
  intros Hp. unfold settle.
  destruct (lookup_promise p w) as [[[] rs]|]; try done.
  destruct p as [j|r']; simpl; [done|].
  apply list_lookup_alter_ne. congruence.
Qed.

Lemma settle_calls p s w : calls (settle p s w) = calls w.
Proof.
  unfold settle. destruct (lookup_promise p w) as [[[] rs]|]; try done.
  by destruct p.
Qed.

Lemma settle_length p s w :
  length (images (settle p s w)) = length (images w) ∧
  length (readers (settle p s w)) = length (readers w).
Proof.
  unfold settle. destruct (lookup_promise p w) as [[[] rs]|]; try done.
  destruct p; simpl; by rewrite length_alter.
Qed.

Lemma then_images_ne p cb w i :
  p ≠ ImagePromise i → images (then_ p cb w) !! i = images w !! i.
Proof.
  intros Hp. unfold then_.
  destruct (lookup_promise p w) as [[[] rs]|]; try done.
  destruct p as [j|r]; simpl; [|done].
  apply list_lookup_alter_ne. congruence.
Qed.

Lemma then_readers_ne p cb w r :
  p ≠ DropPromise r → readers (then_ p cb w) !! r = readers w !! r.
Proof.
  intros Hp. unfold then_.
  destruct (lookup_promise p w) as [[[] rs]|]; try done.
  destruct p as [j|r']; simpl; [done|].
  apply list_lookup_alter_ne. congruence.
Qed.

(** Events of other images, and events of an image that is no longer
    loading, leave an image element as it is. *)
Lemma image_error_frame j w i im :
  images w !! i = Some im → (img_state im = Loading → j ≠ i) →
  images (image_error j w) !! i = Some im.
Proof.
  intros Hi Hne. unfold image_error.
  destruct (images w !! j) as [imj|] eqn:Hj; [|done].
  destruct (img_state imj) eqn:Hs; try done.
  assert (j ≠ i) as Hji by (intros ->; apply Hne; [congruence | done]).
  destruct (img_onerror imj) as [[]|].
  - rewrite settle_images_ne by congruence. simpl.
    by rewrite list_lookup_insert_ne.
  - simpl. by rewrite list_lookup_insert_ne.
Qed.

Lemma image_error_readers j w : readers (image_error j w) = readers w.
Proof.
  unfold image_error.
  destruct (images w !! j) as [imj|] eqn:Hj; [|done].
  destruct (img_state imj) eqn:Hs; try done.
  destruct (img_onerror imj) as [[]|]; [|done].
  unfold settle. simpl.
  destruct (img_promise <$> _) as [[[] rs]|]; done.
Qed.

Lemma reader_load_images r w : images (reader_load r w) = images w.
Proof.
  unfold reader_load.
  destruct (readers w !! r) as [fr|]; [|done].
  destruct (fr_state fr); try done.
  destruct (fr_onload fr) as [[]|]; [|done].
  unfold settle. simpl.
  destruct (fr_promise <$> _) as [[[] rs]|]; done.
Qed.

Lemma reader_error_images r w : images (reader_error r w) = images w.
Proof.
  unfold reader_error.
  destruct (readers w !! r) as [fr|]; [|done].
  destruct (fr_state fr); try done.
  destruct (fr_onerror fr) as [[]|]; [|done].
  unfold settle. simpl.
  destruct (fr_promise <$> _) as [[[] rs]|]; done.
Qed.

Lemma reader_load_frame r' w r fr :
  readers w !! r = Some fr → (fr_state fr = Reading → r' ≠ r) →
  readers (reader_load r' w) !! r = Some fr.
Proof.
  intros Hr Hne. unfold reader_load.
  destruct (readers w !! r') as [fr'|] eqn:Hr'; [|done].
  destruct (fr_state fr') eqn:Hs; try done.
  assert (r' ≠ r) as Hrr by (intros ->; apply Hne; [congruence | done]).
  destruct (fr_onload fr') as [[]|].
  - rewrite settle_readers_ne by congruence. simpl.
    by rewrite list_lookup_insert_ne.
  - simpl. by rewrite list_lookup_insert_ne.
Qed.

Lemma reader_error_frame r' w r fr :
  readers w !! r = Some fr → (fr_state fr = Reading → r' ≠ r) →
  readers (reader_error r' w) !! r = Some fr.
Proof.
  intros Hr Hne. unfold reader_error.
  destruct (readers w !! r') as [fr'|] eqn:Hr'; [|done].
  destruct (fr_state fr') eqn:Hs; try done.
  assert (r' ≠ r) as Hrr by (intros ->; apply Hne; [congruence | done]).
  destruct (fr_onerror fr') as [[]|].
  - rewrite settle_readers_ne by congruence. simpl.
    by rewrite list_lookup_insert_ne.
  - simpl. by rewrite list_lookup_insert_ne.
Qed.

Lemma onDropHandler_frame f w r fr :
  readers w !! r = Some fr → readers (onDropHandler f w).2 !! r = Some fr.
Proof. intros H. simpl. by apply lookup_app_l_Some. Qed.

Lemma onDropHandler_then_frame f cb w r fr :
  readers w !! r = Some fr →
  readers (then_ (onDropHandler f w).1 cb (onDropHandler f w).2) !! r = Some fr.
Proof.
  intros H. rewrite then_readers_ne.
  - by apply onDropHandler_frame.
  - simpl. intros [= Heq]. apply lookup_lt_Some in H. lia.
Qed.

Lemma onDropHandler_then_images f cb w :
  images (then_ (onDropHandler f w).1 cb (onDropHandler f w).2) = images w.
Proof.
  unfold then_. destruct (lookup_promise _ _) as [[[] rs]|]; done.
Qed.

(** ** Frames of the accessor revision *)

Lemma Accessor_image_load_frame j nw nh t w i im :
  images w !! i = Some im → (img_state im = Loading → j ≠ i) →
  images (Accessor.image_load j nw nh t w).2 !! i = Some im.
Proof.
  intros Hi Hne. unfold Accessor.image_load.
  destruct (images w !! j) as [imj|] eqn:Hj; [|done].
  destruct (img_state imj) eqn:Hs; try done.
  assert (j ≠ i) as Hji by (intros ->; apply Hne; [congruence | done]).
  destruct (img_onload imj) as [[]|]; simpl.
  - rewrite settle_images_ne by congruence. simpl.
    by rewrite list_lookup_insert_ne.
  - by rewrite list_lookup_insert_ne.
Qed.

Lemma Accessor_image_load_readers j nw nh t w :
  readers (Accessor.image_load j nw nh t w).2 = readers w.
Proof.
  unfold Accessor.image_load.
  destruct (images w !! j) as [imj|] eqn:Hj; [|done].
  destruct (img_state imj) eqn:Hs; try done.
  destruct (img_onload imj) as [[]|]; [|done]. simpl.
  unfold settle. simpl.
  destruct (img_promise <$> _) as [[[] rs]|]; done.
Qed.

Lemma Accessor_onPaste_file {Node} (view : PluginArgs → Node) f t w :
  Accessor.onPaste view (PasteFile f) t w =
    (t, then_ (onDropHandler f w).1 ThenPastedFile (onDropHandler f w).2).
Proof. reflexivity. Qed.

Lemma Accessor_dispatch_image_frame {Node} (view : PluginArgs → Node) e t w i im :
  images w !! i = Some im → (img_state im = Loading → ¬ on_image i e) →
  images (Accessor.dispatch view e t w).2 !! i = Some im.
Proof.
  intros Hi Hne. destruct e as [|b|ev|f|j nw nh|j|r|r];
    [simpl|simpl|unfold Accessor.dispatch|simpl..].
  - apply (extends_image w); [apply Accessor_render_extends | done].
  - done.
  - destruct ev as [img|text|file|ty].
    + apply (extends_image w); [apply Accessor_set_data_extends | done].
    + apply (extends_image w); [apply Accessor_set_data_extends | done].
    + rewrite Accessor_onPaste_file. cbn [snd].
      by rewrite (onDropHandler_then_images file ThenPastedFile w).
    + done.
  - done.
  - by apply Accessor_image_load_frame.
  - by apply image_error_frame.
  - by rewrite reader_load_images.
  - by rewrite reader_error_images.
Qed.

Lemma Accessor_dispatch_reader_frame {Node} (view : PluginArgs → Node) e t w r fr :
  readers w !! r = Some fr → (fr_state fr = Reading → ¬ on_reader r e) →
  readers (Accessor.dispatch view e t w).2 !! r = Some fr.
Proof.
  intros Hr Hne. destruct e as [|b|ev|f|j nw nh|j|r'|r'];
    [simpl|simpl|unfold Accessor.dispatch|simpl..].
  - by destruct (Accessor_render_extends view t w) as (_ & -> & _).
  - done.
  - destruct ev as [img|text|file|ty].
    + cbn [Accessor.onPaste].
      by destruct (Accessor_set_data_extends view {[ "url" := VString (src img) ]} t w)
        as (_ & -> & _).
    + cbn [Accessor.onPaste].
      by destruct (Accessor_set_data_extends view {[ "url" := VString text ]} t w)
        as (_ & -> & _).
    + rewrite Accessor_onPaste_file. cbn [snd].
      by apply (onDropHandler_then_frame file ThenPastedFile w).
    + done.
  - by apply lookup_app_l_Some.
  - by rewrite Accessor_image_load_readers.
  - by rewrite image_error_readers.
  - by apply reader_load_frame.
  - by apply reader_error_frame.
Qed.

Lemma Accessor_step_image_frame {Node} (view : PluginArgs → Node) e s i im :
  images s.2 !! i = Some im → (img_state im = Loading → ¬ on_image i e) →
  images (Accessor.step view s e).2 !! i = Some im.
Proof.
  intros Hi Hne. unfold Accessor.step.
  pose proof (Accessor_dispatch_image_frame view e s.1 s.2 i im Hi Hne) as H.
  destruct (Accessor.dispatch view e s.1 s.2) as [t' w']. simpl in H.
  destruct (Accessor_run_jobs_world view t' w') as ([l ->] & _).
  by apply lookup_app_l_Some.
Qed.

Lemma Accessor_step_reader_frame {Node} (view : PluginArgs → Node) e s r fr :
  readers s.2 !! r = Some fr → (fr_state fr = Reading → ¬ on_reader r e) →
  readers (Accessor.step view s e).2 !! r = Some fr.
Proof.
  intros Hr Hne. unfold Accessor.step.
  pose proof (Accessor_dispatch_reader_frame view e s.1 s.2 r fr Hr Hne) as H.
  destruct (Accessor.dispatch view e s.1 s.2) as [t' w']. simpl in H.
  by destruct (Accessor_run_jobs_world view t' w') as (_ & -> & _).
Qed.

Lemma Accessor_run_app {Node} (view : PluginArgs → Node) s es es' :
  Accessor.run view s (es ++ es') = Accessor.run view (Accessor.run view s es) es'.
Proof. apply foldl_app. Qed.

Lemma Accessor_run_image_frame {Node} (view : PluginArgs → Node) es s i im :
  images s.2 !! i = Some im →
  (img_state im = Loading → Forall (λ e, ¬ on_image i e) es) →
  images (Accessor.run view s es).2 !! i = Some im.
Proof.
  revert s. induction es as [|e es IH]; intros s Hi Hne; [done|].
  simpl. apply IH.
  - apply Accessor_step_image_frame; [done|].
    intros Hl. specialize (Hne Hl). by inversion Hne.
  - intros Hl. specialize (Hne Hl). by inversion Hne.
Qed.

Lemma Accessor_run_reader_frame {Node} (view : PluginArgs → Node) es s r fr :
  readers s.2 !! r = Some fr →
  (fr_state fr = Reading → Forall (λ e, ¬ on_reader r e) es) →
  readers (Accessor.run view s es).2 !! r = Some fr.
Proof.
  revert s. induction es as [|e es IH]; intros s Hr Hne; [done|].
  simpl. apply IH.
  - apply Accessor_step_reader_frame; [done|].
    intros Hl. specialize (Hne Hl). by inversion Hne.
  - intros Hl. specialize (Hne Hl). by inversion Hne.
Qed.

Lemma Accessor_run_jobs_after {Node} (view : PluginArgs → Node) es s :
  jobs s.2 = [] → jobs (Accessor.run view s es).2 = [].
Proof.
  revert s. induction es as [|e es IH]; intros s Hs; [done|].
  simpl. apply IH. apply Accessor_step_jobs.
Qed.

(** ** Image load failure *)

Lemma image_error_pending i w u :
  images w !! i = Some (rendered_image u) →
  images (image_error i w) !! i
    = Some (with_img_promise (rejected_with i) (with_img_state Broken (rendered_image u))) ∧
  (∀ j, j ≠ i → images (image_error i w) !! j = images w !! j) ∧
  length (images (image_error i w)) = length (images w) ∧
  readers (image_error i w) = readers w ∧
  calls (image_error i w) = calls w ∧
  jobs (image_error i w) = jobs w.
Proof.
  intros Hi. pose proof (lookup_lt_Some _ _ _ Hi) as Hlt.
  unfold image_error. rewrite Hi. simpl.
  unfold settle. simpl. rewrite list_lookup_insert_eq by done. simpl.
  repeat split.
  - rewrite list_lookup_alter_eq, list_lookup_insert_eq by done. done.
  - intros j Hj. by rewrite list_lookup_alter_ne, list_lookup_insert_ne.
  - by rewrite length_alter, length_insert.
  - by rewrite app_nil_r.
Qed.

Lemma Accessor_run_cons {Node} (view : PluginArgs → Node) s e es :
  Accessor.run view s (e :: es) = Accessor.run view (Accessor.step view s e) es.
Proof. reflexivity. Qed.

(** X17.  In the accessor revision, rendering a record with a nonempty
    url creates an image
    element whose [src] is that url and hands the element's promise to
    [view] as [pluginImagePromise].  Whatever happens in between, when
    that element fires [error] the promise is rejected, and nothing else
    changes: no element is created, no callback of the host is invoked,
    the tool and the element's [src] stay as they were, and the promise
    stays rejected from then on. *)
Theorem image_error_rejects_promise {Node} (view : PluginArgs → Node)
    (t : Accessor.SimpleImage) (w : World) (u : string)
    (es : list Accessor.Task) :
  Accessor.get_data t !! "url" = Some (VString u) → u ≠ "" → jobs w = [] →
  let image := length (images w) in
  Forall (λ e, ¬ on_image image e) es →
  let w1 := (Accessor.render view t w).2 in
  let s2 := Accessor.run view (t, w1) es in
  let s3 := Accessor.step view s2 (Accessor.ImageError image) in
  images w1 = images w ++ [rendered_image u] ∧
  (∃ a, calls w1 = calls w ++ [CallView a] ∧ pluginImage a = Some image ∧
        pluginImagePromise a = Some (ImagePromise image)) ∧
  lookup_promise (ImagePromise image) s2.2 = Some fresh_promise ∧
  lookup_promise (ImagePromise image) s3.2 = Some (rejected_with image) ∧
  s3.1 = s2.1 ∧ calls s3.2 = calls s2.2 ∧ readers s3.2 = readers s2.2 ∧
  length (images s3.2) = length (images s2.2) ∧
  (∀ j, j ≠ image → images s3.2 !! j = images s2.2 !! j) ∧
  img_src <$> images s3.2 !! image = Some u ∧
  (∀ es', lookup_promise (ImagePromise image) (Accessor.run view s3 es').2
            = Some (rejected_with image)).
Proof.
  intros Hu Hne Hjobs image Hes w1 s2 s3.
  assert (ToBoolean (prop (Accessor.get_data t) "url") = true) as Htrue
    by (by apply (ToBoolean_string _ u)).
  assert (w1 = log_call (CallView (render_args t (Some image)))
                 (set_images (λ l, l ++ [rendered_image u]) w)) as Hw1.
  { subst w1. rewrite (Accessor_render_truthy view t w Htrue). simpl.
    unfold prop. by rewrite Hu. }
  assert (images w1 !! image = Some (rendered_image u)) as Hi1.
  { rewrite Hw1. simpl. by rewrite lookup_app_r, Nat.sub_diag. }
  assert (images s2.2 !! image = Some (rendered_image u)) as Hi2.
  { subst s2. by apply Accessor_run_image_frame. }
  assert (jobs s2.2 = []) as Hj2.
  { subst s2. apply Accessor_run_jobs_after. rewrite Hw1. done. }
  destruct (image_error_pending image s2.2 u Hi2) as (He1 & He2 & He3 & He4 & He5 & He6).
  assert (s3 = (s2.1, image_error image s2.2)) as Hs3.
  { subst s3. unfold Accessor.step. simpl.
    apply Accessor_run_jobs_nil. by rewrite He6. }
  assert (images s3.2 !! image
          = Some (with_img_promise (rejected_with image)
                    (with_img_state Broken (rendered_image u)))) as Hi3
    by (by rewrite Hs3).
  split; [by rewrite Hw1|]. split; [by (rewrite Hw1; eexists)|].
  split; [by (simpl; rewrite Hi2)|]. split; [by (simpl; rewrite Hi3)|].
  rewrite Hs3. simpl. repeat split; try done.
  - by rewrite He1.
  - intros es'. rewrite <- Hs3.
    rewrite (Accessor_run_image_frame view es' s3 image _ Hi3); done.
Qed.

Lemma image_error_rejects_promise_witness :
  let t := {| Accessor.id := "k3f9"; Accessor.api := {| getCurrentBlockIndex := 0 |};
              Accessor.config := {| has_initialize := false; has_onpaste := false;
                                    entries := ∅ |};
              Accessor._data := {[ "url" := VString "http://h/a.png" ]};
              Accessor.blockIndex := Some 1%Z |} in
  let view := λ _ : PluginArgs, 7 in
  let s := Accessor.run view (t, (Accessor.render view t empty_world).2)
             [Accessor.DoRender; Accessor.ImageError 1] in
  lookup_promise (ImagePromise 0) (Accessor.step view s (Accessor.ImageError 0)).2
    = Some (rejected_with 0).
Proof.
  intros t view s.
  refine (proj1 (proj2 (proj2 (proj2
    (image_error_rejects_promise view t empty_world "http://h/a.png"
       [Accessor.DoRender; Accessor.ImageError 1] _ _ _ _))))).
  - reflexivity.
  - discriminate.
  - reflexivity.
  - repeat constructor; simpl; auto.
Defined.

(** ** File reads *)

Lemma reader_load_dropped r w f :
  readers w !! r = Some (dropped f) →
  readers (reader_load r w) !! r = Some (read_done f).
Proof.
  intros Hr. pose proof (lookup_lt_Some _ _ _ Hr) as Hlt.
  unfold reader_load. rewrite Hr. simpl.
  unfold settle. simpl. rewrite list_lookup_insert_eq by done. simpl.
  by rewrite list_lookup_alter_eq, list_lookup_insert_eq.
Qed.

Lemma reader_error_dropped r w f :
  readers w !! r = Some (dropped f) →
  readers (reader_error r w) !! r = Some (read_failed f).
Proof.
  intros Hr. pose proof (lookup_lt_Some _ _ _ Hr) as Hlt.
  unfold reader_error. rewrite Hr. simpl.
  by rewrite list_lookup_insert_eq.
Qed.

Lemma Accessor_step_readers {Node} (view : PluginArgs → Node) s e :
  readers (Accessor.step view s e).2 = readers (Accessor.dispatch view e s.1 s.2).2.
Proof.
  unfold Accessor.step. destruct (Accessor.dispatch view e s.1 s.2) as [t' w'].
  by destruct (Accessor_run_jobs_world view t' w') as (_ & -> & _).
Qed.

(** A reader made by [onDropHandler] is reading, done with the data URL
    of its file, or failed with its promise still pending. *)
Lemma Accessor_step_dropped {Node} (view : PluginArgs → Node) s e r f fr :
  readers s.2 !! r = Some fr →
  fr = dropped f ∨ fr = read_done f ∨ fr = read_failed f →
  ∃ fr', readers (Accessor.step view s e).2 !! r = Some fr' ∧
         (fr' = dropped f ∨ fr' = read_done f ∨ fr' = read_failed f) ∧
         (fr = read_failed f → fr' = read_failed f) ∧
         (fr = dropped f → e ≠ Accessor.ReaderLoad r → fr' ≠ read_done f).
Proof.
  intros Hr Hfr.
  destruct (decide (fr_state fr = Reading ∧ on_reader r e)) as [[Hs He]|Hn].
  - assert (fr = dropped f) as -> by (by destruct Hfr as [->|[->| ->]]).
    rewrite Accessor_step_readers.
    destruct e as [| | | | | |r'|r']; simpl in He; try done; subst r'; simpl.
    + exists (read_done f). split; [by apply reader_load_dropped|].
      split; [auto|]. split; [discriminate|]. done.
    + exists (read_failed f). split; [by apply reader_error_dropped|].
      split; [auto|]. split; [discriminate|]. discriminate.
  - exists fr. split.
    + apply Accessor_step_reader_frame; [done|]. intros Hs He. apply Hn. done.
    + split; [done|]. split; [done|]. intros -> _. discriminate.
Qed.

Lemma Accessor_run_dropped {Node} (view : PluginArgs → Node) es s r f fr :
  readers s.2 !! r = Some fr →
  fr = dropped f ∨ fr = read_done f ∨ fr = read_failed f →
  ∃ fr', readers (Accessor.run view s es).2 !! r = Some fr' ∧
         (fr' = dropped f ∨ fr' = read_done f ∨ fr' = read_failed f) ∧
         (fr = read_failed f → fr' = read_failed f).
Proof.
  revert s fr. induction es as [|e es IH]; intros s fr Hr Hfr.
  - exists fr. done.
  - destruct (Accessor_step_dropped view s e r f fr Hr Hfr) as (fr1 & H1 & H2 & H3 & _).
    destruct (IH _ fr1 H1 H2) as (fr2 & H4 & H5 & H6).
    exists fr2. rewrite Accessor_run_cons. auto.
Qed.

(** Without a [load] event the reader is still reading, or has failed. *)
Lemma Accessor_run_no_load {Node} (view : PluginArgs → Node) es s r f fr :
  readers s.2 !! r = Some fr →
  fr = dropped f ∨ fr = read_failed f →
  Forall (λ e, e ≠ Accessor.ReaderLoad r) es →
  ∃ fr', readers (Accessor.run view s es).2 !! r = Some fr' ∧
         (fr' = dropped f ∨ fr' = read_failed f).
Proof.
  revert s fr. induction es as [|e es IH]; intros s fr Hr Hfr Hes.
  - exists fr. done.
  - inversion Hes as [|? ? He Hes']; subst.
    assert (fr = dropped f ∨ fr = read_done f ∨ fr = read_failed f) as Hfr'
      by (destruct Hfr; auto).
    destruct (Accessor_step_dropped view s e r f fr Hr Hfr') as (fr1 & H1 & H2 & H3 & H4).
    rewrite Accessor_run_cons. apply (IH _ fr1 H1); [|done].
    destruct Hfr as [->| ->]; [|right; by apply H3].
    destruct H2 as [->|[->| ->]]; auto. by destruct (H4 eq_refl He).
Qed.

Lemma onDropHandler_reader f w :
  (onDropHandler f w).1 = DropPromise (length (readers w)) ∧
  readers (onDropHandler f w).2 !! length (readers w) = Some (dropped f).
Proof. split; [done|]. simpl. by rewrite lookup_app_r, Nat.sub_diag. Qed.

(** C4.  The promise [onDropHandler] returns is pending until the
    reader's [load] event; with that event it is fulfilled with the
    record whose [url] is the data URL [readAsDataURL] produced for the
    file, it keeps that value, and it is never fulfilled with anything
    else. *)
Theorem onDropHandler_resolves_with_data_url {Node} (view : PluginArgs → Node)
    (t : Accessor.SimpleImage) (w : World) (file : File)
    (es : list Accessor.Task) :
  let reader := length (readers w) in
  Forall (λ e, ¬ on_reader reader e) es →
  let p := (onDropHandler file w).1 in
  let w1 := (onDropHandler file w).2 in
  let s2 := Accessor.run view (t, w1) es in
  let s3 := Accessor.step view s2 (Accessor.ReaderLoad reader) in
  lookup_promise p w1 = Some fresh_promise ∧
  lookup_promise p s2.2 = Some fresh_promise ∧
  lookup_promise p s3.2
    = Some {| pstate := Fulfilled (SData {[ "url" := VString (readAsDataURL_result file) ]});
              reactions := [] |} ∧
  (∀ es', lookup_promise p (Accessor.run view s3 es').2
          = Some {| pstate := Fulfilled (SData {[ "url" := VString (readAsDataURL_result file) ]});
                    reactions := [] |}) ∧
  (∀ es' pr v,
     lookup_promise p (Accessor.run view (t, w1) es').2 = Some pr →
     pstate pr = Fulfilled v →
     v = SData {[ "url" := VString (readAsDataURL_result file) ]}).
Proof.
  intros reader Hes p w1 s2 s3.
  assert (p = DropPromise reader) as Hp by done.
  assert (readers w1 !! reader = Some (dropped file)) as Hr1
    by apply onDropHandler_reader.
  clearbody p w1 reader. subst p.
  assert (readers s2.2 !! reader = Some (dropped file)) as Hr2.
  { subst s2. by apply Accessor_run_reader_frame. }
  assert (readers s3.2 !! reader = Some (read_done file)) as Hr3.
  { subst s3. rewrite Accessor_step_readers. simpl. by apply reader_load_dropped. }
  simpl. rewrite Hr1, Hr2, Hr3. simpl.
  split; [done|]. split; [done|]. split; [done|]. split.
  - intros es'.
    by rewrite (Accessor_run_reader_frame view es' s3 reader (read_done file) Hr3).
  - intros es' pr v Hpr Hv.
    destruct (Accessor_run_dropped view es' (t, w1) reader file _ Hr1)
      as (fr' & Hfr' & Hcases & _); [by left|].
    rewrite Hfr' in Hpr. simpl in Hpr. injection Hpr as <-.
    destruct Hcases as [->|[->| ->]]; simpl in Hv; congruence.
Qed.

Lemma onDropHandler_resolves_with_data_url_witness :
  let t := {| Accessor.id := "k3f9"; Accessor.api := {| getCurrentBlockIndex := 0 |};
              Accessor.config := {| has_initialize := false; has_onpaste := false;
                                    entries := ∅ |};
              Accessor._data := {[ "url" := VString "http://h/a.png" ]};
              Accessor.blockIndex := Some 1%Z |} in
  let view := λ _ : PluginArgs, 7 in
  let file := {| file_type := "image/png"; file_base64 := "iVBORw0KGgo=" |} in
  let s := Accessor.run view (t, (onDropHandler file empty_world).2)
             [Accessor.DoRender; Accessor.ReaderError 3] in
  lookup_promise (DropPromise 0) (Accessor.step view s (Accessor.ReaderLoad 0)).2
    = Some {| pstate := Fulfilled (SData {[ "url" := VString "data:image/png;base64,iVBORw0KGgo=" ]});
              reactions := [] |}.
Proof.
  intros t view file s.
  refine (proj1 (proj2 (proj2
    (onDropHandler_resolves_with_data_url view t empty_world file
       [Accessor.DoRender; Accessor.ReaderError 3] _)))).
  repeat constructor; simpl; auto.
Defined.

(** C10.  The promise [onDropHandler] returns is never rejected: the
    reader has no [onerror].  When the read fails, with the [error] event
    in place of [load], the promise is pending after the event and after
    every later task. *)
Theorem onDropHandler_never_rejects {Node} (view : PluginArgs → Node)
    (t : Accessor.SimpleImage) (w : World) (file : File) :
  let reader := length (readers w) in
  let p := (onDropHandler file w).1 in
  let w1 := (onDropHandler file w).2 in
  fr_onerror <$> readers w1 !! reader = Some None ∧
  (∀ es, ∃ pr, lookup_promise p (Accessor.run view (t, w1) es).2 = Some pr ∧
               ∀ v, pstate pr ≠ Rejected v) ∧
  (∀ es1 es2, Forall (λ e, e ≠ Accessor.ReaderLoad reader) es1 →
     lookup_promise p
       (Accessor.run view (t, w1) (es1 ++ Accessor.ReaderError reader :: es2)).2
     = Some fresh_promise).
Proof.
  intros reader p w1.
  assert (p = DropPromise reader) as Hp by done.
  assert (readers w1 !! reader = Some (dropped file)) as Hr1
    by apply onDropHandler_reader.
  clearbody p w1 reader. subst p.
  simpl. split; [by rewrite Hr1|]. split.
  - intros es.
    destruct (Accessor_run_dropped view es (t, w1) reader file _ Hr1)
      as (fr' & Hfr' & Hcases & _); [by left|].
    rewrite Hfr'. simpl. eexists. split; [done|].
    intros v. by destruct Hcases as [->|[->| ->]].
  - intros es1 es2 Hes1.
    rewrite Accessor_run_app, Accessor_run_cons.
    destruct (Accessor_run_no_load view es1 (t, w1) reader file _ Hr1)
      as (fr1 & Hfr1 & Hc1); [by left | done |].
    set (s1 := Accessor.run view (t, w1) es1) in *.
    assert (readers (Accessor.step view s1 (Accessor.ReaderError reader)).2 !! reader
            = Some (read_failed file)) as Hfail.
    { destruct Hc1 as [->| ->].
      - rewrite Accessor_step_readers. simpl. by apply reader_error_dropped.
      - by apply Accessor_step_reader_frame. }
    by rewrite (Accessor_run_reader_frame view es2 _ reader (read_failed file) Hfail).
Qed.

(** ** Natural sizes *)

Lemma settle_handlers p s w :
  Forall has_handlers (images w) → Forall has_handlers (images (settle p s w)).
Proof.
  intros H. unfold settle.
  destruct (lookup_promise p w) as [[[] rs]|]; try done.
  destruct p as [i|r]; simpl; [|done].
  apply Forall_alter; [done|]. by intros im _ Him.
Qed.

Lemma Accessor_render_handlers {Node} (view : PluginArgs → Node) t w :
  Forall has_handlers (images w) →
  Forall has_handlers (images (Accessor.render view t w).2).
Proof.
  intros H. unfold Accessor.render. destruct (ToBoolean _); simpl; [|done].
  apply Forall_app. split; [done|]. by repeat constructor.
Qed.

Lemma Accessor_set_data_handlers {Node} (view : PluginArgs → Node) d t w :
  Forall has_handlers (images w) →
  Forall has_handlers (images (Accessor.set_data view d t w).2).
Proof.
  intros H. unfold Accessor.set_data. destruct (ToBoolean _); simpl; [|done].
  by apply Accessor_render_handlers.
Qed.

Lemma Accessor_run_jobs_handlers {Node} (view : PluginArgs → Node) t w :
  Forall has_handlers (images w) →
  Forall has_handlers (images (Accessor.run_jobs view t w).2).
Proof.
  intros H.
  apply (Accessor_run_jobs_ind view
           (λ s, Forall has_handlers (images s.2)) (λ _, True)); [done| |].
  - intros j t' w' _ H'. simpl in H'. unfold Accessor.run_job.
    destruct (job_reaction j), (job_outcome j) as [|[]|]; simpl; try done.
    by apply Accessor_set_data_handlers.
  - by apply Forall_forall.
Qed.

Lemma Accessor_dispatch_handlers {Node} (view : PluginArgs → Node) e t w :
  Forall has_handlers (images w) →
  Forall has_handlers (images (Accessor.dispatch view e t w).2).
Proof.
  intros H. destruct e as [|b|ev|f|j nw nh|j|r|r];
    [simpl|simpl|unfold Accessor.dispatch|simpl..].
  - by apply Accessor_render_handlers.
  - done.
  - destruct ev as [img|text|file|ty].
    + by apply Accessor_set_data_handlers.
    + by apply Accessor_set_data_handlers.
    + rewrite Accessor_onPaste_file. cbn [snd].
      by rewrite (onDropHandler_then_images file ThenPastedFile w).
    + done.
  - done.
  - unfold Accessor.image_load.
    destruct (images w !! j) as [im|] eqn:Hj; [|done].
    assert (has_handlers im) as Him
      by (eapply Forall_forall; [exact H | by eapply list_elem_of_lookup_2]).
    destruct (img_state im); try done.
    destruct (img_onload im) as [[]|] eqn:Ho; simpl.
    + apply settle_handlers. simpl. by apply Forall_insert.
    + by apply Forall_insert.
  - unfold image_error.
    destruct (images w !! j) as [im|] eqn:Hj; [|done].
    assert (has_handlers im) as Him
      by (eapply Forall_forall; [exact H | by eapply list_elem_of_lookup_2]).
    destruct (img_state im); try done.
    destruct (img_onerror im) as [[]|] eqn:Ho; simpl.
    + apply settle_handlers. simpl. by apply Forall_insert.
    + by apply Forall_insert.
  - by rewrite reader_load_images.
  - by rewrite reader_error_images.
Qed.

Lemma Accessor_step_handlers {Node} (view : PluginArgs → Node) e s :
  Forall has_handlers (images s.2) →
  Forall has_handlers (images (Accessor.step view s e).2).
Proof.
  intros H. unfold Accessor.step.
  pose proof (Accessor_dispatch_handlers view e s.1 s.2 H) as H'.
  destruct (Accessor.dispatch view e s.1 s.2) as [t' w'].
  by apply Accessor_run_jobs_handlers.
Qed.

Lemma Accessor_run_handlers {Node} (view : PluginArgs → Node) es s :
  Forall has_handlers (images s.2) →
  Forall has_handlers (images (Accessor.run view s es).2).
Proof.
  revert s. induction es as [|e es IH]; intros s H; [done|].
  rewrite Accessor_run_cons. by apply IH, Accessor_step_handlers.
Qed.

Lemma Accessor_constructor_world {Node} (view : PluginArgs → Node) rnd data cfg api0 :
  jobs (Accessor.constructor view rnd data cfg api0 empty_world).2 = [] ∧
  Forall has_handlers (images (Accessor.constructor view rnd data cfg api0 empty_world).2) ∧
  Accessor._data (Accessor.constructor view rnd data cfg api0 empty_world).1 = data.
Proof.
  unfold Accessor.constructor.
  pose proof (Accessor_set_data_extends view data
     {| Accessor.id := rnd; Accessor.api := api0; Accessor.config := cfg;
        Accessor._data := ∅; Accessor.blockIndex := None |} empty_world) as (_ & _ & Hj).
  pose proof (Accessor_set_data_handlers view data
     {| Accessor.id := rnd; Accessor.api := api0; Accessor.config := cfg;
        Accessor._data := ∅; Accessor.blockIndex := None |} empty_world) as Hh.
  pose proof (Accessor_set_data_data view data
     {| Accessor.id := rnd; Accessor.api := api0; Accessor.config := cfg;
        Accessor._data := ∅; Accessor.blockIndex := None |} empty_world) as Hd.
  destruct (Accessor.set_data view data _ empty_world) as [t1 w1].
  unfold Accessor.get_data in Hd. simpl in *. split; [done|]. split; [by apply Hh|].
  rewrite Hd. apply (right_id_L ∅ (∪)).
Qed.

Lemma settle_jobs p s w :
  jobs w = [] →
  (∀ d, s = Fulfilled (SData d) → ∃ u, d = {[ "url" := VString u ]}) →
  Forall job_url_only (jobs (settle p s w)).
Proof.
  intros Hj Hs. unfold settle.
  destruct (lookup_promise p w) as [[[] rs]|]; try (rewrite Hj; constructor).
  assert (jobs (store_promise p {| pstate := s; reactions := [] |} w) = []) as Hj'
    by (by destruct p).
  simpl. rewrite Hj'. simpl. apply Forall_map, Forall_forall.
  intros cb _ d Hd. simpl in Hd. by apply Hs.
Qed.

Lemma onDropHandler_then_jobs f cb w :
  jobs (then_ (onDropHandler f w).1 cb (onDropHandler f w).2) = jobs w.
Proof.
  unfold then_. simpl. by rewrite lookup_app_r, Nat.sub_diag.
Qed.

Lemma Accessor_dispatch_jobs {Node} (view : PluginArgs → Node) e t w :
  jobs w = [] → Forall job_url_only (jobs (Accessor.dispatch view e t w).2).
Proof.
  intros Hj. destruct e as [|b|ev|f|j nw nh|j|r|r];
    [simpl|simpl|unfold Accessor.dispatch|simpl..].
  - destruct (Accessor_render_extends view t w) as (_ & _ & ->). rewrite Hj. constructor.
  - rewrite Hj. constructor.
  - destruct ev as [img|text|file|ty].
    + cbn [Accessor.onPaste].
      destruct (Accessor_set_data_extends view {[ "url" := VString (src img) ]} t w)
        as (_ & _ & ->). rewrite Hj. constructor.
    + cbn [Accessor.onPaste].
      destruct (Accessor_set_data_extends view {[ "url" := VString text ]} t w)
        as (_ & _ & ->). rewrite Hj. constructor.
    + rewrite Accessor_onPaste_file. cbn [snd].
      rewrite onDropHandler_then_jobs, Hj. constructor.
    + simpl. rewrite Hj. constructor.
  - rewrite Hj. constructor.
  - unfold Accessor.image_load.
    destruct (images w !! j) as [im|]; [|simpl; rewrite Hj; constructor].
    destruct (img_state im); try (simpl; rewrite Hj; constructor).
    destruct (img_onload im) as [[]|]; simpl; [|rewrite Hj; constructor].
    apply settle_jobs; [done|]. intros d [=].
  - unfold image_error.
    destruct (images w !! j) as [im|]; [|rewrite Hj; constructor].
    destruct (img_state im); try (rewrite Hj; constructor).
    destruct (img_onerror im) as [[]|]; simpl; [|rewrite Hj; constructor].
    apply settle_jobs; [done|]. intros d [=].
  - unfold reader_load.
    destruct (readers w !! r) as [fr|]; [|rewrite Hj; constructor].
    destruct (fr_state fr); try (rewrite Hj; constructor).
    destruct (fr_onload fr) as [[]|]; simpl; [|rewrite Hj; constructor].
    apply settle_jobs; [done|]. intros d [= <-]. by eexists.
  - unfold reader_error.
    destruct (readers w !! r) as [fr|]; [|rewrite Hj; constructor].
    destruct (fr_state fr); try (rewrite Hj; constructor).
    destruct (fr_onerror fr) as [[]|]; simpl; [|rewrite Hj; constructor].
    apply settle_jobs; [done|]. intros d [=].
Qed.

Lemma Accessor_run_jobs_data {Node} (view : PluginArgs → Node) t w k :
  Forall job_url_only (jobs w) → k ≠ "url" →
  Accessor._data (Accessor.run_jobs view t w).1 !! k = Accessor._data t !! k.
Proof.
  intros Hjobs Hk.
  apply (Accessor_run_jobs_ind view
           (λ s, Accessor._data s.1 !! k = Accessor._data t !! k) job_url_only);
    [done| |done].
  intros j t' w' Hj H'. simpl in H'. rewrite <- H'. unfold Accessor.run_job.
  destruct (job_reaction j), (job_outcome j) as [|[i|d|i]|] eqn:Ho; simpl; try done.
  destruct (Hj d Ho) as [u ->].
  pose proof (Accessor_set_data_data view {[ "url" := VString u ]} t' w') as Hd.
  unfold Accessor.get_data in Hd. rewrite Hd.
  apply lookup_union_r. by apply lookup_singleton_ne.
Qed.

Lemma Accessor_dispatch_data {Node} (view : PluginArgs → Node) e t w k :
  ¬ is_load e → k ≠ "url" →
  Accessor._data (Accessor.dispatch view e t w).1 !! k = Accessor._data t !! k.
Proof.
  intros He Hk.
  assert (∀ u, Accessor._data (Accessor.set_data view {[ "url" := VString u ]} t w).1 !! k
               = Accessor._data t !! k) as Hset.
  { intros u. pose proof (Accessor_set_data_data view {[ "url" := VString u ]} t w) as Hd.
    unfold Accessor.get_data in Hd. rewrite Hd.
    apply lookup_union_r. by apply lookup_singleton_ne. }
  destruct e as [|b|ev|f|j nw nh|j|r|r]; simpl; try done.
  - unfold Accessor.save. destruct (querySelector_img b) as [img|]; simpl; [|done].
    rewrite Object_assign_url. unfold Accessor.get_data. by rewrite lookup_insert_ne.
  - destruct ev as [img|text|file|ty]; simpl; try done; apply Hset.
Qed.

Lemma Accessor_step_data_frame {Node} (view : PluginArgs → Node) e s k :
  jobs s.2 = [] → ¬ is_load e → k ≠ "url" →
  Accessor._data (Accessor.step view s e).1 !! k = Accessor._data s.1 !! k.
Proof.
  intros Hj He Hk. unfold Accessor.step.
  pose proof (Accessor_dispatch_jobs view e s.1 s.2 Hj) as Hjobs.
  pose proof (Accessor_dispatch_data view e s.1 s.2 k He Hk) as Hd.
  destruct (Accessor.dispatch view e s.1 s.2) as [t' w']. simpl in *.
  by rewrite Accessor_run_jobs_data.
Qed.

(** The [load] event of an element that is loading. *)
Lemma Accessor_step_image_load {Node} (view : PluginArgs → Node) s i nw nh im :
  jobs s.2 = [] → images s.2 !! i = Some im → img_state im = Loading →
  has_handlers im →
  sizes_are (Accessor._data (Accessor.step view s (Accessor.ImageLoad i nw nh)).1) nw nh ∧
  (∃ im', images (Accessor.step view s (Accessor.ImageLoad i nw nh)).2 !! i = Some im' ∧
          img_state im' = Loaded nw nh) ∧
  (∀ k, k ≠ "naturalWidth" → k ≠ "naturalHeight" → k ≠ "url" →
     Accessor._data (Accessor.step view s (Accessor.ImageLoad i nw nh)).1 !! k
       = Accessor._data s.1 !! k).
Proof.
  intros Hj Hi Hs [Hload _]. pose proof (lookup_lt_Some _ _ _ Hi) as Hlt.
  unfold Accessor.step.
  pose proof (Accessor_dispatch_jobs view (Accessor.ImageLoad i nw nh) s.1 s.2 Hj) as Hjobs.
  simpl in *. unfold Accessor.image_load in *. rewrite Hi, Hs, Hload in *.
  set (w1 := set_images (<[i := with_img_state (Loaded nw nh) im]>) s.2) in *.
  set (w2 := settle (ImagePromise i) (Fulfilled (SImage i)) w1) in *.
  set (t1 := Accessor.with_data _ s.1) in *.
  assert (∃ im', images w2 !! i = Some im' ∧ img_state im' = Loaded nw nh) as (im' & Hi' & Hs').
  { subst w2. unfold settle. simpl. rewrite list_lookup_insert_eq by done. simpl.
    destruct (img_promise im) as [[] rs]; simpl.
    - rewrite list_lookup_alter_eq, list_lookup_insert_eq by done. by eexists.
    - rewrite list_lookup_insert_eq by done. by eexists.
    - rewrite list_lookup_insert_eq by done. by eexists. }
  simpl in Hjobs.
  split; [|split].
  - split; (rewrite Accessor_run_jobs_data; [|done|done]); subst t1; simpl.
    + rewrite lookup_insert_ne by done. apply lookup_insert_eq.
    + apply lookup_insert_eq.
  - destruct (Accessor_run_jobs_world view t1 w2) as ([l ->] & _).
    exists im'. split; [|done]. by apply lookup_app_l_Some.
  - intros k Hk1 Hk2 Hk3. rewrite Accessor_run_jobs_data by done.
    subst t1. simpl. by rewrite !lookup_insert_ne.
Qed.

Lemma Accessor_step_image_load_off {Node} (view : PluginArgs → Node) s i nw nh :
  jobs s.2 = [] →
  (∀ im, images s.2 !! i = Some im → img_state im ≠ Loading) →
  Accessor.step view s (Accessor.ImageLoad i nw nh) = s.
Proof.
  intros Hj Hoff. unfold Accessor.step. simpl. unfold Accessor.image_load.
  destruct (images s.2 !! i) as [im|] eqn:Hi.
  - specialize (Hoff im eq_refl).
    destruct (img_state im); try done;
      rewrite Accessor_run_jobs_nil by done; by destruct s.
  - rewrite Accessor_run_jobs_nil by done. by destruct s.
Qed.

Lemma Accessor_step_size_invariant {Node} (view : PluginArgs → Node) s e :
  size_invariant s → size_invariant (Accessor.step view s e).
Proof.
  intros (Hj & Hh & Hsz).
  split; [apply Accessor_step_jobs|]. split; [by apply Accessor_step_handlers|].
  assert (∀ i nw nh, e = Accessor.ImageLoad i nw nh →
            (∀ im, images s.2 !! i = Some im → img_state im ≠ Loading) →
            sizes_absent (Accessor._data (Accessor.step view s e).1) ∨
            sizes_of_loaded_image (Accessor._data (Accessor.step view s e).1)
              (Accessor.step view s e).2) as Hoff.
  { intros i nw nh -> Hoff. by rewrite Accessor_step_image_load_off. }
  assert (¬ is_load e →
            sizes_absent (Accessor._data (Accessor.step view s e).1) ∨
            sizes_of_loaded_image (Accessor._data (Accessor.step view s e).1)
              (Accessor.step view s e).2) as Hframe.
  { intros He.
    pose proof (Accessor_step_data_frame view e s "naturalWidth" Hj He) as Hw.
    pose proof (Accessor_step_data_frame view e s "naturalHeight" Hj He) as Hhh.
    destruct Hsz as [[H1 H2]|(i & im & nw & nh & Hi & Hs & [H1 H2])].
    - left. split; [rewrite Hw | rewrite Hhh]; done.
    - right. exists i, im, nw, nh. split; [|split; [done|]].
      + apply Accessor_step_image_frame; [done|]. intros Hl. congruence.
      + split; [rewrite Hw | rewrite Hhh]; done. }
  destruct e as [|b|ev|f|i nw nh|j|r|r]; try (by apply Hframe; simpl; auto).
  destruct (images s.2 !! i) as [im|] eqn:Hi.
  - destruct (img_state im) eqn:Hs.
    + right.
      assert (has_handlers im) as Him
        by (eapply Forall_forall; [exact Hh | by eapply list_elem_of_lookup_2]).
      destruct (Accessor_step_image_load view s i nw nh im Hj Hi Hs Him)
        as (Hsizes & (im' & Hi' & Hs') & _).
      by exists i, im', nw, nh.
    + apply (Hoff i nw nh eq_refl). intros im0 H0. rewrite Hi in H0.
      injection H0 as <-. congruence.
    + apply (Hoff i nw nh eq_refl). intros im0 H0. rewrite Hi in H0.
      injection H0 as <-. congruence.
  - apply (Hoff i nw nh eq_refl). intros im0 H0. rewrite Hi in H0. done.
Qed.

Lemma Accessor_run_size_invariant {Node} (view : PluginArgs → Node) es s :
  size_invariant s → size_invariant (Accessor.run view s es).
Proof.
  revert s. induction es as [|e es IH]; intros s H; [done|].
  rewrite Accessor_run_cons. by apply IH, Accessor_step_size_invariant.
Qed.

Lemma Accessor_run_sizes_absent {Node} (view : PluginArgs → Node) es s :
  jobs s.2 = [] → sizes_absent (Accessor._data s.1) →
  Forall (λ e, ¬ is_load e) es →
  sizes_absent (Accessor._data (Accessor.run view s es).1).
Proof.
  revert s. induction es as [|e es IH]; intros s Hj Hs Hes; [done|].
  inversion Hes as [|? ? He Hes']; subst.
  rewrite Accessor_run_cons. apply IH; [apply Accessor_step_jobs| |done].
  destruct Hs as [H1 H2].
  split; rewrite Accessor_step_data_frame; done.
Qed.

Lemma Accessor_run_data_frame {Node} (view : PluginArgs → Node) es s k :
  jobs s.2 = [] → k ≠ "url" → Forall (λ e, ¬ is_load e) es →
  Accessor._data (Accessor.run view s es).1 !! k = Accessor._data s.1 !! k.
Proof.
  revert s. induction es as [|e es IH]; intros s Hj Hk Hes; [done|].
  inversion Hes as [|? ? He Hes']; subst.
  rewrite Accessor_run_cons, IH; [|apply Accessor_step_jobs|done|done].
  by apply Accessor_step_data_frame.
Qed.

(** ** The callback revision *)

Lemma then_calls p cb w : calls (then_ p cb w) = calls w.
Proof.
  unfold then_. destruct (lookup_promise p w) as [[[] rs]|]; try done.
  all: by destruct p.
Qed.

Lemma reader_load_calls r w : calls (reader_load r w) = calls w.
Proof.
  unfold reader_load.
  destruct (readers w !! r) as [fr|]; [|done].
  destruct (fr_state fr); try done.
  destruct (fr_onload fr) as [[]|]; [|done].
  by rewrite settle_calls.
Qed.

Lemma reader_error_calls r w : calls (reader_error r w) = calls w.
Proof.
  unfold reader_error.
  destruct (readers w !! r) as [fr|]; [|done].
  destruct (fr_state fr); try done.
  destruct (fr_onerror fr) as [[]|]; [|done].
  by rewrite settle_calls.
Qed.

(** The local closure [onpaste] never gets to the host's callback: with
    a callback supplied it throws, without one it does nothing. *)
Lemma Callback_onpaste_result t w :
  Callback.onpaste t w =
    (if has_onpaste (Callback.config t)
     then Callback.Throw (ReferenceError "makeImage")
     else Callback.Normal (), w).
Proof. unfold Callback.onpaste. by destruct (has_onpaste _). Qed.

Lemma Callback_run_job_world j t w : (Callback.run_job j t w).2 = w.
Proof.
  unfold Callback.run_job.
  destruct (job_reaction j), (job_outcome j) as [|[]|]; simpl; try done.
  by rewrite Callback_onpaste_result.
Qed.

Lemma Callback_run_jobs_calls t w : calls (Callback.run_jobs t w).2 = calls w.
Proof.
  unfold Callback.run_jobs.
  change (calls w) with (calls (t, set_jobs (λ _ : list Job, []) w).2).
  generalize (t, set_jobs (λ _ : list Job, []) w).
  induction (jobs w) as [|j js IH]; intros s; simpl; [done|].
  rewrite IH. by rewrite Callback_run_job_world.
Qed.

Lemma Callback_onPaste_calls event t w :
  calls (Callback.onPaste event t w).2.2 = calls w.
Proof.
  destruct event as [img|text|file|ty]; simpl; try done.
  - by rewrite Callback_onpaste_result.
  - by rewrite Callback_onpaste_result.
  - unfold then_. simpl. by rewrite lookup_app_r, Nat.sub_diag.
Qed.

Lemma Callback_step_calls {Node} (view : PluginArgs → Node) s e :
  calls (Callback.step view s e).2 = calls s.2.
Proof.
  unfold Callback.step.
  assert (calls (Callback.dispatch view e s.1 s.2).2 = calls s.2) as H.
  { destruct e as [|b|ev|f|r|r]; simpl; try done.
    - apply Callback_onPaste_calls.
    - apply reader_load_calls.
    - apply reader_error_calls. }
  destruct (Callback.dispatch view e s.1 s.2) as [t' w']. simpl in H.
  by rewrite Callback_run_jobs_calls.
Qed.

Lemma Callback_run_calls {Node} (view : PluginArgs → Node) es s :
  calls (Callback.run view s es).2 = calls s.2.
Proof.
  revert s. induction es as [|e es IH]; intros s; [done|].
  simpl. by rewrite IH, Callback_step_calls.
Qed.

(** ** [onPaste] *)

Lemma Callback_onPaste_tag img t w :
  has_onpaste (Callback.config t) = true →
  Callback.onPaste (PasteTag img) t w =
    (Callback.Throw (ReferenceError "makeImage"),
     (Callback.with_data {[ "url" := VString (src img) ]} t, w)).
Proof. intros H. simpl. rewrite Callback_onpaste_result. simpl. by rewrite H. Qed.

Lemma Callback_onPaste_pattern text t w :
  has_onpaste (Callback.config t) = true →
  Callback.onPaste (PastePattern text) t w =
    (Callback.Throw (ReferenceError "makeImage"),
     (Callback.with_data {[ "url" := VString text ]} t, w)).
Proof. intros H. simpl. rewrite Callback_onpaste_result. simpl. by rewrite H. Qed.

(** In the callback revision no run of the tool invokes [config.onpaste]. *)
Lemma Callback_never_invokes_onpaste {Node} (view : PluginArgs → Node)
    rnd data cfg api0 es :
  Forall (λ c, ¬ is_onpaste c)
    (calls (Callback.run view (Callback.constructor rnd data cfg api0 empty_world) es).2).
Proof.
  rewrite Callback_run_calls. unfold Callback.constructor.
  destruct (has_initialize cfg); simpl; repeat constructor; auto.
Qed.

(** The bundle does invoke it: after the assignment of a pasted tag or
    pattern, and the last thing it does. *)
Lemma Bundle_onPaste_invokes_onpaste {Node} (view : PluginArgs → Node) b w :
  has_onpaste (Bundle.config b) = true →
  (∀ img, let s := Bundle.onPaste view (PasteTag img) b w in
     Bundle._data s.1 !! "url" = Some (VString (src img)) ∧
     last (calls s.2) = Some (CallOnpaste (Bundle.context s.1 None None))) ∧
  (∀ text, let s := Bundle.onPaste view (PastePattern text) b w in
     Bundle._data s.1 !! "url" = Some (VString text) ∧
     last (calls s.2) = Some (CallOnpaste (Bundle.context s.1 None None))).
Proof.
  intros H.
  assert (∀ u, let s := Bundle.set_data view {[ "url" := VString u ]} b w in
               Bundle._data (s.1, Bundle.onpaste s.1 s.2).1 !! "url" = Some (VString u) ∧
               last (calls (s.1, Bundle.onpaste s.1 s.2).2)
                 = Some (CallOnpaste (Bundle.context s.1 None None))) as Hset.
  { intros u s. simpl.
    pose proof (Bundle_set_data_data view {[ "url" := VString u ]} b w) as Hd.
    fold s in Hd. unfold Bundle.get_data in Hd. rewrite Hd.
    split; [by apply lookup_union_Some_l, lookup_singleton_eq|].
    unfold Bundle.onpaste.
    assert (Bundle.config s.1 = Bundle.config b) as ->
      by (subst s; unfold Bundle.set_data; by destruct (ToBoolean _)).
    rewrite H. simpl. by rewrite last_snoc. }
  split.
  - intros img. specialize (Hset (src img)). simpl in *.
    by destruct (Bundle.set_data view _ b w).
  - intros text. specialize (Hset text). simpl in *.
    by destruct (Bundle.set_data view _ b w).
Qed.

(** C2, evaluated on the callback revision with an [onpaste] callback
    supplied.  A pasted tag and a pasted pattern store the [{url}] record
    and then throw [ReferenceError] at the unqualified [makeImage()];
    a pasted file stores the record read from it once reading completes.
    In none of the three cases is [config.onpaste] invoked. *)
Theorem onPaste_throws_before_onpaste :
  let view := λ _ : PluginArgs, 7 in
  let cfg := {| has_initialize := false; has_onpaste := true; entries := ∅ |} in
  let s0 := Callback.constructor "k3f9" {[ "url" := VString "" ]} cfg
              {| getCurrentBlockIndex := 0 |} empty_world in
  let img := Elem "img" "http://h/a.png" [] in
  let file := {| file_type := "image/png"; file_base64 := "iVBORw0KGgo=" |} in
  Callback.onPaste (PasteTag img) s0.1 s0.2
    = (Callback.Throw (ReferenceError "makeImage"),
       (Callback.with_data {[ "url" := VString "http://h/a.png" ]} s0.1, s0.2)) ∧
  Callback.onPaste (PastePattern "http://h/b.png") s0.1 s0.2
    = (Callback.Throw (ReferenceError "makeImage"),
       (Callback.with_data {[ "url" := VString "http://h/b.png" ]} s0.1, s0.2)) ∧
  (let s := Callback.run view s0 [Callback.DoPaste (PasteFile file); Callback.ReaderLoad 0] in
   Callback.data s.1 = {[ "url" := VString "data:image/png;base64,iVBORw0KGgo=" ]} ∧
   calls s.2 = []) ∧
  calls (Callback.run view s0
           [Callback.DoPaste (PasteTag img); Callback.DoPaste (PastePattern "http://h/b.png");
            Callback.DoPaste (PasteFile file); Callback.ReaderLoad 0]).2 = [].
Proof.
  intros view cfg s0 img file.
  split; [by apply Callback_onPaste_tag|].
  split; [by apply Callback_onPaste_pattern|].
  split; [|by rewrite Callback_run_calls].
  split; [|by rewrite Callback_run_calls].
  vm_compute. reflexivity.
Qed.


(** * Further properties of the accessor revision *)

(** ** The record keeps a string url *)

Lemma Accessor_set_data_url_typed {Node} (view : PluginArgs → Node) u t w :
  SimpleImageData (Accessor._data (Accessor.set_data view {[ "url" := VString u ]} t w).1).
Proof.
  pose proof (Accessor_set_data_data view {[ "url" := VString u ]} t w) as Hd.
  unfold Accessor.get_data in Hd. rewrite Hd. exists u.
  by apply lookup_union_Some_l, lookup_singleton_eq.
Qed.

Lemma Accessor_step_typed {Node} (view : PluginArgs → Node) s e :
  jobs s.2 = [] → SimpleImageData (Accessor._data s.1) →
  SimpleImageData (Accessor._data (Accessor.step view s e).1).
Proof.
  intros Hj Ht. unfold Accessor.step.
  pose proof (Accessor_dispatch_jobs view e s.1 s.2 Hj) as Hjobs.
  assert (SimpleImageData (Accessor._data (Accessor.dispatch view e s.1 s.2).1)) as Hd.
  { destruct e as [|b|ev|f|i nw nh|j|r|r]; simpl; try done.
    - unfold Accessor.save. destruct (querySelector_img b) as [img|]; simpl; [|done].
      rewrite Object_assign_url. exists (src img). apply lookup_insert_eq.
    - destruct ev as [img|text|file|ty]; simpl; try done;
        apply Accessor_set_data_url_typed.
    - unfold Accessor.image_load.
      destruct (images s.2 !! i) as [im|]; [|done].
      destruct (img_state im); try done.
      destruct (img_onload im) as [[]|]; [|done]. simpl.
      destruct Ht as [u Hu]. exists u. by rewrite !lookup_insert_ne. }
  destruct (Accessor.dispatch view e s.1 s.2) as [t' w']. simpl in *.
  apply (Accessor_run_jobs_ind view
           (λ s, SimpleImageData (Accessor._data s.1)) job_url_only); [done| |done].
  intros j t'' w'' Hjob H''. simpl in H''. unfold Accessor.run_job.
  destruct (job_reaction j), (job_outcome j) as [|[i|d|i]|] eqn:Ho; simpl; try done.
  destruct (Hjob d Ho) as [u ->]. apply Accessor_set_data_url_typed.
Qed.

(** X1.  A tool built from a record with a string [url] has a record
    with a string [url] after every run, and so [save] returns one
    whatever the block content is. *)
Theorem record_keeps_string_url {Node} (view : PluginArgs → Node)
    (rnd : string) (data : obj) (cfg : Config) (api0 : Api)
    (es : list Accessor.Task) (blockContent : Element) :
  SimpleImageData data →
  let s := Accessor.run view
             (Accessor.constructor view rnd data cfg api0 empty_world) es in
  SimpleImageData (Accessor._data s.1) ∧
  SimpleImageData (Accessor.save blockContent s.1).1.
Proof.
  intros Hd s.
  destruct (Accessor_constructor_world view rnd data cfg api0) as (Hj0 & _ & Hd0).
  assert (SimpleImageData (Accessor._data s.1)) as Hs.
  { subst s.
    generalize dependent (Accessor.constructor view rnd data cfg api0 empty_world).
    intros s0 Hj0 Hd0. rewrite <- Hd0 in Hd. clear Hd0.
    revert s0 Hj0 Hd. induction es as [|e es IH]; intros s0 Hj0 Hd; [done|].
    rewrite Accessor_run_cons. apply IH; [apply Accessor_step_jobs|].
    by apply Accessor_step_typed. }
  split; [done|].
  unfold Accessor.save. destruct (querySelector_img blockContent) as [img|]; simpl; [|done].
  rewrite Object_assign_url. exists (src img). apply lookup_insert_eq.
Qed.

Lemma record_keeps_string_url_witness :
  let view := λ _ : PluginArgs, 7 in
  let cfg := {| has_initialize := false; has_onpaste := false; entries := ∅ |} in
  let file := {| file_type := "image/png"; file_base64 := "iVBORw0KGgo=" |} in
  let s := Accessor.run view
             (Accessor.constructor view "k3f9" {[ "url" := VString "" ]}
                cfg {| getCurrentBlockIndex := 0 |} empty_world)
             [Accessor.DoPaste (PasteFile file); Accessor.ReaderLoad 0;
              Accessor.ImageLoad 0 4 3] in
  SimpleImageData (Accessor._data s.1).
Proof.
  intros view cfg file s.
  refine (proj1 (record_keeps_string_url view "k3f9" {[ "url" := VString "" ]} cfg
                   {| getCurrentBlockIndex := 0 |}
                   [Accessor.DoPaste (PasteFile file); Accessor.ReaderLoad 0;
                    Accessor.ImageLoad 0 4 3] (Elem "div" "" []) _)).
  exists "". reflexivity.
Defined.

(** ** Construction *)

(** X2.  The constructor of the accessor revision renders at once when
    the record has a nonempty url: [view] is invoked once, before the
    block index exists, with the one image element created for that url.
    With an empty or missing url nothing is created and nothing is
    invoked.  Either way the tool keeps a copy of the record. *)
Theorem constructor_renders_nonempty_url {Node} (view : PluginArgs → Node)
    (rnd : string) (data : obj) (cfg : Config) (api0 : Api) :
  let t := {| Accessor.id := rnd; Accessor.api := api0; Accessor.config := cfg;
              Accessor._data := data;
              Accessor.blockIndex := Some (getCurrentBlockIndex api0 + 1)%Z |} in
  (∀ u, data !! "url" = Some (VString u) → u ≠ "" →
     Accessor.constructor view rnd data cfg api0 empty_world =
       (t, {| images := [rendered_image u]; readers := []; jobs := [];
              calls := [CallView {| pluginId := rnd; pluginApi := api0;
                                    pluginBlockIndex := None; pluginData := data;
                                    pluginUserConfig := cfg; pluginImage := Some 0;
                                    pluginImagePromise := Some (ImagePromise 0) |}];
              console := [] |})) ∧
  (data !! "url" = None ∨ data !! "url" = Some (VString "") →
     Accessor.constructor view rnd data cfg api0 empty_world = (t, empty_world)).
Proof.
  intros t. unfold Accessor.constructor. rewrite Accessor_set_data_unfold.
  unfold Accessor.get_data. simpl. rewrite (right_id_L ∅ (∪) data). split.
  - intros u Hu Hne.
    assert (ToBoolean (prop data "url") = true) as Htrue
      by (by apply (ToBoolean_string _ u)).
    rewrite Htrue. unfold Accessor.render, Accessor.get_data. simpl.
    rewrite Htrue. simpl. unfold prop. rewrite Hu. reflexivity.
  - intros Hu.
    assert (ToBoolean (prop data "url") = false) as ->
      by (unfold prop; destruct Hu as [-> | ->]; reflexivity).
    reflexivity.
Qed.

(** ** [save] again *)

(** X3.  [save] is idempotent, and the url it stores stays: a later
    [save] on content without an [img] returns the record the earlier
    one stored.  Both revisions. *)
Theorem save_idempotent_and_persistent (b b' : Element)
    (t : Accessor.SimpleImage) (t0 : Callback.SimpleImage) :
  Accessor.save b (Accessor.save b t).2 = Accessor.save b t ∧
  Callback.save b (Callback.save b t0).2 = Callback.save b t0 ∧
  (no_img_descendant b' →
     Accessor.save b' (Accessor.save b t).2 = Accessor.save b t ∧
     Callback.save b' (Callback.save b t0).2 = Callback.save b t0).
Proof.
  split; [|split].
  - unfold Accessor.save. destruct (querySelector_img b) as [img|] eqn:E; simpl.
    + rewrite !Object_assign_url. unfold Accessor.get_data, Accessor.with_data. simpl.
      by rewrite insert_insert_eq.
    + done.
  - unfold Callback.save. destruct (querySelector_img b) as [img|] eqn:E; simpl.
    + rewrite !Object_assign_url. unfold Callback.with_data. simpl.
      by rewrite insert_insert_eq.
    + done.
  - intros Hno. apply querySelector_img_None in Hno.
    unfold Accessor.save, Callback.save. rewrite Hno.
    by destruct (querySelector_img b).
Qed.

Lemma save_idempotent_and_persistent_witness :
  let b := Elem "div" "" [Elem "img" "http://h/a.png" []] in
  let b' := Elem "div" "" [Elem "p" "" []] in
  let t := {| Accessor.id := "k3f9"; Accessor.api := {| getCurrentBlockIndex := 0 |};
              Accessor.config := {| has_initialize := false; has_onpaste := false;
                                    entries := ∅ |};
              Accessor._data := {[ "url" := VString "" ]};
              Accessor.blockIndex := Some 1%Z |} in
  (Accessor.save b' (Accessor.save b t).2).1 !! "url" = Some (VString "http://h/a.png").
Proof.
  intros b b' t.
  pose (t0 := {| Callback.id := "k3f9"; Callback.api := {| getCurrentBlockIndex := 0 |};
                 Callback.config := {| has_initialize := false; has_onpaste := false;
                                       entries := ∅ |};
                 Callback.data := {[ "url" := VString "" ]};
                 Callback.blockIndex := 1%Z |}).
  assert (no_img_descendant b') as Hno.
  { intros e He. apply list_elem_of_singleton in He as ->. reflexivity. }
  destruct (save_idempotent_and_persistent b b' t t0) as (_ & _ & H).
  destruct (H Hno) as [-> _]. reflexivity.
Defined.

(** ** Image load *)

Lemma Accessor_image_load_rendered i nw nh t w u :
  images w !! i = Some (rendered_image u) →
  (Accessor.image_load i nw nh t w).1
    = Accessor.with_data (<["naturalHeight" := VNumber nh]>
                            (<["naturalWidth" := VNumber nw]> (Accessor._data t))) t ∧
  images (Accessor.image_load i nw nh t w).2 !! i = Some (loaded_image i u nw nh) ∧
  (∀ j, j ≠ i → images (Accessor.image_load i nw nh t w).2 !! j = images w !! j) ∧
  length (images (Accessor.image_load i nw nh t w).2) = length (images w) ∧
  readers (Accessor.image_load i nw nh t w).2 = readers w ∧
  calls (Accessor.image_load i nw nh t w).2 = calls w ∧
  jobs (Accessor.image_load i nw nh t w).2 = jobs w.
Proof.
  intros Hi. pose proof (lookup_lt_Some _ _ _ Hi) as Hlt.
  unfold Accessor.image_load. rewrite Hi. simpl.
  unfold settle. simpl. rewrite list_lookup_insert_eq by done. simpl.
  repeat split.
  - rewrite list_lookup_alter_eq, list_lookup_insert_eq by done. done.
  - intros j Hj. by rewrite list_lookup_alter_ne, list_lookup_insert_ne.
  - by rewrite length_alter, length_insert.
  - by rewrite app_nil_r.
Qed.

(** X4.  The promise [render] hands to [view] is fulfilled by the
    element's [load] event, with that element.  The event writes the two
    natural sizes into the record and changes nothing else: no callback
    of the host is invoked, no element is created, and the element stays
    loaded with its promise fulfilled whatever comes later. *)
Theorem image_load_fulfils_promise {Node} (view : PluginArgs → Node)
    (t : Accessor.SimpleImage) (w : World) (u : string)
    (es : list Accessor.Task) (nw nh : Z) :
  Accessor.get_data t !! "url" = Some (VString u) → u ≠ "" → jobs w = [] →
  let image := length (images w) in
  Forall (λ e, ¬ on_image image e) es →
  let s2 := Accessor.run view (t, (Accessor.render view t w).2) es in
  let s3 := Accessor.step view s2 (Accessor.ImageLoad image nw nh) in
  lookup_promise (ImagePromise image) s3.2 = Some (fulfilled_with image) ∧
  images s3.2 !! image = Some (loaded_image image u nw nh) ∧
  s3.1 = Accessor.with_data (<["naturalHeight" := VNumber nh]>
                               (<["naturalWidth" := VNumber nw]> (Accessor._data s2.1))) s2.1 ∧
  calls s3.2 = calls s2.2 ∧ readers s3.2 = readers s2.2 ∧
  length (images s3.2) = length (images s2.2) ∧
  (∀ j, j ≠ image → images s3.2 !! j = images s2.2 !! j) ∧
  (∀ es', images (Accessor.run view s3 es').2 !! image
            = Some (loaded_image image u nw nh)).
Proof.
  intros Hu Hne Hjobs image Hes s2 s3.
  assert (ToBoolean (prop (Accessor.get_data t) "url") = true) as Htrue
    by (by apply (ToBoolean_string _ u)).
  assert ((Accessor.render view t w).2
          = log_call (CallView (render_args t (Some image)))
              (set_images (λ l, l ++ [rendered_image u]) w)) as Hw1.
  { rewrite (Accessor_render_truthy view t w Htrue). simpl.
    unfold prop. by rewrite Hu. }
  assert (images s2.2 !! image = Some (rendered_image u)) as Hi2.
  { subst s2. apply Accessor_run_image_frame; [|done].
    rewrite Hw1. simpl. by rewrite lookup_app_r, Nat.sub_diag. }
  assert (jobs s2.2 = []) as Hj2.
  { subst s2. apply Accessor_run_jobs_after. by rewrite Hw1. }
  destruct (Accessor_image_load_rendered image nw nh s2.1 s2.2 u Hi2)
    as (Ht & Hi & Hother & Hlen & Hr & Hc & Hj).
  assert (s3 = Accessor.image_load image nw nh s2.1 s2.2) as Hs3.
  { subst s3. unfold Accessor.step. simpl.
    destruct (Accessor.image_load image nw nh s2.1 s2.2) as [t' w'] eqn:E.
    simpl in Hj. apply Accessor_run_jobs_nil. by rewrite Hj. }
  rewrite Hs3. split; [by (simpl; rewrite Hi)|].
  repeat split; try done.
  intros es'. rewrite <- Hs3.
  apply Accessor_run_image_frame; [by rewrite Hs3 | done].
Qed.

Lemma image_load_fulfils_promise_witness :
  let t := {| Accessor.id := "k3f9"; Accessor.api := {| getCurrentBlockIndex := 0 |};
              Accessor.config := {| has_initialize := false; has_onpaste := false;
                                    entries := ∅ |};
              Accessor._data := {[ "url" := VString "http://h/a.png" ]};
              Accessor.blockIndex := Some 1%Z |} in
  let view := λ _ : PluginArgs, 7 in
  let s := Accessor.run view (t, (Accessor.render view t empty_world).2)
             [Accessor.DoRender; Accessor.ImageError 1] in
  lookup_promise (ImagePromise 0) (Accessor.step view s (Accessor.ImageLoad 0 640 480)).2
    = Some (fulfilled_with 0).
Proof.
  intros t view s.
  refine (proj1 (image_load_fulfils_promise view t empty_world "http://h/a.png"
       [Accessor.DoRender; Accessor.ImageError 1] 640 480 _ _ _ _)).
  - reflexivity.
  - discriminate.
  - reflexivity.
  - repeat constructor; simpl; auto.
Defined.

(** ** A pasted file *)

Lemma onDropHandler_then_world f w :
  let w' := then_ (onDropHandler f w).1 ThenPastedFile (onDropHandler f w).2 in
  readers w' = readers w ++ [pasted f] ∧ images w' = images w ∧
  calls w' = calls w ∧ jobs w' = jobs w ∧ console w' = console w.
Proof.
  unfold then_. simpl. rewrite lookup_app_r, Nat.sub_diag by done. simpl.
  repeat split.
  rewrite <- (Nat.add_0_r (length (readers w))). by rewrite alter_app_r.
Qed.

Lemma reader_load_pasted r w f :
  readers w !! r = Some (pasted f) →
  readers (reader_load r w) !! r = Some (read_done f) ∧
  images (reader_load r w) = images w ∧ calls (reader_load r w) = calls w ∧
  jobs (reader_load r w)
    = jobs w ++ [{| job_reaction := ThenPastedFile;
                    job_outcome :=
                      Fulfilled (SData {[ "url" := VString (readAsDataURL_result f) ]}) |}].
Proof.
  intros Hr. pose proof (lookup_lt_Some _ _ _ Hr) as Hlt.
  unfold reader_load. rewrite Hr. simpl.
  unfold settle. simpl. rewrite list_lookup_insert_eq by done. simpl.
  repeat split.
  by rewrite list_lookup_alter_eq, list_lookup_insert_eq.
Qed.

Lemma reader_error_pasted r w f :
  readers w !! r = Some (pasted f) →
  readers (reader_error r w) !! r = Some (with_fr_state Failed (pasted f)) ∧
  images (reader_error r w) = images w ∧ calls (reader_error r w) = calls w ∧
  jobs (reader_error r w) = jobs w.
Proof.
  intros Hr. pose proof (lookup_lt_Some _ _ _ Hr) as Hlt.
  unfold reader_error. rewrite Hr. simpl.
  by rewrite list_lookup_insert_eq.
Qed.

Lemma data_url_truthy (f : File) (d : obj) :
  ToBoolean (prop ({[ "url" := VString (readAsDataURL_result f) ]} ∪ d) "url") = true.
Proof.
  unfold prop. rewrite (lookup_union_Some_l _ _ _ _ (lookup_singleton_eq _ _)).
  reflexivity.
Qed.

Lemma Accessor_run_jobs_single {Node} (view : PluginArgs → Node) t w d :
  jobs w = [{| job_reaction := ThenPastedFile; job_outcome := Fulfilled (SData d) |}] →
  Accessor.run_jobs view t w = Accessor.set_data view d t (set_jobs (λ _, []) w).
Proof. intros H. unfold Accessor.run_jobs. by rewrite H. Qed.

(** X5.  A pasted file changes nothing at first: [onPaste] only starts
    the read.  When the reader's [load] event comes, the url of the
    record becomes the data URL of the file (the other fields stay), and
    the tool renders again: one more call of [view], with a new image
    element whose [src] is the data URL.  When the [error] event comes
    instead, the tool, the callbacks and the elements stay as they are,
    and the reader stays failed with the callback never run. *)
Theorem pasted_file_sets_url_on_load {Node} (view : PluginArgs → Node)
    (t : Accessor.SimpleImage) (w : World) (file : File)
    (es : list Accessor.Task) :
  jobs w = [] →
  let reader := length (readers w) in
  Forall (λ e, ¬ on_reader reader e) es →
  let s1 := Accessor.step view (t, w) (Accessor.DoPaste (PasteFile file)) in
  let s2 := Accessor.run view s1 es in
  let s3 := Accessor.step view s2 (Accessor.ReaderLoad reader) in
  let s3' := Accessor.step view s2 (Accessor.ReaderError reader) in
  (s1.1 = t ∧ images s1.2 = images w ∧ calls s1.2 = calls w ∧
   readers s1.2 = readers w ++ [pasted file]) ∧
  (Accessor._data s3.1
     = {[ "url" := VString (readAsDataURL_result file) ]} ∪ Accessor._data s2.1 ∧
   images s3.2 = images s2.2 ++ [rendered_image (readAsDataURL_result file)] ∧
   calls s3.2
     = calls s2.2 ++ [CallView (render_args s3.1 (Some (length (images s2.2))))]) ∧
  (s3'.1 = s2.1 ∧ images s3'.2 = images s2.2 ∧ calls s3'.2 = calls s2.2 ∧
   ∀ es', readers (Accessor.run view s3' es').2 !! reader
            = Some (with_fr_state Failed (pasted file))).
Proof.
  intros Hjobs reader Hes s1 s2 s3 s3'.
  destruct (onDropHandler_then_world file w) as (Hr1 & Hi1 & Hc1 & Hj1 & _).
  assert (s1 = (t, then_ (onDropHandler file w).1 ThenPastedFile (onDropHandler file w).2))
    as Hs1.
  { subst s1. unfold Accessor.step.
    change (Accessor.dispatch view (Accessor.DoPaste (PasteFile file)) (t, w).1 (t, w).2)
      with (Accessor.onPaste view (PasteFile file) t w).
    rewrite Accessor_onPaste_file. apply Accessor_run_jobs_nil. by rewrite Hj1. }
  assert (readers s2.2 !! reader = Some (pasted file)) as Hr2.
  { subst s2. apply Accessor_run_reader_frame; [|done].
    rewrite Hs1. cbn [snd]. rewrite Hr1. by rewrite lookup_app_r, Nat.sub_diag. }
  assert (jobs s2.2 = []) as Hj2.
  { subst s2. apply Accessor_run_jobs_after. rewrite Hs1. cbn [snd]. by rewrite Hj1. }
  split; [by rewrite Hs1|]. split.
  - destruct (reader_load_pasted reader s2.2 file Hr2) as (_ & Hi & Hc & Hj).
    rewrite Hj2 in Hj. simpl in Hj.
    subst s3. unfold Accessor.step. cbn [Accessor.dispatch].
    rewrite (Accessor_run_jobs_single view _ _ _ Hj).
    rewrite Accessor_set_data_unfold. cbn zeta.
    unfold Accessor.get_data. rewrite data_url_truthy.
    rewrite Accessor_render_truthy
      by (unfold Accessor.get_data; apply data_url_truthy).
    unfold Accessor.get_data. cbn [fst snd Accessor._data Accessor.with_data].
    unfold prop. rewrite (lookup_union_Some_l _ _ _ _ (lookup_singleton_eq _ _)).
    cbn [ToString]. simpl images. simpl calls. rewrite Hi, Hc. done.
  - destruct (reader_error_pasted reader s2.2 file Hr2) as (Hr & Hi & Hc & Hj).
    assert (s3' = (s2.1, reader_error reader s2.2)) as Hs3.
    { subst s3'. unfold Accessor.step. simpl.
      apply Accessor_run_jobs_nil. by rewrite Hj. }
    rewrite Hs3. repeat split; try done.
    intros es'. by apply Accessor_run_reader_frame.
Qed.

Lemma pasted_file_sets_url_on_load_witness :
  let t := {| Accessor.id := "k3f9"; Accessor.api := {| getCurrentBlockIndex := 0 |};
              Accessor.config := {| has_initialize := false; has_onpaste := false;
                                    entries := ∅ |};
              Accessor._data := {[ "url" := VString "http://h/a.png";
                                   "naturalWidth" := VNumber 4 ]};
              Accessor.blockIndex := Some 1%Z |} in
  let view := λ _ : PluginArgs, 7 in
  let file := {| file_type := "image/png"; file_base64 := "iVBORw0KGgo=" |} in
  let s := Accessor.run view
             (Accessor.step view (t, empty_world) (Accessor.DoPaste (PasteFile file)))
             [Accessor.DoRender] in
  Accessor._data (Accessor.step view s (Accessor.ReaderLoad 0)).1
    = {[ "url" := VString "data:image/png;base64,iVBORw0KGgo=";
         "naturalWidth" := VNumber 4 ]}.
Proof.
  intros t view file s.
  destruct (pasted_file_sets_url_on_load view t empty_world file [Accessor.DoRender])
    as (_ & (Hd & _) & _).
  - reflexivity.
  - repeat constructor; simpl; auto.
  - etrans; [exact Hd|]. vm_compute. reflexivity.
Defined.

(** ** Image elements and calls of [view] *)

Lemma created_images_srcs w w' :
  img_src <$> images w' = img_src <$> images w → created_images w' = created_images w.
Proof.
  intros H. unfold created_images.
  change (λ (i : nat) (im : Image), (i, img_src im))
    with (λ n : nat, (λ u : string, (n, u)) ∘ img_src).
  by rewrite <- !(imap_fmap (λ (n : nat) (u : string), (n, u)) img_src), H.
Qed.

Lemma settle_srcs p s w : img_src <$> images (settle p s w) = img_src <$> images w.
Proof.
  unfold settle. destruct (lookup_promise p w) as [[[] rs]|]; try done.
  destruct p as [i|r]; simpl; [|done].
  rewrite (list_fmap_alter img_src _ id); [by apply list_alter_id|].
  by apply Forall_forall.
Qed.

Lemma insert_state_srcs (l : list Image) i im s :
  l !! i = Some im → img_src <$> <[i := with_img_state s im]> l = img_src <$> l.
Proof.
  intros H. rewrite list_fmap_insert. apply list_insert_id.
  by rewrite list_lookup_fmap, H.
Qed.

Lemma image_error_srcs i w :
  img_src <$> images (image_error i w) = img_src <$> images w ∧
  calls (image_error i w) = calls w.
Proof.
  unfold image_error.
  destruct (images w !! i) as [im|] eqn:Hi; [|done].
  destruct (img_state im); try done.
  destruct (img_onerror im) as [[]|]; simpl.
  - rewrite settle_srcs, settle_calls. simpl. by rewrite insert_state_srcs.
  - by rewrite insert_state_srcs.
Qed.

Lemma Accessor_image_load_srcs i nw nh t w :
  img_src <$> images (Accessor.image_load i nw nh t w).2 = img_src <$> images w ∧
  calls (Accessor.image_load i nw nh t w).2 = calls w.
Proof.
  unfold Accessor.image_load.
  destruct (images w !! i) as [im|] eqn:Hi; [|done].
  destruct (img_state im); try done.
  destruct (img_onload im) as [[]|]; simpl.
  - rewrite settle_srcs, settle_calls. simpl. by rewrite insert_state_srcs.
  - by rewrite insert_state_srcs.
Qed.

Lemma Accessor_render_created {Node} (view : PluginArgs → Node) t w :
  created_images w = omap handed_image (calls w) →
  created_images (Accessor.render view t w).2
    = omap handed_image (calls (Accessor.render view t w).2).
Proof.
  intros H. unfold Accessor.render, created_images in *.
  destruct (ToBoolean _); simpl; rewrite omap_app; simpl.
  - rewrite imap_app, H. simpl. by rewrite Nat.add_0_r.
  - by rewrite app_nil_r.
Qed.

Lemma Accessor_set_data_created {Node} (view : PluginArgs → Node) d t w :
  created_images w = omap handed_image (calls w) →
  created_images (Accessor.set_data view d t w).2
    = omap handed_image (calls (Accessor.set_data view d t w).2).
Proof.
  intros H. unfold Accessor.set_data. destruct (ToBoolean _); simpl; [|done].
  by apply Accessor_render_created.
Qed.

Lemma Accessor_step_created {Node} (view : PluginArgs → Node) s e :
  created_images s.2 = omap handed_image (calls s.2) →
  created_images (Accessor.step view s e).2
    = omap handed_image (calls (Accessor.step view s e).2).
Proof.
  intros H. unfold Accessor.step.
  assert (created_images (Accessor.dispatch view e s.1 s.2).2
          = omap handed_image (calls (Accessor.dispatch view e s.1 s.2).2)) as Hd.
  { destruct e as [|b|ev|f|i nw nh|j|r|r];
      [simpl|simpl|unfold Accessor.dispatch|simpl..]; try done.
    - by apply Accessor_render_created.
    - destruct ev as [img|text|file|ty]; try done.
      + by apply Accessor_set_data_created.
      + by apply Accessor_set_data_created.
      + rewrite Accessor_onPaste_file. cbn [snd].
        destruct (onDropHandler_then_world file s.2) as (_ & Hi & Hc & _).
        rewrite Hc, <- H. apply created_images_srcs. by rewrite Hi.
    - destruct (Accessor_image_load_srcs i nw nh s.1 s.2) as [Hs Hc].
      rewrite Hc, <- H. by apply created_images_srcs.
    - destruct (image_error_srcs j s.2) as [Hs Hc].
      rewrite Hc, <- H. by apply created_images_srcs.
    - rewrite reader_load_calls, <- H. apply created_images_srcs.
      by rewrite reader_load_images.
    - rewrite reader_error_calls, <- H. apply created_images_srcs.
      by rewrite reader_error_images. }
  destruct (Accessor.dispatch view e s.1 s.2) as [t' w']. simpl in Hd.
  apply (Accessor_run_jobs_ind view
           (λ s, created_images s.2 = omap handed_image (calls s.2)) (λ _, True)).
  - done.
  - intros j t'' w'' _ H''. simpl in H''. unfold Accessor.run_job.
    destruct (job_reaction j), (job_outcome j) as [|[]|]; simpl; try done.
    by apply Accessor_set_data_created.
  - by apply Forall_forall.
Qed.

(** X6.  After every run of the accessor revision, the image elements
    that exist are exactly those handed to [view], in the order of the
    calls, and the [src] of each is the url its call of [view] saw in
    the record: the tool creates no element it does not hand over, and a
    call without an element creates none. *)
Theorem images_are_those_handed_to_view {Node} (view : PluginArgs → Node)
    (rnd : string) (data : obj) (cfg : Config) (api0 : Api)
    (es : list Accessor.Task) :
  let s := Accessor.run view
             (Accessor.constructor view rnd data cfg api0 empty_world) es in
  created_images s.2 = omap handed_image (calls s.2).
Proof.
  intros s. subst s.
  assert (created_images (Accessor.constructor view rnd data cfg api0 empty_world).2
          = omap handed_image
              (calls (Accessor.constructor view rnd data cfg api0 empty_world).2)) as H0.
  { unfold Accessor.constructor.
    pose proof (Accessor_set_data_created view data
      {| Accessor.id := rnd; Accessor.api := api0; Accessor.config := cfg;
         Accessor._data := ∅; Accessor.blockIndex := None |} empty_world eq_refl) as H.
    by destruct (Accessor.set_data view data _ empty_world). }
  generalize dependent (Accessor.constructor view rnd data cfg api0 empty_world).
  induction es as [|e es IH]; intros s0 H0; [done|].
  rewrite Accessor_run_cons. by apply IH, Accessor_step_created.
Qed.

(** * Further properties of the callback revision *)

Lemma settle_console p s w : console (settle p s w) = console w.
Proof.
  unfold settle. destruct (lookup_promise p w) as [[[] rs]|]; try done.
  by destruct p.
Qed.

Lemma reader_load_console r w : console (reader_load r w) = console w.
Proof.
  unfold reader_load.
  destruct (readers w !! r) as [fr|]; [|done].
  destruct (fr_state fr); try done.
  destruct (fr_onload fr) as [[]|]; [|done].
  by rewrite settle_console.
Qed.

Lemma reader_error_console r w : console (reader_error r w) = console w.
Proof.
  unfold reader_error.
  destruct (readers w !! r) as [fr|]; [|done].
  destruct (fr_state fr); try done.
  destruct (fr_onerror fr) as [[]|]; [|done].
  by rewrite settle_console.
Qed.

Lemma Callback_run_jobs_world t w :
  (Callback.run_jobs t w).2 = set_jobs (λ _, []) w.
Proof.
  unfold Callback.run_jobs.
  change (set_jobs (λ _ : list Job, []) w)
    with (t, set_jobs (λ _ : list Job, []) w).2 at 2.
  generalize (t, set_jobs (λ _ : list Job, []) w).
  induction (jobs w) as [|j js IH]; intros s; simpl; [done|].
  rewrite IH. by rewrite Callback_run_job_world.
Qed.

Lemma Callback_onPaste_file f t w :
  Callback.onPaste (PasteFile f) t w =
    (Callback.Normal (),
     (t, then_ (onDropHandler f w).1 ThenPastedFile (onDropHandler f w).2)).
Proof. reflexivity. Qed.

Lemma Callback_step_world {Node} (view : PluginArgs → Node) s e :
  images (Callback.step view s e).2 = images s.2 ∧
  calls (Callback.step view s e).2 = calls s.2 ∧
  console (Callback.step view s e).2
    = console s.2 ++ (if decide (is_render e) then [ReferenceError "makeImage"] else []).
Proof.
  unfold Callback.step.
  assert (images (Callback.dispatch view e s.1 s.2).2 = images s.2 ∧
          calls (Callback.dispatch view e s.1 s.2).2 = calls s.2 ∧
          console (Callback.dispatch view e s.1 s.2).2
            = console s.2 ++ (if decide (is_render e) then [ReferenceError "makeImage"]
                              else [])) as (Hi & Hc & Hl).
  { destruct e as [|b|ev|f|r|r];
      [simpl|simpl|unfold Callback.dispatch|simpl..];
      rewrite ?app_nil_r; try done.
    - destruct ev as [img|text|file|ty]; cbn [decide is_render_dec is_render];
        rewrite ?app_nil_r.
      + simpl. by rewrite Callback_onpaste_result.
      + simpl. by rewrite Callback_onpaste_result.
      + rewrite Callback_onPaste_file. cbn [snd].
        by destruct (onDropHandler_then_world file s.2) as (_ & -> & -> & _ & ->).
      + done.
    - by rewrite reader_load_images, reader_load_calls, reader_load_console.
    - by rewrite reader_error_images, reader_error_calls, reader_error_console. }
  destruct (Callback.dispatch view e s.1 s.2) as [t' w']. simpl in *.
  by rewrite Callback_run_jobs_world.
Qed.

(** X7.  The callback revision never renders.  Every call of [render]
    returns [undefined] and prints one [ReferenceError]; after any run
    no image element exists, and the callbacks invoked are those of the
    constructor: [view] and [onpaste] are never reached. *)
Theorem callback_revision_never_renders {Node} (view : PluginArgs → Node)
    (rnd : string) (data : obj) (cfg : Config) (api0 : Api)
    (es : list Callback.Task) :
  let s0 := Callback.constructor rnd data cfg api0 empty_world in
  let s := Callback.run view s0 es in
  (Callback.render view s.1 s.2).1 = None ∧
  images s.2 = [] ∧
  calls s.2 = calls s0.2 ∧
  Forall (λ c, is_initialize c) (calls s.2) ∧
  console s.2 = replicate (length (filter is_render es)) (ReferenceError "makeImage").
Proof.
  intros s0 s.
  assert (images s0.2 = [] ∧ console s0.2 = [] ∧ Forall (λ c, is_initialize c) (calls s0.2))
    as (Hi0 & Hl0 & Hc0).
  { subst s0. unfold Callback.constructor.
    destruct (has_initialize cfg); simpl; repeat split; repeat constructor. }
  assert (images s.2 = images s0.2 ∧ calls s.2 = calls s0.2 ∧
          console s.2 = console s0.2 ++
            replicate (length (filter is_render es)) (ReferenceError "makeImage"))
    as (Hi & Hc & Hl).
  { subst s. clear Hi0 Hl0 Hc0. generalize s0. clear s0.
    induction es as [|e es IH]; intros s0.
    - simpl. by rewrite app_nil_r.
    - simpl. destruct (IH (Callback.step view s0 e)) as (-> & -> & ->).
      destruct (Callback_step_world view s0 e) as (-> & -> & ->).
      repeat split. rewrite filter_cons, <- app_assoc.
      by destruct (decide (is_render e)). }
  split; [done|]. rewrite Hi, Hc, Hl, Hi0, Hl0. done.
Qed.

Lemma Callback_run_images {Node} (view : PluginArgs → Node) es s :
  images (Callback.run view s es).2 = images s.2.
Proof.
  revert s. induction es as [|e es IH]; intros s; [done|].
  simpl. rewrite IH. by destruct (Callback_step_world view s e) as (-> & _).
Qed.

Lemma Callback_constructor_calls rnd data cfg api0 :
  images (Callback.constructor rnd data cfg api0 empty_world).2 = [] ∧
  Forall (λ c, ¬ is_view c) (calls (Callback.constructor rnd data cfg api0 empty_world).2).
Proof.
  unfold Callback.constructor.
  destruct (has_initialize cfg); simpl; split; try done; repeat constructor; auto.
Qed.

(** C5.  In the callback revision [render] does not return what
    [config.view] returns.  Its [try] block evaluates the name
    [makeImage], which nothing binds (the method is [this.makeImage]);
    the [ReferenceError] is caught and printed, and the method falls off
    its end.  So after every run from the constructor, for a record with
    a url as for one without, a call of [render] returns [undefined],
    invokes no callback of the host and prints that error; [view] has
    not been invoked at all. *)
Theorem callback_render_returns_undefined {Node} (view : PluginArgs → Node)
    (rnd : string) (data : obj) (cfg : Config) (api0 : Api)
    (es : list Callback.Task) :
  let s := Callback.run view (Callback.constructor rnd data cfg api0 empty_world) es in
  let r := Callback.render view s.1 s.2 in
  r.1 = None ∧
  (∀ a, r.1 ≠ Some (view a)) ∧
  calls r.2 = calls s.2 ∧
  Forall (λ c, ¬ is_view c) (calls r.2) ∧
  console r.2 = console s.2 ++ [ReferenceError "makeImage"].
Proof.
  intros s r. subst r. unfold Callback.render. simpl.
  repeat split; try done.
  subst s. rewrite Callback_run_calls.
  apply Callback_constructor_calls.
Qed.

(** C3.  In the callback revision rendering a record with a nonempty
    url creates no image element and hands no promise to the host: the
    [try] block of [render] stops at the unbound name [makeImage], ahead
    of [document.createElement] and of [config.view].  After every run
    from the constructor and a further call of [render], whatever the
    record, no image element exists, so no element can fire [error]; no
    image promise exists, so none is rejected; and [view] has received
    nothing. *)
Theorem callback_render_creates_no_image {Node} (view : PluginArgs → Node)
    (rnd : string) (data : obj) (cfg : Config) (api0 : Api)
    (es : list Callback.Task) :
  let s := Callback.run view (Callback.constructor rnd data cfg api0 empty_world) es in
  let r := Callback.render view s.1 s.2 in
  images r.2 = [] ∧
  (∀ i, lookup_promise (ImagePromise i) r.2 = None) ∧
  Forall (λ c, ¬ is_view c) (calls r.2) ∧
  r.1 = None.
Proof.
  intros s r.
  assert (images r.2 = []) as Hi.
  { subst r s. unfold Callback.render. simpl. rewrite Callback_run_images.
    apply Callback_constructor_calls. }
  split; [done|]. split; [|split; [|done]].
  - intros i. unfold lookup_promise. by rewrite Hi.
  - subst r s. unfold Callback.render. simpl. rewrite Callback_run_calls.
    apply Callback_constructor_calls.
Qed.

Lemma Callback_dispatch_reader_frame {Node} (view : PluginArgs → Node) e t w r fr :
  readers w !! r = Some fr → (fr_state fr = Reading → ¬ on_reader_cb r e) →
  readers (Callback.dispatch view e t w).2 !! r = Some fr.
Proof.
  intros Hr Hne. destruct e as [|b|ev|f|r'|r'];
    [simpl|simpl|unfold Callback.dispatch|simpl..]; try done.
  - destruct ev as [img|text|file|ty]; try done.
    + simpl. by rewrite Callback_onpaste_result.
    + simpl. by rewrite Callback_onpaste_result.
    + rewrite Callback_onPaste_file. cbn [snd].
      by apply (onDropHandler_then_frame file ThenPastedFile w).
  - by apply lookup_app_l_Some.
  - by apply reader_load_frame.
  - by apply reader_error_frame.
Qed.

Lemma Callback_step_reader_frame {Node} (view : PluginArgs → Node) e s r fr :
  readers s.2 !! r = Some fr → (fr_state fr = Reading → ¬ on_reader_cb r e) →
  readers (Callback.step view s e).2 !! r = Some fr.
Proof.
  intros Hr Hne. unfold Callback.step.
  pose proof (Callback_dispatch_reader_frame view e s.1 s.2 r fr Hr Hne) as H.
  destruct (Callback.dispatch view e s.1 s.2) as [t' w']. simpl in H.
  by rewrite Callback_run_jobs_world.
Qed.

Lemma Callback_run_reader_frame {Node} (view : PluginArgs → Node) es s r fr :
  readers s.2 !! r = Some fr →
  (fr_state fr = Reading → Forall (λ e, ¬ on_reader_cb r e) es) →
  readers (Callback.run view s es).2 !! r = Some fr.
Proof.
  revert s. induction es as [|e es IH]; intros s Hr Hne; [done|].
  simpl. apply IH.
  - apply Callback_step_reader_frame; [done|].
    intros Hl. specialize (Hne Hl). by inversion Hne.
  - intros Hl. specialize (Hne Hl). by inversion Hne.
Qed.

Lemma Callback_step_jobs {Node} (view : PluginArgs → Node) s e :
  jobs (Callback.step view s e).2 = [].
Proof.
  unfold Callback.step. destruct (Callback.dispatch view e s.1 s.2) as [t' w'].
  by rewrite Callback_run_jobs_world.
Qed.

Lemma Callback_run_jobs_after {Node} (view : PluginArgs → Node) es s :
  jobs s.2 = [] → jobs (Callback.run view s es).2 = [].
Proof.
  revert s. induction es as [|e es IH]; intros s Hs; [done|].
  simpl. apply IH. apply Callback_step_jobs.
Qed.

(** X8.  In the callback revision an assignment to [data] replaces the
    record.  Once a pasted file has been read, the record is exactly
    [{url}] with the data URL of the file: whatever other fields it had
    are gone.  No callback of the host is invoked and no element is
    created, with or without an [onpaste] callback. *)
Theorem callback_paste_replaces_record {Node} (view : PluginArgs → Node)
    (t : Callback.SimpleImage) (w : World) (file : File)
    (es : list Callback.Task) :
  jobs w = [] →
  let reader := length (readers w) in
  Forall (λ e, ¬ on_reader_cb reader e) es →
  let s1 := Callback.step view (t, w) (Callback.DoPaste (PasteFile file)) in
  let s2 := Callback.run view s1 es in
  let s3 := Callback.step view s2 (Callback.ReaderLoad reader) in
  s1.1 = t ∧
  Callback.data s3.1 = {[ "url" := VString (readAsDataURL_result file) ]} ∧
  calls s3.2 = calls w ∧ images s3.2 = images w.
Proof.
  intros Hjobs reader Hes s1 s2 s3.
  destruct (onDropHandler_then_world file w) as (Hr1 & Hi1 & Hc1 & Hj1 & _).
  assert (s1 = (t, set_jobs (λ _, [])
                     (then_ (onDropHandler file w).1 ThenPastedFile (onDropHandler file w).2)))
    as Hs1.
  { subst s1. unfold Callback.step.
    change (Callback.dispatch view (Callback.DoPaste (PasteFile file)) (t, w).1 (t, w).2)
      with (Callback.onPaste (PasteFile file) t w).2.
    rewrite Callback_onPaste_file. cbn [snd].
    unfold Callback.run_jobs. by rewrite Hj1, Hjobs. }
  assert (readers s2.2 !! reader = Some (pasted file)) as Hr2.
  { subst s2. apply Callback_run_reader_frame; [|done].
    rewrite Hs1. cbn [snd readers set_jobs]. rewrite Hr1.
    by rewrite lookup_app_r, Nat.sub_diag. }
  assert (jobs s2.2 = []) as Hj2.
  { subst s2. apply Callback_run_jobs_after. by rewrite Hs1. }
  split; [by rewrite Hs1|]. split.
  - destruct (reader_load_pasted reader s2.2 file Hr2) as (_ & _ & _ & Hj).
    rewrite Hj2 in Hj. simpl in Hj.
    subst s3. unfold Callback.step. cbn [Callback.dispatch].
    unfold Callback.run_jobs. rewrite Hj. reflexivity.
  - assert (calls s3.2 = calls s1.2 ∧ images s3.2 = images s1.2) as [-> ->].
    { subst s3. destruct (Callback_step_world view s2 (Callback.ReaderLoad reader))
        as (-> & -> & _).
      subst s2. clear. generalize s1. induction es as [|e es IH]; intros s; [done|].
      simpl. destruct (IH (Callback.step view s e)) as [-> ->].
      by destruct (Callback_step_world view s e) as (-> & -> & _). }
    rewrite Hs1. cbn [snd calls images set_jobs]. by rewrite Hc1, Hi1.
Qed.

Lemma callback_paste_replaces_record_witness :
  let t := {| Callback.id := "k3f9"; Callback.api := {| getCurrentBlockIndex := 0 |};
              Callback.config := {| has_initialize := false; has_onpaste := true;
                                    entries := ∅ |};
              Callback.data := {[ "url" := VString "http://h/a.png";
                                  "caption" := VString "a cat" ]};
              Callback.blockIndex := 1%Z |} in
  let view := λ _ : PluginArgs, 7 in
  let file := {| file_type := "image/png"; file_base64 := "iVBORw0KGgo=" |} in
  let s := Callback.run view
             (Callback.step view (t, empty_world) (Callback.DoPaste (PasteFile file)))
             [Callback.DoRender] in
  Callback.data (Callback.step view s (Callback.ReaderLoad 0)).1 !! "caption" = None.
Proof.
  intros t view file s.
  destruct (callback_paste_replaces_record view t empty_world file [Callback.DoRender])
    as (_ & Hd & _).
  - reflexivity.
  - repeat constructor; simpl; auto.
  - etrans; [exact (f_equal (λ d : obj, d !! "caption") Hd)|]. reflexivity.
Defined.

(** * Further properties of the bundle *)

(** X9.  In the bundle the constructor assigns [data] through the
    setter before it sets the block index and before it calls
    [initialize].  For a record with a nonempty url the first callback
    invoked is therefore [view], with an [undefined] block index and the
    first image element, and [initialize] comes second; for an empty or
    missing url [initialize] is the only call.  [initialize] gets the
    block index and the stored record either way. *)
Theorem bundle_constructor_renders_before_initialize {Node} (view : PluginArgs → Node)
    (rnd : string) (data : obj) (cfg : Config) (api0 : Api) :
  has_initialize cfg = true →
  let s := Bundle.constructor view rnd data cfg api0 empty_world in
  let viewed image promise :=
    {| pluginId := rnd; pluginApi := api0; pluginBlockIndex := None;
       pluginData := data; pluginUserConfig := cfg;
       pluginImage := image; pluginImagePromise := promise |} in
  let initialized :=
    {| pluginId := rnd; pluginApi := api0;
       pluginBlockIndex := Some (getCurrentBlockIndex api0 + 1)%Z;
       pluginData := data; pluginUserConfig := cfg;
       pluginImage := None; pluginImagePromise := None |} in
  Bundle._data s.1 = data ∧
  Bundle.blockIndex s.1 = Some (getCurrentBlockIndex api0 + 1)%Z ∧
  (∀ u, data !! "url" = Some (VString u) → u ≠ "" →
     calls s.2 = [CallView (viewed (Some 0) (Some (ImagePromise 0)));
                  CallInitialize initialized] ∧
     images s.2 = [rendered_image u]) ∧
  (data !! "url" = None ∨ data !! "url" = Some (VString "") →
     calls s.2 = [CallInitialize initialized] ∧ images s.2 = []).
Proof.
  intros Hinit s viewed initialized. subst s.
  unfold Bundle.constructor. rewrite Bundle_set_data_unfold.
  unfold Bundle.get_data. simpl. rewrite (right_id_L ∅ (∪) data), Hinit.
  destruct (ToBoolean (prop data "url")) eqn:E; simpl.
  - split; [done|]. split; [done|]. split.
    + intros u Hu Hne. unfold Bundle.render, Bundle.get_data. simpl.
      rewrite E. simpl. unfold prop. rewrite Hu. done.
    + intros Hu. exfalso. unfold prop in E.
      destruct Hu as [Hu|Hu]; rewrite Hu in E; discriminate.
  - split; [done|]. split; [done|]. split.
    + intros u Hu Hne. exfalso.
      pose proof (proj2 (ToBoolean_string data u Hu) Hne). congruence.
    + done.
Qed.

Lemma bundle_constructor_renders_before_initialize_witness :
  let view := λ _ : PluginArgs, 7 in
  let cfg := {| has_initialize := true; has_onpaste := false; entries := ∅ |} in
  head (calls (Bundle.constructor view "k3f9" {[ "url" := VString "http://h/a.png" ]}
                 cfg {| getCurrentBlockIndex := 4 |} empty_world).2)
    = Some (CallView {| pluginId := "k3f9"; pluginApi := {| getCurrentBlockIndex := 4 |};
                        pluginBlockIndex := None;
                        pluginData := {[ "url" := VString "http://h/a.png" ]};
                        pluginUserConfig := cfg; pluginImage := Some 0;
                        pluginImagePromise := Some (ImagePromise 0) |}).
Proof.
  intros view cfg.
  destruct (bundle_constructor_renders_before_initialize view "k3f9"
              {[ "url" := VString "http://h/a.png" ]} cfg
              {| getCurrentBlockIndex := 4 |} eq_refl) as (_ & _ & H & _).
  destruct (H "http://h/a.png") as [Hc _]; [reflexivity | discriminate |].
  etrans; [exact (f_equal head Hc)|]. reflexivity.
Defined.

(** X10.  In the bundle a pasted tag or pattern first assigns the
    [{url}] record through the setter, which renders when the url is
    nonempty, and then invokes [onpaste] when the host supplied it: the
    calls are [view] (for a nonempty url) followed by [onpaste].  The
    argument of [onpaste] carries the block index and the merged record,
    and neither the image element nor its promise. *)
Theorem bundle_paste_renders_then_calls_onpaste {Node} (view : PluginArgs → Node)
    (b : Bundle.SimpleImage) (w : World) (u : string) :
  let b' := Bundle.with_data ({[ "url" := VString u ]} ∪ Bundle._data b) b in
  let rendered :=
    if String.eqb u "" then []
    else [CallView (bundle_render_args b' (Some (length (images w))))] in
  let pasted_call :=
    if has_onpaste (Bundle.config b) then [CallOnpaste (Bundle.context b' None None)]
    else [] in
  (∀ img, src img = u →
     (Bundle.onPaste view (PasteTag img) b w).1 = b' ∧
     calls (Bundle.onPaste view (PasteTag img) b w).2 = calls w ++ rendered ++ pasted_call) ∧
  (Bundle.onPaste view (PastePattern u) b w).1 = b' ∧
  calls (Bundle.onPaste view (PastePattern u) b w).2 = calls w ++ rendered ++ pasted_call.
Proof.
  intros b' rendered pasted_call.
  assert (let s := Bundle.set_data view {[ "url" := VString u ]} b w in
          s.1 = b' ∧ calls (Bundle.onpaste s.1 s.2) = calls w ++ rendered ++ pasted_call)
    as Hset.
  { rewrite Bundle_set_data_unfold. cbn zeta. unfold Bundle.get_data. fold b'.
    assert (prop ({[ "url" := VString u ]} ∪ Bundle._data b) "url" = VString u) as Hp
      by (unfold prop; by rewrite (lookup_union_Some_l _ _ _ _ (lookup_singleton_eq _ _))).
    rewrite Hp. simpl ToBoolean. subst rendered pasted_call.
    unfold Bundle.onpaste.
    destruct (String.eqb u "") eqn:E; simpl.
    - split; [done|]. by destruct (has_onpaste (Bundle.config b)); simpl;
        rewrite ?app_nil_r.
    - split; [done|].
      assert (ToBoolean (prop (Bundle.get_data b') "url") = true) as Ht
        by (unfold Bundle.get_data; subst b'; simpl; rewrite Hp; simpl; by rewrite E).
      rewrite (Bundle_render_truthy view b' w Ht).
      destruct (has_onpaste (Bundle.config b)); simpl; rewrite <- ?app_assoc; done. }
  cbn zeta in Hset. destruct Hset as [H1 H2].
  split; [intros img <-|]; simpl;
    destruct (Bundle.set_data view _ b w) as [b1 w1]; simpl in *; by subst.
Qed.

(** * Properties of the distributed bundle *)

Lemma Dist_makeImage_truthy t g w :
  ToBoolean (prop (Dist.data t) "url") = true →
  Dist.makeImage t g w =
    ((Some (length (images w)), Some (ImagePromise (length (images w)))),
     globals_of (length (images w)),
     set_images (λ l, l ++ [rendered_image (ToString (prop (Dist.data t) "url"))]) w).
Proof. intros H. unfold Dist.makeImage. by rewrite H. Qed.

Lemma Dist_makeImage_falsy t g w :
  ToBoolean (prop (Dist.data t) "url") = false →
  Dist.makeImage t g w = ((None, None), g, w).
Proof. intros H. unfold Dist.makeImage. by rewrite H. Qed.

(** X11.  In the distributed bundle [render] returns what [view]
    returns on the plugin context, block index included.  With a
    nonempty url the context carries a new image element for that url
    and its promise, and the global [image] names that element from then
    on; with an empty or missing url both are [undefined] and neither
    the globals nor the elements change. *)
Theorem dist_render_returns_view_result {Node} (view : PluginArgs → Node)
    (t : Dist.SimpleImage) (g : Dist.Globals) (w : World) :
  (∀ u, Dist.data t !! "url" = Some (VString u) → u ≠ "" →
     let i := length (images w) in
     let a := Dist.context t (Some i) (Some (ImagePromise i)) in
     Dist.render view t g w
       = (view a, globals_of i,
          log_call (CallView a) (set_images (λ l, l ++ [rendered_image u]) w))) ∧
  (Dist.data t !! "url" = None ∨ Dist.data t !! "url" = Some (VString "") →
     let a := Dist.context t None None in
     Dist.render view t g w = (view a, g, log_call (CallView a) w)) ∧
  (∀ im p, pluginBlockIndex (Dist.context t im p) = Some (Dist.blockIndex t) ∧
           pluginData (Dist.context t im p) = Dist.data t).
Proof.
  split; [|split; [|done]].
  - intros u Hu Hne i a. unfold Dist.render.
    rewrite Dist_makeImage_truthy by (by apply (ToBoolean_string _ u)).
    unfold prop. rewrite Hu. done.
  - intros Hu a. unfold Dist.render.
    rewrite Dist_makeImage_falsy
      by (unfold prop; destruct Hu as [-> | ->]; reflexivity).
    done.
Qed.

(** X12.  In the distributed bundle a pasted tag or pattern replaces
    the record by exactly [{url}] and never renders: [view] is not
    invoked.  With an [onpaste] callback, that callback is invoked once,
    with a new image element for the pasted url and its promise (with
    neither when the url is empty); without one nothing else happens. *)
Theorem dist_paste_calls_onpaste_only (s : Dist.Page) (u : string) :
  let t' := Dist.with_data {[ "url" := VString u ]} (Dist.tool s) in
  let i := length (images (Dist.world s)) in
  let expected :=
    if has_onpaste (Dist.config (Dist.tool s)) then
      if String.eqb u "" then
        {| Dist.tool := t'; Dist.globals := Dist.globals s;
           Dist.world := log_call (CallOnpaste (Dist.context t' None None)) (Dist.world s) |}
      else
        {| Dist.tool := t'; Dist.globals := globals_of i;
           Dist.world :=
             log_call (CallOnpaste (Dist.context t' (Some i) (Some (ImagePromise i))))
               (set_images (λ l, l ++ [rendered_image u]) (Dist.world s)) |}
    else {| Dist.tool := t'; Dist.globals := Dist.globals s; Dist.world := Dist.world s |} in
  Dist.onPaste (PastePattern u) s = expected ∧
  (∀ img, src img = u → Dist.onPaste (PasteTag img) s = expected).
Proof.
  intros t' i expected.
  assert (Dist.onPaste (PastePattern u) s = expected) as H.
  { subst expected. unfold Dist.onPaste, Dist.onpaste. fold t'.
    change (Dist.config t') with (Dist.config (Dist.tool s)).
    destruct (has_onpaste (Dist.config (Dist.tool s))); [|done].
    destruct (String.eqb u "") eqn:E.
    - rewrite Dist_makeImage_falsy; [done|].
      unfold prop. subst t'. simpl. rewrite lookup_singleton_eq. simpl. by rewrite E.
    - rewrite Dist_makeImage_truthy.
      + unfold prop. subst t'. simpl. by rewrite lookup_singleton_eq.
      + unfold prop. subst t'. simpl. rewrite lookup_singleton_eq. simpl. by rewrite E. }
  split; [done|]. intros img <-. exact H.
Qed.

(** ** The global [image] *)

Lemma last_image_length w w' :
  length (images w') = length (images w) → last_image w' = last_image w.
Proof.
  unfold last_image. destruct (images w), (images w'); simpl; try done.
  intros [= ->]. done.
Qed.

Lemma last_image_Some w i im :
  images w !! i = Some im → last_image w = Some (length (images w) - 1).
Proof.
  unfold last_image. destruct (images w) as [|x l]; [done|]. simpl.
  intros _. by rewrite Nat.sub_0_r.
Qed.

Lemma rendered_image_ok u : image_ok (rendered_image u).
Proof. by repeat split. Qed.

Lemma Dist_makeImage_invariant t g w :
  g.(Dist.image) = last_image w → Forall image_ok (images w) →
  (Dist.makeImage t g w).1.2.(Dist.image) = last_image (Dist.makeImage t g w).2 ∧
  Forall image_ok (images (Dist.makeImage t g w).2) ∧
  jobs (Dist.makeImage t g w).2 = jobs w ∧
  readers (Dist.makeImage t g w).2 = readers w.
Proof.
  intros Hg Hok. unfold Dist.makeImage. destruct (ToBoolean _); simpl; [|done].
  repeat split.
  - unfold last_image. simpl. destruct (images w); simpl; [done|].
    by rewrite length_app, Nat.add_1_r.
  - apply Forall_app. split; [done|]. repeat constructor; done.
Qed.

Lemma Dist_onpaste_invariant t g w :
  g.(Dist.image) = last_image w → Forall image_ok (images w) →
  (Dist.onpaste t g w).1.(Dist.image) = last_image (Dist.onpaste t g w).2 ∧
  Forall image_ok (images (Dist.onpaste t g w).2) ∧
  jobs (Dist.onpaste t g w).2 = jobs w.
Proof.
  intros Hg Hok. unfold Dist.onpaste. destruct (has_onpaste _); [|done].
  destruct (Dist_makeImage_invariant t g w Hg Hok) as (H1 & H2 & H3 & _).
  destruct (Dist.makeImage t g w) as [[[im p] g1] w1]. done.
Qed.

Lemma settle_image_ok i s w :
  (∀ im, images w !! i = Some im → img_state im ≠ Loading) →
  Forall image_ok (images w) →
  Forall image_ok (images (settle (ImagePromise i) s w)).
Proof.
  intros Hi H. unfold settle.
  destruct (lookup_promise (ImagePromise i) w) as [[[] rs]|]; try done. simpl.
  apply Forall_alter; [done|]. intros im Him [Hh _]. split; [done|].
  intros Hl. by destruct (Hi im Him).
Qed.

Lemma insert_state_ok (l : list Image) i im s :
  s ≠ Loading → l !! i = Some im → Forall image_ok l →
  Forall image_ok (<[i := with_img_state s im]> l) ∧
  (∀ im', <[i := with_img_state s im]> l !! i = Some im' → img_state im' ≠ Loading).
Proof.
  intros Hs Hi H. pose proof (lookup_lt_Some _ _ _ Hi) as Hlt. split.
  - apply Forall_insert; [done|].
    assert (image_ok im) as [Hh _]
      by (eapply Forall_forall; [exact H | by eapply list_elem_of_lookup_2]).
    split; [done|]. done.
  - intros im'. rewrite list_lookup_insert_eq by done. by intros [= <-].
Qed.

Lemma image_error_invariant i w :
  Forall image_ok (images w) →
  Forall image_ok (images (image_error i w)) ∧
  length (images (image_error i w)) = length (images w) ∧
  jobs (image_error i w) = jobs w.
Proof.
  intros H. unfold image_error.
  destruct (images w !! i) as [im|] eqn:Hi; [|done].
  assert (image_ok im) as [Hh Hp]
    by (eapply Forall_forall; [exact H | by eapply list_elem_of_lookup_2]).
  pose proof (lookup_lt_Some _ _ _ Hi) as Hlt.
  destruct (img_state im) eqn:Hs; try done.
  destruct (insert_state_ok (images w) i im Broken) as [Hok Hnl]; [done..|].
  destruct (img_onerror im) as [[]|]; simpl.
  - split; [by apply settle_image_ok|].
    destruct (settle_length (ImagePromise i) (Rejected (SErrorEvent i))
                (set_images (<[i := with_img_state Broken im]>) w)) as [-> _].
    simpl. rewrite length_insert. split; [done|].
    unfold settle. simpl. rewrite list_lookup_insert_eq by done. simpl.
    rewrite (Hp eq_refl). simpl. by rewrite app_nil_r.
  - by rewrite length_insert.
Qed.

Lemma Dist_run_jobs_ind (P : Dist.Page → Prop) s :
  P {| Dist.tool := Dist.tool s; Dist.globals := Dist.globals s;
       Dist.world := set_jobs (λ _, []) (Dist.world s) |} →
  (∀ j s', P s' → P (Dist.run_job j s')) →
  P (Dist.run_jobs s).
Proof.
  intros H0 Hstep. unfold Dist.run_jobs.
  generalize dependent {| Dist.tool := Dist.tool s; Dist.globals := Dist.globals s;
                          Dist.world := set_jobs (λ _ : list Job, []) (Dist.world s) |}.
  induction (jobs (Dist.world s)) as [|j js IH]; intros s0 Hs0; simpl; [done|].
  by apply IH, Hstep.
Qed.

Lemma Dist_run_jobs_nil s : jobs (Dist.world s) = [] → Dist.run_jobs s = s.
Proof.
  intros H. unfold Dist.run_jobs. rewrite H. simpl.
  destruct s as [t g w]. simpl in *. f_equal. destruct w; simpl in *; by subst.
Qed.

Lemma Dist_run_jobs_invariant s :
  dist_invariant s →
  dist_invariant (Dist.run_jobs s) ∧ jobs (Dist.world (Dist.run_jobs s)) = [].
Proof.
  intros [Hg Hok].
  apply (Dist_run_jobs_ind (λ s, dist_invariant s ∧ jobs (Dist.world s) = [])).
  - split; [|done]. split; simpl; [|done].
    rewrite Hg. by apply last_image_length.
  - intros j s' [[Hg' Hok'] Hj']. unfold Dist.run_job.
    destruct (job_reaction j), (job_outcome j) as [|[i|d|i]|]; try done.
    destruct (Dist_onpaste_invariant (Dist.with_data d (Dist.tool s'))
                (Dist.globals s') (Dist.world s') Hg' Hok') as (H1 & H2 & H3).
    destruct (Dist.onpaste _ _ _) as [g1 w1]. simpl in *.
    split; [done|]. congruence.
Qed.

Lemma Dist_image_load_invariant i nw nh s :
  dist_invariant s →
  dist_invariant (Dist.image_load i nw nh s) ∧
  jobs (Dist.world (Dist.image_load i nw nh s)) = jobs (Dist.world s).
Proof.
  intros [Hg Hok]. unfold Dist.image_load.
  destruct (images (Dist.world s) !! i) as [im|] eqn:Hi; [|done].
  assert (image_ok im) as [Hh Hp]
    by (eapply Forall_forall; [exact Hok | by eapply list_elem_of_lookup_2]).
  pose proof (lookup_lt_Some _ _ _ Hi) as Hlt.
  destruct (img_state im) eqn:Hs; try done.
  destruct (insert_state_ok (images (Dist.world s)) i im (Loaded nw nh))
    as [Hok1 Hnl]; [done..|].
  set (w1 := set_images (<[i := with_img_state (Loaded nw nh) im]>) (Dist.world s)).
  assert (last_image w1 = last_image (Dist.world s)) as Hlast
    by (apply last_image_length; simpl; by rewrite length_insert).
  assert (dist_invariant {| Dist.tool := Dist.tool s; Dist.globals := Dist.globals s;
                            Dist.world := w1 |}) as Hinv1
    by (split; simpl; [by rewrite Hg | done]).
  destruct (img_onload im) as [[]|]; [|done].
  destruct (Dist.image (Dist.globals s)) as [k|] eqn:Hk; [|done].
  destruct (images w1 !! k) as [imk|] eqn:Himk; [|done].
  destruct (Dist.natural_size imk) as [kw kh]. simpl.
  split; [split; simpl|].
  - rewrite Hk, Hg, <- Hlast. symmetry.
    apply last_image_length. by destruct (settle_length (ImagePromise i)
      (Fulfilled (SImage k)) w1) as [-> _].
  - by apply settle_image_ok.
  - unfold settle. simpl. rewrite list_lookup_insert_eq by done. simpl.
    rewrite (Hp eq_refl). simpl. by rewrite app_nil_r.
Qed.

Lemma Dist_dispatch_invariant {Node} (view : PluginArgs → Node) e s :
  dist_invariant s → dist_invariant (Dist.dispatch view e s).
Proof.
  intros [Hg Hok]. destruct e as [|b|ev|f|i nw nh|j|r|r];
    [unfold Dist.dispatch..].
  - unfold Dist.render.
    destruct (Dist_makeImage_invariant (Dist.tool s) (Dist.globals s) (Dist.world s)
                Hg Hok) as (H1 & H2 & _).
    destruct (Dist.makeImage _ _ _) as [[[im p] g1] w1]. by split.
  - by split.
  - destruct ev as [img|text|file|ty]; unfold Dist.onPaste.
    + destruct (Dist_onpaste_invariant
                  (Dist.with_data {[ "url" := VString (src img) ]} (Dist.tool s))
                  (Dist.globals s) (Dist.world s) Hg Hok) as (H1 & H2 & _).
      destruct (Dist.onpaste _ _ _) as [g1 w1]. by split.
    + destruct (Dist_onpaste_invariant
                  (Dist.with_data {[ "url" := VString text ]} (Dist.tool s))
                  (Dist.globals s) (Dist.world s) Hg Hok) as (H1 & H2 & _).
      destruct (Dist.onpaste _ _ _) as [g1 w1]. by split.
    + change (let '(p, w1) := onDropHandler file (Dist.world s) in
              {| Dist.tool := Dist.tool s; Dist.globals := Dist.globals s;
                 Dist.world := then_ p ThenPastedFile w1 |})
        with {| Dist.tool := Dist.tool s; Dist.globals := Dist.globals s;
                Dist.world := then_ (onDropHandler file (Dist.world s)).1 ThenPastedFile
                                (onDropHandler file (Dist.world s)).2 |}.
      destruct (onDropHandler_then_world file (Dist.world s)) as (_ & Hi & _).
      split; cbn [Dist.world Dist.globals]; [|by rewrite Hi].
      rewrite Hg. symmetry. apply last_image_length. by rewrite Hi.
    + by split.
  - by split.
  - by apply Dist_image_load_invariant.
  - destruct (image_error_invariant j (Dist.world s) Hok) as (H1 & H2 & _).
    split; simpl; [|done]. rewrite Hg. symmetry. by apply last_image_length.
  - split; simpl; [|by rewrite reader_load_images].
    rewrite Hg. symmetry. apply last_image_length. by rewrite reader_load_images.
  - split; simpl; [|by rewrite reader_error_images].
    rewrite Hg. symmetry. apply last_image_length. by rewrite reader_error_images.
Qed.

Lemma Dist_run_invariant {Node} (view : PluginArgs → Node) es s :
  dist_invariant s → jobs (Dist.world s) = [] →
  dist_invariant (Dist.run view s es) ∧ jobs (Dist.world (Dist.run view s es)) = [].
Proof.
  revert s. induction es as [|e es IH]; intros s H Hj; [done|].
  simpl. unfold Dist.step at 2.
  destruct (Dist_run_jobs_invariant (Dist.dispatch view e s)) as [H1 H2];
    [by apply Dist_dispatch_invariant|].
  by apply IH.
Qed.

Lemma dist_start_invariant rnd data cfg api0 :
  dist_invariant (dist_start rnd data cfg api0) ∧
  jobs (Dist.world (dist_start rnd data cfg api0)) = [].
Proof.
  unfold dist_start, Dist.constructor.
  destruct (has_initialize cfg); simpl; repeat split; constructor.
Qed.

(** X13.  In the distributed bundle the [onload] closure of every image
    element reads the global [image], and after any run that global
    names the element created last.  So when an element loads, its
    promise is fulfilled with the newest element, and the sizes written
    into the record are the natural sizes of the newest element: those
    of the element that loaded only if it is the newest, otherwise those
    of another element, zero by zero while that one is still loading. *)
Theorem dist_load_records_newest_element {Node} (view : PluginArgs → Node)
    (rnd : string) (data : obj) (cfg : Config) (api0 : Api)
    (es : list Dist.Task) (i : nat) (im : Image) (nw nh : Z) :
  let s := Dist.run view (dist_start rnd data cfg api0) es in
  images (Dist.world s) !! i = Some im → img_state im = Loading →
  let s' := Dist.step view s (Dist.ImageLoad i nw nh) in
  let k := length (images (Dist.world s)) - 1 in
  Dist.image (Dist.globals s) = Some k ∧
  lookup_promise (ImagePromise i) (Dist.world s') = Some (fulfilled_with k) ∧
  (i = k → sizes_are (Dist.data (Dist.tool s')) nw nh) ∧
  (∀ imk, i ≠ k → images (Dist.world s) !! k = Some imk →
     sizes_are (Dist.data (Dist.tool s')) (Dist.natural_size imk).1 (Dist.natural_size imk).2 ∧
     (img_state imk = Loading → sizes_are (Dist.data (Dist.tool s')) 0 0)).
Proof.
  intros s Hi Hs s' k.
  destruct (dist_start_invariant rnd data cfg api0) as [H0 Hj0].
  destruct (Dist_run_invariant view es _ H0 Hj0) as [[Hg Hok] Hj]. fold s in Hg, Hok, Hj.
  assert (image_ok im) as [[Hload _] Hp]
    by (eapply Forall_forall; [exact Hok | by eapply list_elem_of_lookup_2]).
  pose proof (lookup_lt_Some _ _ _ Hi) as Hlt.
  assert (Dist.image (Dist.globals s) = Some k) as Hk
    by (rewrite Hg; by apply (last_image_Some _ i im)).
  assert (k < length (images (Dist.world s))) as Hklt by (subst k; lia).
  set (w1 := set_images (<[i := with_img_state (Loaded nw nh) im]>) (Dist.world s)).
  assert (∃ imk, images w1 !! k = Some imk ∧
            (i = k → Dist.natural_size imk = (nw, nh)) ∧
            (i ≠ k → images (Dist.world s) !! k = Some imk)) as (imk & Himk & Hsame & Hother).
  { destruct (decide (i = k)) as [<-|Hne].
    - eexists. split; [by apply list_lookup_insert_eq|]. split; [done|]. done.
    - destruct (lookup_lt_is_Some_2 _ _ Hklt) as [imk Himk].
      exists imk. subst w1. simpl. rewrite list_lookup_insert_ne by done. done. }
  assert (s' = {| Dist.tool :=
                    Dist.with_data (<["naturalHeight" := VNumber (Dist.natural_size imk).2]>
                      (<["naturalWidth" := VNumber (Dist.natural_size imk).1]>
                         (Dist.data (Dist.tool s)))) (Dist.tool s);
                  Dist.globals := Dist.globals s;
                  Dist.world := settle (ImagePromise i) (Fulfilled (SImage k)) w1 |}) as Hs'.
  { subst s'. unfold Dist.step. cbn [Dist.dispatch]. unfold Dist.image_load.
    rewrite Hi, Hs, Hload, Hk. fold w1. rewrite Himk.
    destruct (Dist.natural_size imk) as [kw kh]. apply Dist_run_jobs_nil. simpl.
    unfold settle. simpl. rewrite list_lookup_insert_eq by done. simpl.
    rewrite (Hp Hs). simpl. by rewrite app_nil_r. }
  assert (sizes_are (Dist.data (Dist.tool s')) (Dist.natural_size imk).1
            (Dist.natural_size imk).2) as Hsizes.
  { rewrite Hs'. simpl. split.
    - rewrite lookup_insert_ne by done. apply lookup_insert_eq.
    - apply lookup_insert_eq. }
  split; [done|]. split; [|split].
  - rewrite Hs'. simpl. unfold settle. simpl.
    rewrite list_lookup_insert_eq by done. simpl. rewrite (Hp Hs). simpl.
    by rewrite list_lookup_alter_eq, list_lookup_insert_eq.
  - intros Heq. by rewrite (Hsame Heq) in Hsizes.
  - intros imk' Hne Himk'. rewrite (Hother Hne) in Himk'. injection Himk' as <-.
    split; [done|]. intros Hl. unfold Dist.natural_size in Hsizes.
    by rewrite Hl in Hsizes.
Qed.

Lemma dist_load_records_newest_element_witness :
  let view := λ _ : PluginArgs, 7 in
  let cfg := {| has_initialize := false; has_onpaste := true; entries := ∅ |} in
  let s := Dist.run view
             (dist_start "k3f9" {[ "url" := VString "http://h/a.png" ]} cfg
                {| getCurrentBlockIndex := 0 |})
             [Dist.DoRender; Dist.DoPaste (PastePattern "http://h/b.png")] in
  sizes_are (Dist.data (Dist.tool (Dist.step view s (Dist.ImageLoad 0 640 480)))) 0 0.
Proof.
  intros view cfg s.
  destruct (dist_load_records_newest_element view "k3f9"
              {[ "url" := VString "http://h/a.png" ]} cfg {| getCurrentBlockIndex := 0 |}
              [Dist.DoRender; Dist.DoPaste (PastePattern "http://h/b.png")]
              0 (rendered_image "http://h/a.png") 640 480)
    as (_ & _ & _ & H); [reflexivity | reflexivity |].
  refine (proj2 (H (rendered_image "http://h/b.png") _ _) _).
  - vm_compute. discriminate.
  - reflexivity.
  - reflexivity.
Defined.

(** * Properties of the paste pattern *)

(** ** The search and the relation agree *)

Lemma accepts_Many a k s :
  accepts (Many a) k s = true ↔
  ∃ s1 s2, s = s1 ++ s2 ∧ matches (Many a) s1 s2 ∧ k s2 = true.
Proof.
  simpl. induction s as [|c s IH].
  - split; [done|]. intros (s1 & s2 & Hs & [Hne _] & _).
    destruct s1; [done | discriminate].
  - rewrite andb_true_iff, orb_true_iff, IH. split.
    + intros [Hc [Hk|(s1 & s2 & -> & [Hne Hall] & Hk)]].
      * exists [c], s. repeat split; [done | by repeat constructor | done].
      * exists (c :: s1), s2. repeat split; [done | by constructor | done].
    + intros (s1 & s2 & Hs & [Hne Hall] & Hk).
      destruct s1 as [|c' s1]; [done|]. injection Hs as <- ->.
      inversion Hall as [|? ? Hc Hall']; subst. split; [done|].
      destruct s1 as [|c'' s1]; [by left|]. right.
      exists (c'' :: s1), s2. by repeat split.
Qed.

Lemma accepts_spec r : ∀ k s,
  accepts r k s = true ↔ ∃ s1 s2, s = s1 ++ s2 ∧ matches r s1 s2 ∧ k s2 = true.
Proof.
  induction r as [|a|a|r IH|r1 IH1 r2 IH2|r1 IH1 r2 IH2|]; intros k s.
  - simpl. split.
    + intros Hk. by exists [], s.
    + by intros (s1 & s2 & -> & -> & Hk).
  - simpl. destruct s as [|c s].
    + split; [done|]. intros (s1 & s2 & Hs & (c & -> & _) & _). discriminate.
    + rewrite andb_true_iff. split.
      * intros [Hc Hk]. exists [c], s. repeat split; [|done]. by exists c.
      * intros (s1 & s2 & Hs & (c' & -> & Hc) & Hk). by injection Hs as <- <-.
  - apply accepts_Many.
  - simpl. rewrite orb_true_iff, IH. split.
    + intros [(s1 & s2 & -> & Hm & Hk)|Hk].
      * exists s1, s2. repeat split; [by right | done].
      * exists [], s. repeat split; [by left | done].
    + intros (s1 & s2 & -> & [->|Hm] & Hk); [by right|].
      left. by exists s1, s2.
  - simpl. rewrite IH1. split.
    + intros (s1 & s' & -> & Hm1 & Hk). apply IH2 in Hk as (s2 & s3 & -> & Hm2 & Hk).
      exists (s1 ++ s2), s3. rewrite <- app_assoc. repeat split; [|done].
      by exists s1, s2.
    + intros (s12 & s3 & -> & (s1 & s2 & -> & Hm1 & Hm2) & Hk).
      exists s1, (s2 ++ s3). rewrite <- app_assoc. repeat split; [done|].
      apply IH2. by exists s2, s3.
  - simpl. rewrite orb_true_iff, IH1, IH2. split.
    + intros [(s1 & s2 & -> & Hm & Hk)|(s1 & s2 & -> & Hm & Hk)];
        exists s1, s2; repeat split; auto.
    + intros (s1 & s2 & -> & [Hm|Hm] & Hk); [left|right]; by exists s1, s2.
  - simpl. destruct s as [|c s].
    + split; [intros Hk; by exists [], [] | by intros (s1 & s2 & Hs & [-> ->] & Hk)].
    + split; [done|]. intros (s1 & s2 & Hs & [-> ->] & _). discriminate.
Qed.

Lemma test_found r text : test r text = true ↔ found r text.
Proof.
  unfold found. induction text as [|c text IH]; simpl.
  - rewrite orb_false_r, accepts_spec. split.
    + intros (s1 & s2 & Hs & Hm & _). by exists [], s1, s2.
    + intros (pre & s & rest & Hs & Hm).
      symmetry in Hs. apply app_eq_nil in Hs as [-> Hs].
      by exists s, rest.
  - rewrite orb_true_iff, accepts_spec, IH. split.
    + intros [(s1 & s2 & Hs & Hm & _)|(pre & s & rest & -> & Hm)].
      * by exists [], s1, s2.
      * by exists (c :: pre), s, rest.
    + intros (pre & s & rest & Hs & Hm). destruct pre as [|c' pre].
      * left. by exists s, rest.
      * right. injection Hs as <- ->. by exists pre, s, rest.
Qed.

(** ** Words *)

Lemma units_app w1 w2 : units (w1 +:+ w2) = units w1 ++ units w2.
Proof.
  unfold units. induction w1 as [|c w1 IH]; [done|].
  change (String c w1 +:+ w2) with (String c (w1 +:+ w2)).
  cbn [String.list_ascii_of_string]. by rewrite !fmap_cons, IH.
Qed.

Lemma spells_nil s : spells s "" ↔ s = [].
Proof.
  unfold spells. simpl. split; [apply fmap_nil_inv | by intros ->].
Qed.

Lemma spells_app s1 s2 w1 w2 :
  spells s1 w1 → spells s2 w2 → spells (s1 ++ s2) (w1 +:+ w2).
Proof.
  unfold spells. intros H1 H2. by rewrite units_app, !fmap_app, H1, H2.
Qed.

Lemma spells_app_inv s w1 w2 :
  spells s (w1 +:+ w2) → ∃ s1 s2, s = s1 ++ s2 ∧ spells s1 w1 ∧ spells s2 w2.
Proof.
  unfold spells. rewrite units_app, fmap_app. intros H.
  apply fmap_app_inv in H as (s1 & s2 & H1 & H2 & ->). by exists s1, s2.
Qed.

Lemma matches_chr c s rest : matches (chr c) s rest ↔ spells s (String c "").
Proof.
  unfold chr, spells. simpl. split.
  - intros (x & -> & Hx). apply bool_decide_eq_true in Hx. simpl. by rewrite Hx.
  - intros H. destruct s as [|x [|y s]]; simpl in H; try discriminate.
    injection H as H. exists x. split; [done|]. by apply bool_decide_eq_true.
Qed.

Lemma matches_str w s rest : matches (str w) s rest ↔ spells s w.
Proof.
  revert s. induction w as [|c w IH]; intros s.
  - unfold str. simpl. by rewrite spells_nil.
  - change (str (String c w)) with (Seq (chr c) (str w)). cbn [matches]. split.
    + intros (s1 & s2 & -> & H1 & H2). apply matches_chr in H1. apply IH in H2.
      by apply (spells_app s1 s2 (String c "") w).
    + intros H. apply (spells_app_inv s (String c "") w) in H as (s1 & s2 & -> & H1 & H2).
      exists s1, s2. split; [done|]. split; [by apply matches_chr | by apply IH].
Qed.

Lemma Canonicalize_63 x : Canonicalize x = Canonicalize 63 ↔ x = 63%N.
Proof.
  unfold Canonicalize. simpl.
  destruct (97 <=? x)%N eqn:E1; destruct (x <=? 122)%N eqn:E2; simpl;
    try done.
  apply N.leb_le in E1. split; lia.
Qed.

Lemma spells_question s : spells s "?" ↔ s = [63%N].
Proof.
  unfold spells. change (Canonicalize <$> units "?") with [63%N]. split.
  - intros H. destruct s as [|x [|y s]]; try discriminate.
    injection H as H. f_equal. apply Canonicalize_63. exact H.
  - intros ->. reflexivity.
Qed.

Lemma NotChr_63 c : atom_ok (NotChr 63) c = true ↔ c ≠ 63%N.
Proof.
  simpl. rewrite negb_true_iff, bool_decide_eq_false. by rewrite Canonicalize_63.
Qed.

(** ** The shape of a match *)

Lemma matches_scheme r s rest :
  matches (Seq (str "http") (Seq (Opt (chr "s")) (Seq (str "://") r))) s rest ↔
  ∃ scheme s', s = scheme ++ s' ∧
    (spells scheme "http://" ∨ spells scheme "https://") ∧ matches r s' rest.
Proof.
  cbn [matches]. split.
  - intros (s1 & r1 & -> & H1 & s2 & r2 & -> & H2 & s3 & r3 & -> & H3 & Hr).
    apply matches_str in H1, H3.
    exists (s1 ++ s2 ++ s3), r3. rewrite <- !app_assoc. split; [done|]. split; [|done].
    destruct H2 as [->|H2].
    + left. by apply (spells_app s1 s3 "http" "://").
    + right. apply matches_chr in H2.
      apply (spells_app s1 (s2 ++ s3) "http" "s://"); [done|].
      by apply (spells_app s2 s3 "s" "://").
  - intros (scheme & s' & -> & [H|H] & Hr).
    + apply (spells_app_inv scheme "http" "://") in H as (s1 & s3 & -> & H1 & H3).
      exists s1, (s3 ++ s'). rewrite <- app_assoc. split; [done|].
      split; [by apply matches_str|]. exists [], (s3 ++ s'). split; [done|].
      split; [by left|]. exists s3, s'. split; [done|].
      split; [by apply matches_str | done].
    + apply (spells_app_inv scheme "http" "s://") in H as (s1 & s23 & -> & H1 & H23).
      apply (spells_app_inv s23 "s" "://") in H23 as (s2 & s3 & -> & H2 & H3).
      exists s1, (s2 ++ s3 ++ s'). rewrite <- !app_assoc. split; [done|].
      split; [by apply matches_str|]. exists s2, (s3 ++ s'). split; [done|].
      split; [right; by apply matches_chr|]. exists s3, s'. split; [done|].
      split; [by apply matches_str | done].
Qed.

Lemma matches_extension r s rest :
  matches (Seq (chr ".")
            (Seq (Alt (str "gif")
                 (Alt (Seq (str "jp") (Seq (Opt (chr "e")) (chr "g")))
                 (Alt (str "tiff") (str "png")))) r)) s rest ↔
  ∃ ext s', s = ext ++ s' ∧
    (spells ext ".gif" ∨ spells ext ".jpg" ∨ spells ext ".jpeg" ∨
     spells ext ".tiff" ∨ spells ext ".png") ∧ matches r s' rest.
Proof.
  cbn [matches]. split.
  - intros (d & r1 & -> & Hd & e & r2 & -> & He & Hr).
    apply matches_chr in Hd.
    exists (d ++ e), r2. rewrite <- app_assoc. split; [done|]. split; [|done].
    destruct He as [He|[(j & r3 & -> & Hj & o & g & -> & Ho & Hg)|[He|He]]].
    + apply matches_str in He. left. by apply (spells_app d e "." "gif").
    + apply matches_str in Hj. apply matches_chr in Hg. destruct Ho as [->|Ho].
      * right. left. apply (spells_app d (j ++ g) "." "jpg"); [done|].
        by apply (spells_app j g "jp" "g").
      * apply matches_chr in Ho. right. right. left.
        apply (spells_app d (j ++ o ++ g) "." "jpeg"); [done|].
        apply (spells_app j (o ++ g) "jp" "eg"); [done|].
        by apply (spells_app o g "e" "g").
    + apply matches_str in He. right. right. right. left.
      by apply (spells_app d e "." "tiff").
    + apply matches_str in He. right. right. right. right.
      by apply (spells_app d e "." "png").
  - intros (ext & s' & -> & Hext & Hr).
    destruct Hext as [H|[H|[H|[H|H]]]].
    + apply (spells_app_inv ext "." "gif") in H as (d & e & -> & Hd & He).
      exists d, (e ++ s'). rewrite <- app_assoc. split; [done|].
      split; [by apply matches_chr|]. exists e, s'. split; [done|]. split; [|done].
      left. by apply matches_str.
    + apply (spells_app_inv ext "." "jpg") in H as (d & e & -> & Hd & He).
      apply (spells_app_inv e "jp" "g") in He as (j & g & -> & Hj & Hg).
      exists d, ((j ++ g) ++ s'). rewrite <- !app_assoc. split; [done|].
      split; [by apply matches_chr|]. exists (j ++ g), s'.
      rewrite <- !app_assoc. split; [done|]. split; [|done].
      right. left. exists j, g. split; [done|]. split; [by apply matches_str|].
      exists [], g. split; [done|]. split; [by left | by apply matches_chr].
    + apply (spells_app_inv ext "." "jpeg") in H as (d & e & -> & Hd & He).
      apply (spells_app_inv e "jp" "eg") in He as (j & og & -> & Hj & Hog).
      apply (spells_app_inv og "e" "g") in Hog as (o & g & -> & Ho & Hg).
      exists d, ((j ++ o ++ g) ++ s'). rewrite <- !app_assoc. split; [done|].
      split; [by apply matches_chr|]. exists (j ++ o ++ g), s'.
      rewrite <- !app_assoc. split; [done|]. split; [|done].
      right. left. exists j, (o ++ g). split; [done|]. split; [by apply matches_str|].
      exists o, g. split; [done|]. split; [right|]; by apply matches_chr.
    + apply (spells_app_inv ext "." "tiff") in H as (d & e & -> & Hd & He).
      exists d, (e ++ s'). rewrite <- app_assoc. split; [done|].
      split; [by apply matches_chr|]. exists e, s'. split; [done|]. split; [|done].
      right. right. left. by apply matches_str.
    + apply (spells_app_inv ext "." "png") in H as (d & e & -> & Hd & He).
      exists d, (e ++ s'). rewrite <- app_assoc. split; [done|].
      split; [by apply matches_chr|]. exists e, s'. split; [done|]. split; [|done].
      right. right. right. by apply matches_str.
Qed.

Lemma matches_tail q rest :
  matches (Alt (Seq (chr "?") (Many (NotChr 63))) Eos) q rest →
  q ++ rest = [] ∨ ∃ c tail', q ++ rest = 63%N :: c :: tail' ∧ c ≠ 63%N.
Proof.
  cbn [matches]. intros [(q1 & q2 & -> & H1 & Hne & Hall)|[-> ->]]; [|by left].
  right. apply matches_chr, spells_question in H1 as ->.
  destruct q2 as [|c q2]; [done|]. inversion Hall as [|? ? Hc _]; subst.
  exists c, (q2 ++ rest). split; [done|]. by apply NotChr_63.
Qed.

Lemma matches_tail_inv tail :
  tail = [] ∨ (∃ c tail', tail = 63%N :: c :: tail' ∧ c ≠ 63%N) →
  ∃ q rest, tail = q ++ rest ∧
            matches (Alt (Seq (chr "?") (Many (NotChr 63))) Eos) q rest.
Proof.
  cbn [matches]. intros [->|(c & tail' & -> & Hc)].
  - exists [], []. split; [done|]. by right.
  - exists [63%N; c], tail'. split; [done|]. left.
    exists [63%N], [c]. split; [done|].
    split; [by apply matches_chr, spells_question|].
    split; [done|]. repeat constructor. by apply NotChr_63.
Qed.

Lemma matches_Seq r1 r2 s rest :
  matches (Seq r1 r2) s rest ↔
  ∃ s1 s2, s = s1 ++ s2 ∧ matches r1 s1 (s2 ++ rest) ∧ matches r2 s2 rest.
Proof. done. Qed.

(** X14.  The image pattern of [pasteConfig] accepts a text exactly
    when the text contains, in any letter case, [http://] or [https://],
    then one or more code units that are not white space, then one of
    [.gif], [.jpg], [.jpeg], [.tiff], [.png], and right after it either
    ends or goes on with a question mark and a code unit that is not a
    question mark.  What precedes the scheme is free. *)
Theorem image_pattern_accepts_image_urls (text : list N) :
  test image_pattern text = true ↔ image_url_shape text.
Proof.
  rewrite test_found. unfold found, image_url_shape, image_pattern. split.
  - intros (pre & s & rest & -> & Hm).
    apply matches_scheme in Hm as (scheme & s1 & -> & Hscheme & Hm).
    apply matches_Seq in Hm as (body & s2 & -> & Hb & Hm).
    cbn [matches] in Hb. destruct Hb as [Hne Hbody].
    apply matches_extension in Hm as (ext & q & -> & Hext & Hm).
    apply matches_tail in Hm.
    exists pre, scheme, body, ext, (q ++ rest). rewrite <- !app_assoc.
    split; [done|]. split; [done|]. split; [done|]. split; [|done].
    eapply Forall_impl; [exact Hbody|]. intros c Hc. simpl in Hc.
    by apply negb_true_iff in Hc.
  - intros (pre & scheme & body & ext & tail & -> & Hscheme & Hne & Hbody & Hext & Htail).
    apply matches_tail_inv in Htail as (q & rest & -> & Hq).
    exists pre, (scheme ++ body ++ ext ++ q), rest. rewrite <- !app_assoc.
    split; [done|]. apply matches_scheme.
    exists scheme, (body ++ ext ++ q). split; [done|]. split; [done|].
    apply matches_Seq. exists body, (ext ++ q). split; [done|]. split.
    + cbn [matches]. split; [done|]. eapply Forall_impl; [exact Hbody|].
      intros c Hc. simpl. by rewrite Hc.
    + apply (matches_extension _ (ext ++ q) rest). by exists ext, q.
Qed.

(** ** Letter case *)

Lemma is_space_not_letter c : is_space c = true → (c < 65 ∨ 122 < c)%N.
Proof.
  unfold is_space. rewrite orb_true_iff, bool_decide_eq_true, andb_true_iff.
  rewrite !elem_of_cons, elem_of_nil, !N.leb_le. lia.
Qed.

Lemma Canonicalize_eq c c' :
  Canonicalize c = Canonicalize c' →
  c = c' ∨ ((65 ≤ c ≤ 122)%N ∧ (65 ≤ c' ≤ 122)%N).
Proof.
  unfold Canonicalize.
  destruct (N.leb_spec 97 c), (N.leb_spec c 122),
    (N.leb_spec 97 c'), (N.leb_spec c' 122); simpl; intros Heq; lia.
Qed.

Lemma atom_ok_case a c c' :
  Canonicalize c = Canonicalize c' → atom_ok a c = atom_ok a c'.
Proof.
  intros H. destruct a as [p| |p]; simpl; [by rewrite H| |by rewrite H].
  destruct (Canonicalize_eq c c' H) as [->|[Hc Hc']]; [done|].
  destruct (is_space c) eqn:E; destruct (is_space c') eqn:E'; try done.
  - apply is_space_not_letter in E. lia.
  - apply is_space_not_letter in E'. lia.
Qed.

Lemma accepts_case r : ∀ k k' s s',
  Canonicalize <$> s = Canonicalize <$> s' →
  (∀ t t', Canonicalize <$> t = Canonicalize <$> t' → k t = k' t') →
  accepts r k s = accepts r k' s'.
Proof.
  induction r as [|a|a|r IH|r1 IH1 r2 IH2|r1 IH1 r2 IH2|]; intros k k' s s' Hs Hk.
  - simpl. by apply Hk.
  - simpl. destruct s as [|c s], s' as [|c' s']; try done.
    injection Hs as Hc Hs. by rewrite (atom_ok_case a c c' Hc), (Hk s s' Hs).
  - simpl. revert s' Hs. induction s as [|c s IHs]; intros [|c' s'] Hs; try done.
    injection Hs as Hc Hs.
    by rewrite (atom_ok_case a c c' Hc), (Hk s s' Hs), (IHs s' Hs).
  - simpl. by rewrite (IH k k' s s' Hs Hk), (Hk s s' Hs).
  - simpl. apply IH1; [done|]. intros t t' Ht. by apply IH2.
  - simpl. by rewrite (IH1 k k' s s' Hs Hk), (IH2 k k' s s' Hs Hk).
  - simpl. destruct s as [|c s], s' as [|c' s']; try done. by apply Hk.
Qed.

(** X15.  The pattern has the [i] flag and no character class that
    tells letter cases apart: two texts that differ only in the case of
    ASCII letters get the same answer. *)
Theorem image_pattern_ignores_case (text text' : list N) :
  Canonicalize <$> text = Canonicalize <$> text' →
  test image_pattern text = test image_pattern text'.
Proof.
  revert text'. induction text as [|c text IH]; intros [|c' text'] H; try done.
  injection H as Hc H.
  change (accepts image_pattern (λ _, true) (c :: text) || test image_pattern text
          = accepts image_pattern (λ _, true) (c' :: text') || test image_pattern text').
  rewrite (IH text' H). f_equal.
  apply accepts_case; [|done]. rewrite !fmap_cons. f_equal; [exact Hc | exact H].
Qed.

Lemma image_pattern_ignores_case_witness :
  test image_pattern (units "see HTTPS://H/Cat.JpEg?W=1")
  = test image_pattern (units "SEE https://h/cat.jpeg?w=1").
Proof.
  apply image_pattern_ignores_case. reflexivity.
Defined.

(** ** A pasted pattern *)

(** X16.  A text the image pattern accepts is not empty, so pasting it
    as a pattern into the accessor revision always renders: the url of
    the record becomes the text and [view] is invoked once more, with a
    new image element whose [src] is the text. *)
Theorem accepted_pattern_paste_renders {Node} (view : PluginArgs → Node)
    (t : Accessor.SimpleImage) (w : World) (text : string) :
  test image_pattern (units text) = true →
  let s := Accessor.onPaste view (PastePattern text) t w in
  Accessor._data s.1 = {[ "url" := VString text ]} ∪ Accessor._data t ∧
  images s.2 = images w ++ [rendered_image text] ∧
  calls s.2 = calls w ++ [CallView (render_args s.1 (Some (length (images w))))].
Proof.
  intros Htest s.
  assert (text ≠ "") as Hne.
  { intros ->. vm_compute in Htest. discriminate. }
  assert (prop ({[ "url" := VString text ]} ∪ Accessor._data t) "url" = VString text) as Hp
    by (unfold prop; by rewrite (lookup_union_Some_l _ _ _ _ (lookup_singleton_eq _ _))).
  assert (ToBoolean (VString text) = true) as Ht.
  { simpl. destruct (String.eqb_spec text ""); [done|]. done. }
  subst s. cbn [Accessor.onPaste]. rewrite Accessor_set_data_unfold. cbn zeta.
  unfold Accessor.get_data. rewrite Hp, Ht.
  rewrite Accessor_render_truthy by (unfold Accessor.get_data; simpl; by rewrite Hp).
  unfold Accessor.get_data. simpl. by rewrite Hp.
Qed.

Lemma accepted_pattern_paste_renders_witness :
  let t := {| Accessor.id := "k3f9"; Accessor.api := {| getCurrentBlockIndex := 0 |};
              Accessor.config := {| has_initialize := false; has_onpaste := false;
                                    entries := ∅ |};
              Accessor._data := {[ "url" := VString "" ]};
              Accessor.blockIndex := Some 1%Z |} in
  let view := λ _ : PluginArgs, 7 in
  images (Accessor.onPaste view (PastePattern "https://h/cat.jpeg?w=1") t empty_world).2
    = [rendered_image "https://h/cat.jpeg?w=1"].
Proof.
  intros t view.
  refine (proj1 (proj2 (accepted_pattern_paste_renders view t empty_world
                          "https://h/cat.jpeg?w=1" _))).
  reflexivity.
Defined.

(** ** The callbacks of the accessor revision *)

Lemma Accessor_render_views {Node} (view : PluginArgs → Node) t w :
  Forall is_view (calls w) → Forall is_view (calls (Accessor.render view t w).2).
Proof.
  intros H. unfold Accessor.render.
  destruct (ToBoolean _); simpl; apply Forall_app; split; try done;
    by repeat constructor.
Qed.

Lemma Accessor_set_data_views {Node} (view : PluginArgs → Node) d t w :
  Forall is_view (calls w) → Forall is_view (calls (Accessor.set_data view d t w).2).
Proof.
  intros H. rewrite Accessor_set_data_unfold. cbn zeta.
  destruct (ToBoolean _); [|done]. by apply Accessor_render_views.
Qed.

Lemma Accessor_step_views {Node} (view : PluginArgs → Node) s e :
  Forall is_view (calls s.2) → Forall is_view (calls (Accessor.step view s e).2).
Proof.
  intros H. unfold Accessor.step.
  assert (Forall is_view (calls (Accessor.dispatch view e s.1 s.2).2)) as Hd.
  { destruct e as [|b|ev|f|i nw nh|j|r|r];
      [simpl|simpl|unfold Accessor.dispatch|simpl..]; try done.
    - by apply Accessor_render_views.
    - destruct ev as [img|text|file|ty]; try done.
      + by apply Accessor_set_data_views.
      + by apply Accessor_set_data_views.
      + rewrite Accessor_onPaste_file. cbn [snd].
        by destruct (onDropHandler_then_world file s.2) as (_ & _ & -> & _).
    - by destruct (Accessor_image_load_srcs i nw nh s.1 s.2) as [_ ->].
    - by destruct (image_error_srcs j s.2) as [_ ->].
    - by rewrite reader_load_calls.
    - by rewrite reader_error_calls. }
  destruct (Accessor.dispatch view e s.1 s.2) as [t' w']. simpl in Hd.
  apply (Accessor_run_jobs_ind view (λ s, Forall is_view (calls s.2)) (λ _, True)).
  - done.
  - intros j t'' w'' _ H''. simpl in H''. unfold Accessor.run_job.
    destruct (job_reaction j), (job_outcome j) as [|[]|]; simpl; try done.
    by apply Accessor_set_data_views.
  - by apply Forall_forall.
Qed.

Lemma Accessor_run_views {Node} (view : PluginArgs → Node) es s :
  Forall is_view (calls s.2) → Forall is_view (calls (Accessor.run view s es).2).
Proof.
  revert s. induction es as [|e es IH]; intros s H; [done|].
  rewrite Accessor_run_cons. by apply IH, Accessor_step_views.
Qed.

Lemma Accessor_constructor_views {Node} (view : PluginArgs → Node) rnd data cfg api0 :
  Forall is_view (calls (Accessor.constructor view rnd data cfg api0 empty_world).2).
Proof.
  unfold Accessor.constructor.
  pose proof (Accessor_set_data_views view data
    {| Accessor.id := rnd; Accessor.api := api0; Accessor.config := cfg;
       Accessor._data := ∅; Accessor.blockIndex := None |} empty_world) as H.
  destruct (Accessor.set_data view data _ empty_world). apply H. constructor.
Qed.

(** C7.  The constructor records the host's current block index plus
    one, in both revisions.  In the callback revision, when the host
    supplied [initialize], the constructor invokes it with the id, the
    api, that block index, the data and the user config; it is the first
    callback the tool invokes, and no method invokes it again, whatever
    the host does afterwards; without [initialize] it is never invoked.
    The accessor revision has no such callback: whatever the config
    holds and whatever the host does afterwards, the only callback it
    invokes is [view]. *)
Theorem constructor_sets_index_and_initializes {Node} (view : PluginArgs → Node)
    (rnd : string) (data : obj) (cfg : Config) (api0 : Api)
    (es : list Callback.Task) (es' : list Accessor.Task) :
  let s0 := Callback.constructor rnd data cfg api0 empty_world in
  let s := Callback.run view s0 es in
  let a0 := Accessor.constructor view rnd data cfg api0 empty_world in
  let a := Accessor.run view a0 es' in
  Callback.blockIndex s0.1 = (getCurrentBlockIndex api0 + 1)%Z ∧
  Accessor.blockIndex a0.1 = Some (getCurrentBlockIndex api0 + 1)%Z ∧
  Callback.id s0.1 = rnd ∧ Callback.data s0.1 = data ∧
  calls s0.2
    = (if has_initialize cfg then [CallInitialize (initialize_args rnd data cfg api0)]
       else []) ∧
  (∃ rest,
     calls s.2
       = (if has_initialize cfg then [CallInitialize (initialize_args rnd data cfg api0)]
          else []) ++ rest ∧
     Forall (λ c, ¬ is_initialize c) rest) ∧
  Forall is_view (calls a.2) ∧
  Forall (λ c, ¬ is_initialize c) (calls a.2).
Proof.
  intros s0 s a0 a.
  assert (calls s0.2
          = if has_initialize cfg then [CallInitialize (initialize_args rnd data cfg api0)]
            else []) as Hcalls.
  { subst s0. unfold Callback.constructor. by destruct (has_initialize cfg). }
  assert (Forall is_view (calls a.2)) as Hviews.
  { subst a a0. apply Accessor_run_views, Accessor_constructor_views. }
  split; [|split; [|split; [|split; [|split; [done|split; [|split; [done|]]]]]]].
  - subst s0. unfold Callback.constructor. by destruct (has_initialize cfg).
  - subst a0. unfold Accessor.constructor. by destruct (Accessor.set_data _ _ _ _).
  - subst s0. unfold Callback.constructor. by destruct (has_initialize cfg).
  - subst s0. unfold Callback.constructor. by destruct (has_initialize cfg).
  - exists []. split; [|constructor].
    subst s. by rewrite Callback_run_calls, Hcalls, app_nil_r.
  - eapply Forall_impl; [exact Hviews|]. intros c Hv Hi. by destruct c.
Qed.

(** C7, as the claim words it, fails in the accessor revision: handed a
    config with [initialize], its constructor invokes [view] (the setter
    renders the record) and nothing else. *)
Lemma constructor_sets_index_and_initializes_counterexample :
  let view := λ _ : PluginArgs, 7 in
  let cfg := {| has_initialize := true; has_onpaste := false; entries := ∅ |} in
  let a0 := Accessor.constructor view "k3f9" {[ "url" := VString "http://h/a.png" ]}
              cfg {| getCurrentBlockIndex := 4 |} empty_world in
  has_initialize (Accessor.config a0.1) = true ∧
  Accessor.blockIndex a0.1 = Some 5%Z ∧
  calls a0.2 = [CallView (render_args a0.1 (Some 0))] ∧
  Forall (λ c, ¬ is_initialize c) (calls a0.2).
Proof.
  intros view cfg a0.
  assert (calls a0.2 = [CallView (render_args a0.1 (Some 0))]) as Hc by reflexivity.
  split; [reflexivity|]. split; [reflexivity|]. split; [done|].
  rewrite Hc. repeat constructor. auto.
Qed.

(** ** The natural sizes *)

Lemma Callback_dispatch_jobs {Node} (view : PluginArgs → Node) e t w :
  jobs w = [] → Forall job_url_only (jobs (Callback.dispatch view e t w).2).
Proof.
  intros Hj. destruct e as [|b|ev|f|r|r];
    [simpl|simpl|unfold Callback.dispatch|simpl..].
  - rewrite Hj. constructor.
  - rewrite Hj. constructor.
  - destruct ev as [img|text|file|ty].
    + simpl. rewrite Callback_onpaste_result. simpl. rewrite Hj. constructor.
    + simpl. rewrite Callback_onpaste_result. simpl. rewrite Hj. constructor.
    + rewrite Callback_onPaste_file. cbn [snd].
      rewrite onDropHandler_then_jobs, Hj. constructor.
    + simpl. rewrite Hj. constructor.
  - rewrite Hj. constructor.
  - unfold reader_load.
    destruct (readers w !! r) as [fr|]; [|rewrite Hj; constructor].
    destruct (fr_state fr); try (rewrite Hj; constructor).
    destruct (fr_onload fr) as [[]|]; simpl; [|rewrite Hj; constructor].
    apply settle_jobs; [done|]. intros d [= <-]. by eexists.
  - unfold reader_error.
    destruct (readers w !! r) as [fr|]; [|rewrite Hj; constructor].
    destruct (fr_state fr); try (rewrite Hj; constructor).
    destruct (fr_onerror fr) as [[]|]; simpl; [|rewrite Hj; constructor].
    apply settle_jobs; [done|]. intros d [=].
Qed.

Lemma Callback_dispatch_sizes {Node} (view : PluginArgs → Node) e t w :
  sizes_absent (Callback.data t) →
  sizes_absent (Callback.data (Callback.dispatch view e t w).1).
Proof.
  intros [Hw Hh]. destruct e as [|b|ev|f|r|r]; simpl; try done.
  - unfold Callback.save. destruct (querySelector_img b) as [img|]; [|done].
    simpl. rewrite Object_assign_url.
    split; by rewrite lookup_insert_ne.
  - destruct ev as [img|text|file|ty]; simpl; try done.
    + by rewrite Callback_onpaste_result.
    + by rewrite Callback_onpaste_result.
Qed.

Lemma Callback_run_jobs_sizes t w :
  Forall job_url_only (jobs w) → sizes_absent (Callback.data t) →
  sizes_absent (Callback.data (Callback.run_jobs t w).1).
Proof.
  intros HQ Ht. unfold Callback.run_jobs.
  assert (sizes_absent (Callback.data (t, set_jobs (λ _ : list Job, []) w).1)) as Hs
    by done.
  revert Hs. generalize (t, set_jobs (λ _ : list Job, []) w).
  induction HQ as [|j js Hj _ IH]; intros s Hs; simpl; [done|].
  apply IH. unfold Callback.run_job.
  destruct (job_reaction j), (job_outcome j) as [|[i|d|i]|] eqn:Ho; simpl; try done.
  by destruct (Hj d Ho) as [u ->].
Qed.

Lemma Callback_run_sizes {Node} (view : PluginArgs → Node) es s :
  jobs s.2 = [] → sizes_absent (Callback.data s.1) →
  sizes_absent (Callback.data (Callback.run view s es).1).
Proof.
  revert s. induction es as [|e es IH]; intros s Hj Hs; [done|].
  simpl. apply IH; [apply Callback_step_jobs|].
  unfold Callback.step.
  pose proof (Callback_dispatch_jobs view e s.1 s.2 Hj) as Hjobs.
  pose proof (Callback_dispatch_sizes view e s.1 s.2 Hs) as Hd.
  destruct (Callback.dispatch view e s.1 s.2) as [t' w'].
  by apply Callback_run_jobs_sizes.
Qed.

(** C6.  In the accessor revision: until a [load] event of an image has
    been delivered, whatever else was done (rendering included),
    [naturalWidth] and [naturalHeight] are what they were in the record
    the tool was built from.  For a tool built from a record without
    them they are absent until then, and whenever they are present they
    are the numbers an image element reported when it loaded.  Whatever
    the record was, right after the [load] callback of an element they
    are that element's natural width and height.  In the callback
    revision no image element ever exists, so none loads, and a record
    built without sizes never gets them. *)
Theorem natural_size_recorded_on_load {Node} (view : PluginArgs → Node)
    (rnd : string) (data : obj) (cfg : Config) (api0 : Api)
    (es : list Accessor.Task) (es0 : list Callback.Task) :
  let s := Accessor.run view
             (Accessor.constructor view rnd data cfg api0 empty_world) es in
  let c := Callback.run view
             (Callback.constructor rnd data cfg api0 empty_world) es0 in
  (Forall (λ e, ¬ is_load e) es →
     Accessor._data s.1 !! "naturalWidth" = data !! "naturalWidth" ∧
     Accessor._data s.1 !! "naturalHeight" = data !! "naturalHeight") ∧
  (sizes_absent data →
     (Forall (λ e, ¬ is_load e) es → sizes_absent (Accessor._data s.1)) ∧
     (sizes_absent (Accessor._data s.1) ∨
      sizes_of_loaded_image (Accessor._data s.1) s.2)) ∧
  (∀ i im nw nh, images s.2 !! i = Some im → img_state im = Loading →
     let s' := Accessor.step view s (Accessor.ImageLoad i nw nh) in
     sizes_are (Accessor._data s'.1) nw nh ∧
     img_state <$> images s'.2 !! i = Some (Loaded nw nh)) ∧
  images c.2 = [] ∧
  (sizes_absent data → sizes_absent (Callback.data c.1)).
Proof.
  intros s c.
  destruct (Accessor_constructor_world view rnd data cfg api0) as (Hj0 & Hh0 & Hd0).
  split; [|split; [|split; [|split]]].
  - intros Hes. subst s.
    rewrite !Accessor_run_data_frame by done. by rewrite Hd0.
  - intros Habs.
    assert (size_invariant (Accessor.constructor view rnd data cfg api0 empty_world)) as H0.
    { split; [done|]. split; [done|]. left. by rewrite Hd0. }
    pose proof (Accessor_run_size_invariant view es _ H0) as (_ & _ & Hsz).
    split; [|done].
    intros Hes. subst s. apply Accessor_run_sizes_absent; [done| |done].
    by rewrite Hd0.
  - intros i im nw nh Hi Hs s'.
    assert (jobs s.2 = []) as Hj by (subst s; by apply Accessor_run_jobs_after).
    assert (Forall has_handlers (images s.2)) as Hh
      by (subst s; by apply Accessor_run_handlers).
    assert (has_handlers im) as Him
      by (eapply Forall_forall; [exact Hh | by eapply list_elem_of_lookup_2]).
    destruct (Accessor_step_image_load view s i nw nh im Hj Hi Hs Him)
      as (Hsizes & (im' & Hi' & Hs') & _).
    split; [done|]. subst s'. by rewrite Hi'; simpl; rewrite Hs'.
  - subst c. rewrite Callback_run_images. apply Callback_constructor_calls.
  - intros Habs. subst c. apply Callback_run_sizes.
    + unfold Callback.constructor. by destruct (has_initialize cfg).
    + unfold Callback.constructor. by destruct (has_initialize cfg).
Qed.

Lemma natural_size_recorded_on_load_witness :
  let view := λ _ : PluginArgs, 7 in
  let cfg := {| has_initialize := false; has_onpaste := false; entries := ∅ |} in
  let s := Accessor.run view
             (Accessor.constructor view "k3f9" {[ "url" := VString "http://h/a.png" ]}
                cfg {| getCurrentBlockIndex := 0 |} empty_world)
             [Accessor.DoRender] in
  sizes_absent (Accessor._data s.1) ∧
  sizes_are (Accessor._data (Accessor.step view s (Accessor.ImageLoad 1 640 480)).1) 640 480.
Proof.
  intros view cfg s.
  assert (sizes_absent ({[ "url" := VString "http://h/a.png" ]} : obj)) as Habs
    by (split; reflexivity).
  destruct (natural_size_recorded_on_load view "k3f9"
              {[ "url" := VString "http://h/a.png" ]} cfg
              {| getCurrentBlockIndex := 0 |} [Accessor.DoRender] [])
    as (_ & Hnone & Hload & _).
  split.
  - apply (Hnone Habs). repeat constructor; simpl; auto.
  - refine (proj1 (Hload 1 (rendered_image "http://h/a.png") 640%Z 480%Z _ _));
      reflexivity.
Defined.

(** C6, as the claim words it, fails for a record that carries sizes,
    such as the record [save] returned after an earlier load: the setter
    copies every field, so right after construction, with the only image
    element still loading, both sizes are present, and they are the
    sizes of no element that has loaded. *)
Lemma natural_size_recorded_on_load_counterexample :
  let view := λ _ : PluginArgs, 7 in
  let cfg := {| has_initialize := false; has_onpaste := false; entries := ∅ |} in
  let data : obj := <["naturalHeight" := VNumber 480]>
                      (<["naturalWidth" := VNumber 640]>
                         {[ "url" := VString "http://h/a.png" ]}) in
  let s := Accessor.run view
             (Accessor.constructor view "k3f9" data cfg
                {| getCurrentBlockIndex := 0 |} empty_world) [] in
  images s.2 = [rendered_image "http://h/a.png"] ∧
  img_state (rendered_image "http://h/a.png") = Loading ∧
  sizes_are (Accessor._data s.1) 640 480 ∧
  ¬ sizes_absent (Accessor._data s.1) ∧
  ¬ sizes_of_loaded_image (Accessor._data s.1) s.2.
Proof.
  intros view cfg data s.
  assert (images s.2 = [rendered_image "http://h/a.png"]) as Hi by reflexivity.
  assert (sizes_are (Accessor._data s.1) 640 480) as Hs by (split; reflexivity).
  split; [done|]. split; [done|]. split; [done|]. split.
  - intros [Hw _]. destruct Hs as [Hs _]. rewrite Hw in Hs. discriminate.
  - intros (i & im & nw & nh & Him & Hst & _). rewrite Hi in Him.
    destruct i as [|i]; simpl in Him; [|done].
    injection Him as <-. discriminate.
Qed.
